(** * Favorites service: domain validation and cache-consistent orchestration

    A shallow embedding of the Go packages
    [internal/core/domain/favorites] (asset variants and their [Validate]
    methods) and [internal/core/service] (the [Service] type that
    orchestrates the Store, Cache and Enricher ports), followed by the
    properties proved about them.  Around the service come the code that
    feeds it and the code it runs on: the configuration loader
    ([config]), the request parsing and the HTTP handlers ([rest]), the
    Redis and Postgres adapters, the instrumented cache
    ([observability]) and the authentication service, each embedded the
    same way over its own collaborators.

    Conventions.
    - Go [string] is [string]; Go [int] fields are [Z]; [[]byte] is
      [list byte]; [map[string][]byte] is [gmap string (list byte)].
    - A Go [error] value is a term of [error]; a nil error is [None].
    - The three ports are interfaces in Go.  A method call on a port is an
      event [Call] of a small free monad [Prog]; its answer comes from the
      environment.  Running a program against an environment gives the
      returned value together with the ordered trace of calls and answers,
      so "calls the Store exactly once" is a statement about that trace.
    - OpenTelemetry spans carry no data back into the service and are left
      out; logger calls are kept as events. *)

From Stdlib Require Import ZArith Lia.
From Stdlib.Strings Require Import Byte.
From stdpp Require Import base strings list gmap.

Local Open Scope string_scope.
Local Open Scope Z_scope.
Local Open Scope list_scope.

Abbreviation byte := Byte.byte.

(* ===================================================================== *)
(** ** Go errors *)
(* ===================================================================== *)

Module GoError.

(** [New msg] is [errors.New(msg)].  [Errorf pre inner post] is
    [fmt.Errorf(pre ++ "%w" ++ post, inner)]: a new error that wraps
    [inner]. *)
Inductive error : Type :=
| New (msg : string)
| Errorf (pre : string) (inner : error) (post : string).

(** The [Error()] method. *)
Fixpoint Error (e : error) : string :=
  match e with
  | New msg => msg
  | Errorf pre inner post => pre +:+ Error inner +:+ post
  end.

(** [errors.Unwrap]. *)
Definition Unwrap (e : error) : option error :=
  match e with
  | New _ => None
  | Errorf _ inner _ => Some inner
  end.

#[global] Instance error_eq_dec : EqDecision error.
Proof. solve_decision. Defined.

(** [errors.Is]: walks the chain of wrapped errors. *)
Fixpoint Is (e target : error) : bool :=
  bool_decide (e = target) ||
  match e with
  | New _ => false
  | Errorf _ inner _ => Is inner target
  end.

End GoError.
Export GoError.

(* ===================================================================== *)
(** ** Package favorites: the asset model *)
(* ===================================================================== *)

Module favorites.

(** [var ErrValidation = errors.New("validation failed")] *)
Definition ErrValidation : error := New "validation failed".

(** [type AssetType string] with its three constants. *)
Definition AssetType := string.
Definition AssetTypeChart : AssetType := "chart".
Definition AssetTypeInsight : AssetType := "insight".
Definition AssetTypeAudience : AssetType := "audience".

Record BaseAsset : Type := mkBaseAsset {
  ID : string;
  UserID : string;
  Type_ : AssetType;
  Name : string;
  Description : string
}.

Record Chart : Type := mkChart {
  chart_base : BaseAsset;
  XAxis : string;
  YAxis : string
}.

Record Insight : Type := mkInsight {
  insight_base : BaseAsset;
  Content : string
}.

Record AudienceRules : Type := mkAudienceRules {
  Gender : string;
  Country : string;
  AgeMin : Z;
  AgeMax : Z
}.

Record Audience : Type := mkAudience {
  audience_base : BaseAsset;
  Rules : AudienceRules
}.

(** The sealed interface [Asset]: exactly the three embedding structs. *)
Inductive Asset : Type :=
| AChart (c : Chart)
| AInsight (i : Insight)
| AAudience (a : Audience).

Definition base (a : Asset) : BaseAsset :=
  match a with
  | AChart c => chart_base c
  | AInsight i => insight_base i
  | AAudience a => audience_base a
  end.

Definition GetID (a : Asset) : string := ID (base a).
Definition GetUserID (a : Asset) : string := UserID (base a).
Definition GetType (a : Asset) : AssetType := Type_ (base a).

(** [func (b BaseAsset) ValidateCommon(expectedType AssetType) error] *)
Definition ValidateCommon (b : BaseAsset) (expectedType : AssetType)
  : option error :=
  if decide (ID b = "") then
    Some (Errorf "" ErrValidation ": id is required")
  else if decide (Name b = "") then
    Some (Errorf "" ErrValidation ": name is required")
  else if decide (Type_ b <> expectedType) then
    Some (Errorf "" ErrValidation
            (": invalid asset type: expected " +:+ expectedType
               +:+ ", got " +:+ Type_ b))
  else None.

(** [func (c Chart) Validate() error] *)
Definition Chart_Validate (c : Chart) : option error :=
  match ValidateCommon (chart_base c) AssetTypeChart with
  | Some err => Some err
  | None =>
      if decide (XAxis c = "" /\ YAxis c = "") then
        Some (Errorf "" ErrValidation
                ": chart requires at least one axis to be defined")
      else None
  end.

(** [func (i Insight) Validate() error] *)
Definition Insight_Validate (i : Insight) : option error :=
  match ValidateCommon (insight_base i) AssetTypeInsight with
  | Some err => Some err
  | None =>
      if decide (Content i = "") then
        Some (Errorf "" ErrValidation ": content is required for Insight")
      else None
  end.

(** [func (a Audience) Validate() error] *)
Definition Audience_Validate (a : Audience) : option error :=
  match ValidateCommon (audience_base a) AssetTypeAudience with
  | Some err => Some err
  | None =>
      if decide (Country (Rules a) = "") then
        Some (Errorf "" ErrValidation
                ": country rule is required for Audience")
      else if decide (AgeMin (Rules a) < 0 \/ AgeMax (Rules a) < 0) then
        Some (Errorf "" ErrValidation ": age limits cannot be negative")
      else if decide (AgeMax (Rules a) > 0
                      /\ AgeMin (Rules a) > AgeMax (Rules a)) then
        Some (Errorf "" ErrValidation
                ": age_min cannot be greater than age_max")
      else None
  end.

(** Dynamic dispatch of [Validate] through the interface. *)
Definition Validate (a : Asset) : option error :=
  match a with
  | AChart c => Chart_Validate c
  | AInsight i => Insight_Validate i
  | AAudience a => Audience_Validate a
  end.

(** *** The validation rules as the specification words them

    Each rule is a pair of a decidable "violated" test and the error the
    rule reports; [first_violation] reports the first violated rule of an
    ordered rule list. *)

Definition rule := (bool * error)%type.

Fixpoint first_violation (rs : list rule) : option error :=
  match rs with
  | [] => None
  | (violated, err) :: rs' =>
      if violated then Some err else first_violation rs'
  end.

(** The concrete variant's own discriminator. *)
Definition variant_type (a : Asset) : AssetType :=
  match a with
  | AChart _ => AssetTypeChart
  | AInsight _ => AssetTypeInsight
  | AAudience _ => AssetTypeAudience
  end.

Definition shared_rules (a : Asset) : list rule :=
  [ (bool_decide (GetID a = ""),
     Errorf "" ErrValidation ": id is required");
    (bool_decide (Name (base a) = ""),
     Errorf "" ErrValidation ": name is required");
    (bool_decide (GetType a <> variant_type a),
     Errorf "" ErrValidation
       (": invalid asset type: expected " +:+ variant_type a
          +:+ ", got " +:+ GetType a)) ].

Definition variant_rules (a : Asset) : list rule :=
  match a with
  | AChart c =>
      [ (bool_decide (XAxis c = "") && bool_decide (YAxis c = ""),
         Errorf "" ErrValidation
           ": chart requires at least one axis to be defined") ]
  | AInsight i =>
      [ (bool_decide (Content i = ""),
         Errorf "" ErrValidation ": content is required for Insight") ]
  | AAudience a =>
      [ (bool_decide (Country (Rules a) = ""),
         Errorf "" ErrValidation ": country rule is required for Audience");
        ((AgeMin (Rules a) <? 0) || (AgeMax (Rules a) <? 0),
         Errorf "" ErrValidation ": age limits cannot be negative");
        ((0 <? AgeMax (Rules a)) && (AgeMax (Rules a) <? AgeMin (Rules a)),
         Errorf "" ErrValidation
           ": age_min cannot be greater than age_max") ]
  end.

(** Shared fields valid: non-empty id, non-empty name, discriminator
    matching the concrete variant. *)
Definition shared_valid (a : Asset) : Prop :=
  GetID a <> "" /\ Name (base a) <> "" /\ GetType a = variant_type a.

(** The variant rule. For an Audience "max is set" means a non-zero
    upper bound. *)
Definition variant_valid (a : Asset) : Prop :=
  match a with
  | AChart c => XAxis c <> "" \/ YAxis c <> ""
  | AInsight i => Content i <> ""
  | AAudience a =>
      Country (Rules a) <> "" /\
      0 <= AgeMin (Rules a) /\ 0 <= AgeMax (Rules a) /\
      (AgeMax (Rules a) <> 0 -> AgeMin (Rules a) <= AgeMax (Rules a))
  end.

End favorites.
Export favorites.

(* ===================================================================== *)
(** ** Package ports: the three collaborators as events *)
(* ===================================================================== *)

Module ports.

(** The two parameters of a [yield] callback of an
    [iter.Seq2[favorites.Asset, error]], and the two results of a Go
    function returning [(favorites.Asset, error)]; either may be nil. *)
Definition AssetResult := (option Asset * option error)%type.

(** What a Store iterator produces for one row. *)
Definition RepoItem := (error + Asset)%type.

Inductive LogLevel : Type := LInfo | LWarn | LError.

(** One constructor per method of [ports.FavoriteRepository],
    [ports.Cache] and [ports.Enricher], plus the clock read by
    [time.Now().Unix()], the logger, and the consumer's [yield]. *)
Inductive Call : Type :=
| RepoSave (asset : Asset)
| RepoFindByID (id : string)
| RepoFindAll (limit offset : Z)
| RepoFindByUser (userID : string) (limit offset : Z)
| RepoDelete (id : string)
| RepoUpdateDescription (id description : string)
| CacheAddToSet (id : string) (score : Z)
| CacheSet (id : string) (data : list byte)
| CacheGetBatch (ids : list string)
| CacheGetIdsFromSet (start stop : Z)
| CacheRemove (id : string)
| CacheInvalidate (id : string)
| EnricherEnrich (asset : Asset)
| TimeNowUnix
| Log (lvl : LogLevel) (msg : string)
| Yield (item : AssetResult).

(** The answer type of each call.  A port method returning
    [(T, error)] answers with a sum: the service never looks at the value
    when the error is non-nil.  [Enrich] receives the asset boxed by value
    in the interface, so it cannot change the caller's copy and only its
    error comes back.  The score is the Unix time in seconds. *)
Definition Resp (c : Call) : Type :=
  match c with
  | RepoSave _ => option error
  | RepoFindByID _ => (error + Asset)%type
  | RepoFindAll _ _ => (error + list RepoItem)%type
  | RepoFindByUser _ _ _ => (error + list RepoItem)%type
  | RepoDelete _ => option error
  | RepoUpdateDescription _ _ => (error + Asset)%type
  | CacheAddToSet _ _ => option error
  | CacheSet _ _ => option error
  | CacheGetBatch _ => (error + gmap string (list byte))%type
  | CacheGetIdsFromSet _ _ => (error + list string)%type
  | CacheRemove _ => option error
  | CacheInvalidate _ => option error
  | EnricherEnrich _ => option error
  | TimeNowUnix => Z
  | Log _ _ => unit
  | Yield _ => bool
  end.

(** Programs over the ports. *)
Inductive Prog (A : Type) : Type :=
| Ret (a : A)
| Do (c : Call) (k : Resp c -> Prog A).

Arguments Ret {A} a.
Arguments Do {A} c k.

Fixpoint bind {A B : Type} (p : Prog A) (f : A -> Prog B) : Prog B :=
  match p with
  | Ret a => f a
  | Do c k => Do c (fun r => bind (k r) f)
  end.

Definition call (c : Call) : Prog (Resp c) := Do c Ret.

(** An [iter.Seq2[favorites.Asset, error]]: the body that runs when a
    consumer ranges over it; each element is handed over by a [Yield]
    event whose answer tells whether the consumer wants more. *)
Definition Seq2 := Prog unit.

(** An event of a run: the call and the answer it got. *)
Definition Event := sigT Resp.
Definition ev (c : Call) (r : Resp c) : Event := existT c r.

Section Run.
Context {W : Type}.
Variable handle : forall c : Call, W -> Resp c * W.

(** Runs [p] from environment state [w]: result, final state, trace. *)
Fixpoint run {A : Type} (p : Prog A) (w : W) : A * W * list Event :=
  match p with
  | Ret a => (a, w, [])
  | Do c k =>
      let '(r, w1) := handle c w in
      let '(a, w2, tr) := run (k r) w1 in
      (a, w2, ev c r :: tr)
  end.

(** What the environment answers to [c] in state [w], and the state it
    moves to. *)
Definition answer (c : Call) (w : W) : Resp c := (handle c w).1.
Definition after (c : Call) (w : W) : W := (handle c w).2.

Definition result {A : Type} (p : Prog A) (w : W) : A := (run p w).1.1.
Definition final {A : Type} (p : Prog A) (w : W) : W := (run p w).1.2.
Definition trace {A : Type} (p : Prog A) (w : W) : list Event :=
  (run p w).2.
End Run.

(** Classification of calls, for counting. *)
Definition is_store (c : Call) : bool :=
  match c with
  | RepoSave _ | RepoFindByID _ | RepoFindAll _ _ | RepoFindByUser _ _ _
  | RepoDelete _ | RepoUpdateDescription _ _ => true
  | _ => false
  end.

Definition is_store_mutation (c : Call) : bool :=
  match c with
  | RepoSave _ | RepoDelete _ | RepoUpdateDescription _ _ => true
  | _ => false
  end.

Definition is_cache (c : Call) : bool :=
  match c with
  | CacheAddToSet _ _ | CacheSet _ _ | CacheGetBatch _
  | CacheGetIdsFromSet _ _ | CacheRemove _ | CacheInvalidate _ => true
  | _ => false
  end.

Definition is_enricher (c : Call) : bool :=
  match c with EnricherEnrich _ => true | _ => false end.

Definition is_yield (c : Call) : bool :=
  match c with Yield _ => true | _ => false end.

Definition is_log (c : Call) : bool :=
  match c with Log _ _ => true | _ => false end.

(** The calls of a trace, and how many of them satisfy a test. *)
Definition calls (tr : list Event) : list Call := map (@projT1 _ _) tr.

Definition count (f : Call -> bool) (tr : list Event) : nat :=
  length (List.filter f (calls tr)).

Definition is_cache_read (c : Call) : bool :=
  match c with
  | CacheGetBatch _ | CacheGetIdsFromSet _ _ => true
  | _ => false
  end.

(** The calls of a trace without the logger's. *)
Definition port_calls (tr : list Event) : list Call :=
  List.filter (fun c => negb (is_log c)) (calls tr).

(** The items handed to the consumer, in order. *)
Fixpoint yields (tr : list Event) : list AssetResult :=
  match tr with
  | [] => []
  | existT (Yield item) _ :: tr' => item :: yields tr'
  | _ :: tr' => yields tr'
  end.

(** The assets among yielded items. *)
Definition yielded_assets (tr : list Event) : list Asset :=
  omap fst (yields tr).

(** A failed batch read: the ids asked for and the error answered. *)
Definition batch_error (e : Event) : option (list string * error) :=
  match e with
  | existT (CacheGetBatch ids) (inl err) => Some (ids, err)
  | _ => None
  end.

(** Cuts a trace at its first failed batch read: the events before it, the
    ids and the error of the read, the events after it. *)
Fixpoint split_at_batch_error (tr : list Event)
  : option (list Event * (list string * error) * list Event) :=
  match tr with
  | [] => None
  | e :: tr' =>
      match batch_error e with
      | Some ie => Some ([], ie, tr')
      | None =>
          match split_at_batch_error tr' with
          | Some (before, ie, rest) => Some (e :: before, ie, rest)
          | None => None
          end
      end
  end.

(** An item that carries an asset and no error. *)
Definition is_asset_item (item : AssetResult) : Prop :=
  is_Some item.1 /\ item.2 = None.

(** What the answer to [GetBatch(ids)] must satisfy as a partial map of
    the requested ids: every key is one of [ids]. *)
Definition batch_within (ids : list string)
    (r : error + gmap string (list byte)) : Prop :=
  match r with
  | inl _ => True
  | inr batch => forall k, is_Some (batch !! k) -> k ∈ ids
  end.

(** A cache miss for [id]: the batch read failed, or its result has no
    entry for [id]. *)
Definition cache_miss (id : string)
    (r : error + gmap string (list byte)) : Prop :=
  match r with
  | inl _ => True
  | inr batch => batch !! id = None
  end.

(** The shape of the trace of a loop over [n] ids that is followed by the
    program [next]: either the loop was left early -- no batch read
    failed and at most [n] items were yielded -- or every one of the [n]
    ids yielded an asset and the trace goes on with a run of [next]. *)
Definition loop_trace {W : Type} (handle : forall c : Call, W -> Resp c * W)
    (n : nat) (next : Prog unit) (tr : list Event) : Prop :=
  (split_at_batch_error tr = None /\ (length (yields tr) <= n)%nat)
  \/ (exists tr0 w',
        tr = tr0 ++ trace handle next w'
        /\ split_at_batch_error tr0 = None
        /\ length (yields tr0) = n
        /\ Forall is_asset_item (yields tr0)).

End ports.
Export ports.

Declare Scope prog_scope.
Delimit Scope prog_scope with prog.
Notation "x <- p ;; q" := (bind p (fun x => q))
  (at level 100, p at next level, right associativity) : prog_scope.
Notation "p ;; q" := (bind p (fun _ => q))
  (at level 100, right associativity) : prog_scope.

(* ===================================================================== *)
(** ** Package service: the orchestration layer *)
(* ===================================================================== *)

(** [encoding/json] on the asset types, as the service uses it:
    [json.Marshal(asset)] and [json.Unmarshal(data, &v)] for [v] a
    [BaseAsset], [Chart], [Insight] or [Audience]. *)
Class JSON : Type := {
  Marshal : Asset -> error + list byte;
  UnmarshalBase : list byte -> error + BaseAsset;
  UnmarshalChart : list byte -> error + Chart;
  UnmarshalInsight : list byte -> error + Insight;
  UnmarshalAudience : list byte -> error + Audience
}.

Module service.

Local Open Scope prog_scope.

(** Go's [int] and [int64] are 64-bit two's complement. *)
Definition wrap_int (z : Z) : Z := (z + 2 ^ 63) mod 2 ^ 64 - 2 ^ 63.

(** [ids[i:end]] for [0 <= i <= end <= len(ids)]. *)
Definition slice {A : Type} (l : list A) (i j : nat) : list A :=
  take (j - i) (drop i l).

(** [const batchSize = 100] of [chunkedCacheIterator]. *)
Definition batchSize : nat := 100.

Section Service.
Context `{JSON}.

(** [func (s *Service) updateCache(ctx, asset)] *)
Definition updateCache (asset : Asset) : Prog unit :=
  match Marshal asset with
  | inl err => call (Log LError "failed to marshal asset for cache")
  | inr data =>
      score <- call TimeNowUnix;;
      e1 <- call (CacheAddToSet (GetID asset) score);;
      (if e1 is Some _
       then call (Log LError "failed to update cache set")
       else Ret ());;
      e2 <- call (CacheSet (GetID asset) data);;
      (if e2 is Some _
       then call (Log LError "failed to set cache data")
       else Ret ())
  end.

(** [func (s *Service) enrichAndSaveCache(ctx, asset)
      (favorites.Asset, error)] *)
Definition enrichAndSaveCache (asset : Asset) : Prog AssetResult :=
  e <- call (EnricherEnrich asset);;
  (if e is Some _
   then call (Log LWarn "enrichment failed, caching unenriched asset")
   else Ret ());;
  updateCache asset;;
  Ret (Some asset, None).

(** [func (s *Service) Save(ctx, asset) error] *)
Definition Save (asset : Asset) : Prog (option error) :=
  call (Log LInfo "saving asset");;
  match Validate asset with
  | Some err => Ret (Some (Errorf "validation failed: " err ""))
  | None =>
      e <- call (RepoSave asset);;
      match e with
      | Some err => Ret (Some (Errorf "failed to save to db: " err ""))
      | None =>
          r <- enrichAndSaveCache asset;;
          (if r.2 is Some _
           then call (Log LWarn "failed to enrich and cache on save")
           else Ret ());;
          Ret None
      end
  end.

(** [func (s *Service) unmarshal(data []byte) (favorites.Asset, error)] *)
Definition unmarshal (data : list byte) : AssetResult :=
  match UnmarshalBase data with
  | inl err => (None, Some err)
  | inr b =>
      if decide (Type_ b = AssetTypeChart) then
        match UnmarshalChart data with
        | inl err => (None, Some err)
        | inr c => (Some (AChart c), None)
        end
      else if decide (Type_ b = AssetTypeInsight) then
        match UnmarshalInsight data with
        | inl err => (None, Some err)
        | inr i => (Some (AInsight i), None)
        end
      else if decide (Type_ b = AssetTypeAudience) then
        match UnmarshalAudience data with
        | inl err => (None, Some err)
        | inr a => (Some (AAudience a), None)
        end
      else (None, Some (New ("unknown type: " +:+ Type_ b)))
  end.

(** [func (s *Service) FindByID(ctx, id) (favorites.Asset, error)].
    [batch[id]] on a map without [id] is the nil slice. *)
Definition FindByID (id : string) : Prog AssetResult :=
  let fromStore : Prog AssetResult :=
    r' <- call (RepoFindByID id);;
    match r' with
    | inl err => Ret (None, Some err)
    | inr asset => enrichAndSaveCache asset
    end in
  r <- call (CacheGetBatch [id]);;
  match r with
  | inr batch =>
      if decide (0 < size batch)%nat
      then Ret (unmarshal (default [] (batch !! id)))
      else fromStore
  | inl _ => fromStore
  end.

(** The inner loop [for _, id := range chunkIds] of
    [chunkedCacheIterator]; [next] is what follows the loop. A [return]
    inside the loop ends the whole iterator. *)
Fixpoint chunkBody (dataMap : gmap string (list byte))
    (chunkIds : list string) (next : Prog unit) : Prog unit :=
  match chunkIds with
  | [] => next
  | id :: rest =>
      match dataMap !! id with
      | None =>
          call (Log LWarn
            "cache inconsistency detected (missing data), repairing from db");;
          r <- call (RepoFindByID id);;
          match r with
          | inl err =>
              call (Yield (None, Some (Errorf
                ("failed to repair cache for id " +:+ id +:+ ": ") err "")));;
              Ret ()
          | inr asset =>
              enriched <- enrichAndSaveCache asset;;
              continue <- call (Yield (enriched.1, None));;
              if continue : bool then chunkBody dataMap rest next
              else Ret ()
          end
      | Some data =>
          match unmarshal data with
          | (_, Some err) =>
              call (Yield (None, Some (Errorf
                ("failed to unmarshal cached asset " +:+ id +:+ ": ")
                err "")));;
              Ret ()
          | (asset, None) =>
              continue <- call (Yield (asset, None));;
              if continue : bool then chunkBody dataMap rest next
              else Ret ()
          end
      end
  end.

(** The outer loop [for i := 0; i < len(ids); i += batchSize], entered
    with loop variable [i].  [fuel] bounds the number of iterations;
    [length ids - i] always suffices (see [chunkLoop_fuel]). *)
Fixpoint chunkLoop (fuel : nat) (ids : list string) (i : nat)
  : Prog unit :=
  if decide (i < length ids)%nat then
    match fuel with
    | O => Ret ()
    | S fuel' =>
        let end_ := Nat.min (i + batchSize) (length ids) in
        let chunkIds := slice ids i end_ in
        r <- call (CacheGetBatch chunkIds);;
        match r with
        | inl err =>
            call (Yield (None,
              Some (Errorf "failed to fetch cache batch: " err "")));;
            Ret ()
        | inr dataMap =>
            chunkBody dataMap chunkIds
              (chunkLoop fuel' ids (i + batchSize))
        end
    end
  else Ret ().

(** [func (s *Service) chunkedCacheIterator(ctx, ids) iter.Seq2[...]] *)
Definition chunkedCacheIterator (ids : list string) : Seq2 :=
  chunkLoop (length ids) ids 0.

(** [for asset, err := range input { body }] over a Store iterator that
    produces [items]; [body] answers whether the loop goes on ([false]
    after a [return] in the body). *)
Fixpoint range_items (items : list RepoItem)
    (body : RepoItem -> Prog bool) : Prog unit :=
  match items with
  | [] => Ret ()
  | it :: rest =>
      continue <- body it;;
      if continue : bool then range_items rest body else Ret ()
  end.

(** A Store iterator handed to the consumer as it is. *)
Definition repoSeq (items : list RepoItem) : Seq2 :=
  range_items items (fun it =>
    match it with
    | inl err => call (Yield (None, Some err))
    | inr asset => call (Yield (Some asset, None))
    end).

(** The loop body of [cacheIterator]. *)
Definition cacheIteratorBody (it : RepoItem) : Prog bool :=
  match it with
  | inl err => call (Yield (None, Some err));; Ret false
  | inr asset =>
      r <- enrichAndSaveCache asset;;
      (if r.2 is Some _
       then call (Log LWarn "failed to enrich asset during stream")
       else Ret ());;
      enriched <- enrichAndSaveCache asset;;
      call (Yield (enriched.1, None))
  end.

(** [func (s *Service) cacheIterator(ctx, input) iter.Seq2[...]] *)
Definition cacheIterator (input : list RepoItem) : Seq2 :=
  range_items input cacheIteratorBody.

(** [func (s *Service) FindAll(ctx, limit, offset)
      (iter.Seq2[favorites.Asset, error], error)] *)
Definition FindAll (limit offset : Z) : Prog (error + Seq2) :=
  let start := offset in
  let stop := wrap_int (wrap_int (offset + limit) - 1) in
  r <- call (CacheGetIdsFromSet start stop);;
  match r with
  | inr (id :: ids') =>
      call (Log LInfo "cache hit for favorites list (chunked)");;
      Ret (inr (chunkedCacheIterator (id :: ids')))
  | _ =>
      call (Log LInfo "streaming favorites from db");;
      r' <- call (RepoFindAll limit offset);;
      match r' with
      | inl err => Ret (inl err)
      | inr repoIter => Ret (inr (cacheIterator repoIter))
      end
  end.

(** [func (s *Service) FindAllByUser(ctx, userID, limit, offset)] *)
Definition FindAllByUser (userID : string) (limit offset : Z)
  : Prog (error + Seq2) :=
  r <- call (RepoFindByUser userID limit offset);;
  match r with
  | inl err => Ret (inl err)
  | inr items => Ret (inr (repoSeq items))
  end.

(** [func (s *Service) Delete(ctx, id, userID) error] *)
Definition Delete (id userID : string) : Prog (option error) :=
  r <- call (RepoFindByID id);;
  match r with
  | inl err => Ret (Some err)
  | inr asset =>
      if decide (GetUserID asset <> userID) then
        Ret (Some (New "forbidden: you do not own this asset"))
      else
        e <- call (RepoDelete id);;
        match e with
        | Some err => Ret (Some err)
        | None => call (CacheRemove id)
        end
  end.

(** [func (s *Service) UpdateDescription(ctx, id, description, userID)
      (favorites.Asset, error)] *)
Definition UpdateDescription (id description userID : string)
  : Prog AssetResult :=
  r <- call (RepoFindByID id);;
  match r with
  | inl err => Ret (None, Some err)
  | inr asset =>
      if decide (GetUserID asset <> userID) then
        Ret (None, Some (New "forbidden: you do not own this asset"))
      else
        r' <- call (RepoUpdateDescription id description);;
        match r' with
        | inl err => Ret (None, Some err)
        | inr updatedAsset =>
            e <- call (CacheRemove id);;
            (if e is Some _
             then call (Log LError
                    "failed to invalidate cache after update")
             else Ret ());;
            Ret (Some updatedAsset, None)
        end
  end.

End Service.

(** The whole of a [FindAll] call as its caller sees it: the call itself
    and then ranging over the returned sequence. *)
Definition FindAll_consume `{JSON} (limit offset : Z)
  : Prog (option error) :=
  r <- FindAll limit offset;;
  match r with
  | inl err => Ret (Some err)
  | inr seq => seq;; Ret None
  end.

End service.
Export service.

(* ===================================================================== *)
(** ** An in-memory environment *)
(* ===================================================================== *)

(** A deterministic stand-in for the three collaborators, the clock and
    the consumer, in the role the mocks of [favorite_test.go] and the
    adapters play: a Store table, the cache of the Redis adapter (one blob
    per id and one sorted set of ids), a table of injected failures, and a
    consumer that may stop ranging after a number of items. *)
Module mem.

(** *** A byte codec standing in for encoding/json

    Length-prefixed fields in declaration order.  Decoding a value reads
    the fields of the target struct and ignores what follows, as
    [json.Unmarshal] ignores unknown keys. *)

Definition enc_string (s : string) : option (list byte) :=
  let bs := String.list_byte_of_string s in
  n ← Byte.of_nat (length bs); Some (n :: bs).

Definition dec_string (bs : list byte) : option (string * list byte) :=
  match bs with
  | [] => None
  | n :: rest =>
      let k := Byte.to_nat n in
      if decide (k <= length rest)%nat
      then Some (String.string_of_list_byte (take k rest), drop k rest)
      else None
  end.

Definition enc_int (z : Z) : option (list byte) :=
  if decide (0 <= z) then n ← Byte.of_nat (Z.to_nat z); Some [x00; n]
  else n ← Byte.of_nat (Z.to_nat (- z)); Some [x01; n].

Definition dec_int (bs : list byte) : option (Z * list byte) :=
  match bs with
  | sign :: n :: rest =>
      let v := Z.of_nat (Byte.to_nat n) in
      if Byte.eqb sign x00 then Some (v, rest) else Some (- v, rest)
  | _ => None
  end.

Definition enc_base (b : BaseAsset) : option (list byte) :=
  f1 ← enc_string (ID b); f2 ← enc_string (UserID b);
  f3 ← enc_string (Type_ b); f4 ← enc_string (Name b);
  f5 ← enc_string (Description b);
  Some (f1 ++ f2 ++ f3 ++ f4 ++ f5).

Definition dec_base (bs : list byte) : option (BaseAsset * list byte) :=
  '(id, bs) ← dec_string bs; '(uid, bs) ← dec_string bs;
  '(ty, bs) ← dec_string bs; '(name, bs) ← dec_string bs;
  '(descr, bs) ← dec_string bs;
  Some (mkBaseAsset id uid ty name descr, bs).

Definition encode (a : Asset) : option (list byte) :=
  match a with
  | AChart c =>
      b ← enc_base (chart_base c); x ← enc_string (XAxis c);
      y ← enc_string (YAxis c); Some (b ++ x ++ y)
  | AInsight i =>
      b ← enc_base (insight_base i); c ← enc_string (Content i);
      Some (b ++ c)
  | AAudience a =>
      b ← enc_base (audience_base a);
      g ← enc_string (Gender (Rules a));
      c ← enc_string (Country (Rules a));
      lo ← enc_int (AgeMin (Rules a)); hi ← enc_int (AgeMax (Rules a));
      Some (b ++ g ++ c ++ lo ++ hi)
  end.

Definition syntax_error : error := New "unexpected end of JSON input".

Definition or_error {A : Type} (o : option A) : error + A :=
  match o with Some a => inr a | None => inl syntax_error end.

#[global] Instance json : JSON := {|
  Marshal a := or_error (encode a);
  UnmarshalBase bs := or_error (fst <$> dec_base bs);
  UnmarshalChart bs := or_error (
    '(b, bs) ← dec_base bs; '(x, bs) ← dec_string bs;
    '(y, _) ← dec_string bs; Some (mkChart b x y));
  UnmarshalInsight bs := or_error (
    '(b, bs) ← dec_base bs; '(c, _) ← dec_string bs;
    Some (mkInsight b c));
  UnmarshalAudience bs := or_error (
    '(b, bs) ← dec_base bs; '(g, bs) ← dec_string bs;
    '(c, bs) ← dec_string bs; '(lo, bs) ← dec_int bs;
    '(hi, _) ← dec_int bs;
    Some (mkAudience b (mkAudienceRules g c lo hi)))
|}.

(** *** The environment state *)

Record World : Type := mkWorld {
  rows : list Asset;                (* Store table, most recent first *)
  blobs : gmap string (list byte);  (* cache: id -> serialized asset *)
  index : list (string * Z);        (* cache: sorted set, highest score first *)
  clock : Z;                        (* Unix time of the next clock read *)
  faults : Call -> option error;    (* injected failures of port calls *)
  stop_after : option nat           (* consumer stops after that many items *)
}.

Definition with_rows (w : World) (r : list Asset) : World :=
  mkWorld r (blobs w) (index w) (clock w) (faults w) (stop_after w).
Definition with_blobs (w : World) (b : gmap string (list byte)) : World :=
  mkWorld (rows w) b (index w) (clock w) (faults w) (stop_after w).
Definition with_index (w : World) (i : list (string * Z)) : World :=
  mkWorld (rows w) (blobs w) i (clock w) (faults w) (stop_after w).
Definition with_clock (w : World) (c : Z) : World :=
  mkWorld (rows w) (blobs w) (index w) c (faults w) (stop_after w).
Definition with_stop_after (w : World) (s : option nat) : World :=
  mkWorld (rows w) (blobs w) (index w) (clock w) (faults w) s.

Definition no_faults : Call -> option error := fun _ => None.

Definition has_id (id : string) (a : Asset) : bool :=
  bool_decide (GetID a = id).

Definition not_found : error := New "asset not found".

(** [ZADD]: upsert, keeping the set ordered by descending score. *)
Fixpoint zinsert (id : string) (score : Z) (l : list (string * Z))
  : list (string * Z) :=
  match l with
  | [] => [(id, score)]
  | (id', s') :: l' =>
      if decide (s' <= score) then (id, score) :: l
      else (id', s') :: zinsert id score l'
  end.

Definition zadd (id : string) (score : Z) (l : list (string * Z))
  : list (string * Z) :=
  zinsert id score (filter (fun p => p.1 <> id) l).

(** [ZREVRANGE start stop] over the ids in descending score order: both
    bounds are 0-based and inclusive, a negative bound counts from the end
    of the set, so [stop = -1] is the last element. *)
Definition zrevrange (ids : list string) (start stop : Z) : list string :=
  let n := Z.of_nat (length ids) in
  let start := if decide (start < 0) then Z.max 0 (n + start) else start in
  let stop := if decide (stop < 0) then n + stop else stop in
  let stop := Z.min stop (n - 1) in
  if decide (stop < start) then []
  else take (Z.to_nat (stop - start + 1)) (drop (Z.to_nat start) ids).

(** [MGET] as the adapter's [GetBatch] reads it: only the ids that have a
    blob appear in the result. *)
Definition mget (b : gmap string (list byte)) (ids : list string)
  : gmap string (list byte) :=
  foldr (fun id m =>
           match b !! id with Some d => <[id := d]> m | None => m end)
        ∅ ids.

(** [LIMIT limit OFFSET offset] over the table, for non-negative
    arguments. *)
Definition page {A : Type} (l : list A) (limit offset : Z) : list A :=
  take (Z.to_nat limit) (drop (Z.to_nat offset) l).

Definition set_description (d : string) (a : Asset) : Asset :=
  let upd b := mkBaseAsset (ID b) (UserID b) (Type_ b) (Name b) d in
  match a with
  | AChart c => AChart (mkChart (upd (chart_base c)) (XAxis c) (YAxis c))
  | AInsight i => AInsight (mkInsight (upd (insight_base i)) (Content i))
  | AAudience a => AAudience (mkAudience (upd (audience_base a)) (Rules a))
  end.

Definition fail_or {A : Type} (w : World) (c : Call)
    (ok : A * World) (err : error -> A) : A * World :=
  match faults w c with
  | Some e => (err e, w)
  | None => ok
  end.

Definition handle (c : Call) (w : World) : Resp c * World :=
  match c return Resp c * World with
  | RepoSave a =>
      fail_or w (RepoSave a)
        (None, with_rows w
           (a :: filter (fun r => has_id (GetID a) r = false) (rows w)))
        Some
  | RepoFindByID id =>
      fail_or w (RepoFindByID id)
        (match find (has_id id) (rows w) with
         | Some a => inr a
         | None => inl not_found
         end, w)
        inl
  | RepoFindAll limit offset =>
      fail_or w (RepoFindAll limit offset)
        (inr (inr <$> page (rows w) limit offset), w) inl
  | RepoFindByUser userID limit offset =>
      fail_or w (RepoFindByUser userID limit offset)
        (inr (inr <$> page
                (filter (fun a => GetUserID a = userID) (rows w))
                limit offset), w)
        inl
  | RepoDelete id =>
      fail_or w (RepoDelete id)
        (match find (has_id id) (rows w) with
         | Some _ =>
             (None,
              with_rows w (filter (fun r => has_id id r = false) (rows w)))
         | None => (Some not_found, w)
         end)
        Some
  | RepoUpdateDescription id d =>
      fail_or w (RepoUpdateDescription id d)
        (match find (has_id id) (rows w) with
         | Some a =>
             (inr (set_description d a),
              with_rows w
                ((fun r => if has_id id r then set_description d r else r)
                   <$> rows w))
         | None => (inl not_found, w)
         end)
        inl
  | CacheAddToSet id score =>
      fail_or w (CacheAddToSet id score)
        (None, with_index w (zadd id score (index w))) Some
  | CacheSet id data =>
      fail_or w (CacheSet id data)
        (None, with_blobs w (<[id := data]> (blobs w))) Some
  | CacheGetBatch ids =>
      fail_or w (CacheGetBatch ids) (inr (mget (blobs w) ids), w) inl
  | CacheGetIdsFromSet start stop =>
      fail_or w (CacheGetIdsFromSet start stop)
        (inr (zrevrange (fst <$> index w) start stop), w) inl
  | CacheRemove id =>
      fail_or w (CacheRemove id)
        (None,
         with_blobs
           (with_index w (filter (fun p => p.1 <> id) (index w)))
           (delete id (blobs w)))
        Some
  | CacheInvalidate id =>
      fail_or w (CacheInvalidate id)
        (None, with_blobs w (delete id (blobs w))) Some
  | EnricherEnrich a => fail_or w (EnricherEnrich a) (None, w) Some
  | TimeNowUnix => (clock w, with_clock w (clock w + 1))
  | Log _ _ => ((), w)
  | Yield _ =>
      match stop_after w with
      | None => (true, w)
      | Some n =>
          (bool_decide (1 < n)%nat, with_stop_after w (Some (n - 1)%nat))
      end
  end.

(** *** Sample data, after the fixtures of the unit tests *)

Definition insight (id owner name content : string) : Asset :=
  AInsight (mkInsight (mkBaseAsset id owner AssetTypeInsight name "") content).

Definition asset1 : Asset := insight "1" "u1" "Test" "Knowledge".
Definition asset2 : Asset := insight "2" "u1" "Test Miss" "Knowledge".

Definition blob_of (a : Asset) : list byte := default [] (encode a).

(** Store holds both assets; nothing fails; the consumer never stops. *)
Definition store_only : World :=
  mkWorld [asset2; asset1] ∅ [] 1000 no_faults None.

(** Both assets are also cached, index and blob. *)
Definition warm : World :=
  mkWorld [asset2; asset1]
    (<["1" := blob_of asset1]> (<["2" := blob_of asset2]> ∅))
    [("2", 20); ("1", 10)] 1000 no_faults None.

(** The index knows both ids but the blob of "2" is gone. *)
Definition drifted : World :=
  mkWorld [asset2; asset1] (<["1" := blob_of asset1]> ∅)
    [("2", 20); ("1", 10)] 1000 no_faults None.

Definition with_faults (w : World) (f : Call -> option error) : World :=
  mkWorld (rows w) (blobs w) (index w) (clock w) f (stop_after w).

Definition cache_down : error := New "redis: connection refused".

(** Only cache removals fail. *)
Definition remove_fails (c : Call) : option error :=
  match c with CacheRemove _ => Some cache_down | _ => None end.

(** Only batch reads fail. *)
Definition batch_fails (c : Call) : option error :=
  match c with CacheGetBatch _ => Some cache_down | _ => None end.

(** Only asset "1" is cached. *)
Definition one_cached : World :=
  mkWorld [asset2; asset1] (<["1" := blob_of asset1]> ∅) [("1", 10)]
    1000 no_faults None.

(** An Insight without content, as in the "validation failure" test. *)
Definition no_content : Asset := insight "1" "u1" "Test" "".

(** The Audience fixtures of [TestAudience_Validate]. *)
Definition audience (country : string) (lo hi : Z) : Asset :=
  AAudience (mkAudience
    (mkBaseAsset "aud-1" "" AssetTypeAudience "Gen Z Europe" "")
    (mkAudienceRules "" country lo hi)).

Definition db_down : error := New "db error".

(** Only Store saves fail. *)
Definition save_fails (c : Call) : option error :=
  match c with RepoSave _ => Some db_down | _ => None end.

(** The enricher and every cache write fail. *)
Definition write_through_fails (c : Call) : option error :=
  match c with
  | EnricherEnrich _ => Some (New "enricher: timeout")
  | CacheAddToSet _ _ | CacheSet _ _ => Some cache_down
  | _ => None
  end.

(** A page of 101 ids -- two chunks -- whose second chunk, the single id
    "2", cannot be fetched. *)
Definition long_ids : list string := replicate 100 "1" ++ ["2"].

Definition second_chunk_fails (c : Call) : option error :=
  match c with
  | CacheGetBatch ["2"] => Some cache_down
  | _ => None
  end.

End mem.

(* ===================================================================== *)
(** ** Observations on the traces of the streaming code *)
(* ===================================================================== *)

Module stream.

(** A Store row as the consumer's [yield] receives it. *)
Definition item_of (it : RepoItem) : AssetResult :=
  match it with
  | inl err => (None, Some err)
  | inr asset => (Some asset, None)
  end.

(** What [cacheIterator] hands on from a Store iterator when the consumer
    keeps pulling: the rows up to and including the first error. *)
Fixpoint until_error (items : list RepoItem) : list AssetResult :=
  match items with
  | [] => []
  | inl err :: _ => [(None, Some err)]
  | inr asset :: rest => (Some asset, None) :: until_error rest
  end.

(** The ids asked for by the batch reads of a trace, in order. *)
Fixpoint batch_reads (tr : list Event) : list (list string) :=
  match tr with
  | [] => []
  | existT (CacheGetBatch ids) _ :: tr' => ids :: batch_reads tr'
  | _ :: tr' => batch_reads tr'
  end.

(** A yield after which the iterators of the service return: the consumer
    answered false, or the item carries an error. *)
Definition stops (e : Event) : bool :=
  match e with
  | existT c r =>
      match c return Resp c -> bool with
      | Yield item =>
          fun continue => negb continue || bool_decide (item.2 <> None)
      | _ => fun _ => false
      end r
  end.

(** Every stopping yield of the trace is its last event. *)
Definition stops_only_at_end (tr : list Event) : Prop :=
  forall pre e post, tr = pre ++ e :: post -> stops e = true -> post = [].

(** No batch read and no stopping yield. *)
Definition quiet (tr : list Event) : Prop :=
  batch_reads tr = [] /\ Forall (fun e => stops e = false) tr.

(** The trace of a loop over [n] ids followed by [next]: either the loop
    returned at a stopping yield, its last event, having yielded fewer
    than [n] items before; or it yielded [n] items and the trace goes on
    with a run of [next]. *)
Definition loop_run {W : Type} (handle : forall c : Call, W -> Resp c * W)
    (n : nat) (next : Prog unit) (tr : list Event) : Prop :=
  (exists pre e,
     tr = pre ++ [e] /\ quiet pre /\ stops e = true
     /\ batch_reads [e] = [] /\ (length (yields pre) < n)%nat)
  \/ (exists tr0 w',
        tr = tr0 ++ trace handle next w' /\ quiet tr0
        /\ length (yields tr0) = n).

(** The calls of the write-through helper: the enricher, the clock, the
    two cache writes and the logger. *)
Definition is_write_through (c : Call) : bool :=
  match c with
  | EnricherEnrich _ | TimeNowUnix | CacheAddToSet _ _ | CacheSet _ _
  | Log _ _ => true
  | _ => false
  end.

(** A yield that the consumer answered with false. *)
Definition refused (e : Event) : bool :=
  match e with
  | existT c r =>
      match c return Resp c -> bool with
      | Yield _ => fun continue => negb continue
      | _ => fun _ => false
      end r
  end.

End stream.
Export stream.

(* ===================================================================== *)
(** ** Observations on read repair *)
(* ===================================================================== *)

Module repair.

(** The batch reads of a trace that were answered, each with the ids
    asked for and the entries found. *)
Fixpoint batches (tr : list Event)
  : list (list string * gmap string (list byte)) :=
  match tr with
  | [] => []
  | existT (CacheGetBatch ids) (inr dataMap) :: tr' =>
      (ids, dataMap) :: batches tr'
  | _ :: tr' => batches tr'
  end.

(** The ids that were asked for in a batch read and are absent from its
    answer, in the order they were asked for. *)
Definition misses (bs : list (list string * gmap string (list byte)))
  : list string :=
  bs ≫= (fun b => List.filter (fun id => bool_decide (b.2 !! id = None)) b.1).

(** A call without the score of an [AddToSet], which is the clock's. *)
Definition erase_score (c : Call) : Call :=
  match c with
  | CacheAddToSet id _ => CacheAddToSet id 0
  | _ => c
  end.

Section Script.
Variable expected : string -> Asset.
Variable blob : string -> list byte.

(** What the page is to show on the ports for one id of a batch read
    answered [dataMap], the consumer still pulling: the yield of the
    cached asset; or, the id being absent from the answer, the read of
    that id from the Store, the Enricher, the clock, the two cache
    writes, and then the yield of the Store's asset. *)
Definition id_script (dataMap : gmap string (list byte)) (id : string)
  : list Call :=
  let asset := expected id in
  match dataMap !! id with
  | Some _ => [Yield (Some asset, None)]
  | None =>
      [RepoFindByID id; EnricherEnrich asset; TimeNowUnix;
       CacheAddToSet (GetID asset) 0; CacheSet (GetID asset) (blob id);
       Yield (Some asset, None)]
  end.

(** The same for a page: each batch read, followed by what its ids
    call for, one id after the other. *)
Definition page_script
    (bs : list (list string * gmap string (list byte))) : list Call :=
  bs ≫= (fun b => CacheGetBatch b.1 :: (b.1 ≫= id_script b.2)).

End Script.

(** In every state that satisfies [I] the Store has [asset] under [id]
    -- asked right after the iterator's warning -- and enriching and
    caching that asset leads to a state that satisfies [I] again;
    [data] is the asset's serialization. *)
Definition repairable `{JSON} {W : Type}
    (handle : forall c : Call, W -> Resp c * W) (I : W -> Prop)
    (id : string) (asset : Asset) (data : list byte) : Prop :=
  Marshal asset = inr data
  /\ forall w, I w ->
       let w1 :=
         after handle
           (Log LWarn
              "cache inconsistency detected (missing data), repairing from db")
           w in
       let w2 := after handle (RepoFindByID id) w1 in
       answer handle (RepoFindByID id) w1 = inr asset
       /\ I (final handle (enrichAndSaveCache asset) w2).

End repair.
Export repair.

(* ===================================================================== *)
(** ** Package config *)
(* ===================================================================== *)

Module config.

Record Config : Type := mkConfig {
  DatabaseURL : string;
  RedisAddr : string;
  Port : string;
  AppEnv : string;
  JWTSecret : string;
  OtelExporterEndpoint : string
}.

(** The zero value [Config{}]. *)
Definition zero : Config := mkConfig "" "" "" "" "" "".

(** [func Load() (Config, error)], as a function of the process
    environment that [os.Getenv] reads (an unset variable reads as the
    empty string). *)
Definition Load (Getenv : string -> string) : Config * option error :=
  let port := Getenv "PORT" in
  let appEnv := Getenv "APP_ENV" in
  let jwtSecret := Getenv "JWT_SECRET" in
  let otel := Getenv "OTEL_EXPORTER_OTLP_ENDPOINT" in
  let port := if decide (port = "") then "8080" else port in
  (* what follows the [JWTSecret] check, with the secret it settled on *)
  let rest (jwtSecret : string) : Config * option error :=
    let appEnv := if decide (appEnv = "") then "production" else appEnv in
    let databaseURL := Getenv "DATABASE_URL" in
    if decide (databaseURL = "") then
      (zero, Some (New "DATABASE_URL is required"))
    else
      let redisAddr := Getenv "REDIS_ADDR" in
      if decide (redisAddr = "") then
        (zero, Some (New "REDIS_ADDR is required"))
      else
        (mkConfig databaseURL redisAddr port appEnv jwtSecret otel, None) in
  if decide (jwtSecret = "") then
    if decide (appEnv = "local") then rest "dev-secret-do-not-use-in-prod"
    else (zero, Some (New "JWT_SECRET is required"))
  else rest jwtSecret.

End config.

(* ===================================================================== *)
(** ** Package rest: pagination and request parsing *)
(* ===================================================================== *)

Module rest.

Record Pagination : Type := mkPagination {
  Limit : Z;
  Offset : Z
}.

(** [func NewPagination(r *http.Request) Pagination].  [query] is
    [r.URL.Query().Get]; [Atoi] is [strconv.Atoi], whose error the code
    drops. *)
Definition NewPagination (Atoi : string -> Z * option error)
    (query : string -> string) : Pagination :=
  let page := (Atoi (query "page")).1 in
  let page := if decide (page < 1) then 1 else page in
  let limit := (Atoi (query "limit")).1 in
  let limit := if decide (limit < 1) then 10 else limit in
  let limit := if decide (limit > 1000) then 1000 else limit in
  let offset := wrap_int (wrap_int (page - 1) * limit) in
  mkPagination limit offset.

(** Assignment to the promoted fields [UserID] and [ID] of an asset
    struct. *)
Definition set_owner_and_id (userID id : string) (b : BaseAsset)
  : BaseAsset :=
  mkBaseAsset id userID (Type_ b) (Name b) (Description b).

(** The closure [generateID] of [parseAsset]; [uuid] is what
    [uuid.NewString()] returns when it is called. *)
Definition generateID (uuid : string) (currentID : string) : string :=
  if decide (currentID = "") then uuid else currentID.

(** [func parseAsset(data []byte, assetType favorites.AssetType,
      userID string) (favorites.Asset, error)] *)
Definition parseAsset `{JSON} (uuid : string) (data : list byte)
    (assetType : AssetType) (userID : string) : AssetResult :=
  if decide (assetType = AssetTypeChart) then
    match UnmarshalChart data with
    | inl err => (None, Some err)
    | inr c =>
        let b := chart_base c in
        (Some (AChart (mkChart
           (set_owner_and_id userID (generateID uuid (ID b)) b)
           (XAxis c) (YAxis c))), None)
    end
  else if decide (assetType = AssetTypeInsight) then
    match UnmarshalInsight data with
    | inl err => (None, Some err)
    | inr i =>
        let b := insight_base i in
        (Some (AInsight (mkInsight
           (set_owner_and_id userID (generateID uuid (ID b)) b)
           (Content i))), None)
    end
  else if decide (assetType = AssetTypeAudience) then
    match UnmarshalAudience data with
    | inl err => (None, Some err)
    | inr a =>
        let b := audience_base a in
        (Some (AAudience (mkAudience
           (set_owner_and_id userID (generateID uuid (ID b)) b)
           (Rules a))), None)
    end
  else (None, Some (New "unknown asset type")).

End rest.

(* ===================================================================== *)
(** ** Programs over other collaborators *)
(* ===================================================================== *)

(** The adapters, the authentication service and the HTTP handlers talk
    to collaborators of their own: a Redis client, Prometheus counters,
    a database cursor, bcrypt and JWT, an HTTP response writer.  [Free R]
    is the free monad over a signature of events [E] with answer types
    [R]; it is [Prog] with the events left open. *)
Module fx.

Inductive Free {E : Type} (R : E -> Type) (A : Type) : Type :=
| Pure (a : A)
| Op (e : E) (k : R e -> Free R A).

Arguments Pure {E R A} a.
Arguments Op {E R A} e k.

Fixpoint fbind {E : Type} {R : E -> Type} {A B : Type}
    (p : Free R A) (f : A -> Free R B) : Free R B :=
  match p with
  | Pure a => f a
  | Op e k => Op e (fun r => fbind (k r) f)
  end.

Definition op {E : Type} {R : E -> Type} (e : E) : Free R (R e) :=
  Op e Pure.

Section Run.
Context {E : Type} {R : E -> Type} {W : Type}.
Variable handle : forall e : E, W -> R e * W.

Fixpoint frun {A : Type} (p : Free R A) (w : W)
  : A * W * list (sigT R) :=
  match p with
  | Pure a => (a, w, [])
  | Op e k =>
      let '(r, w1) := handle e w in
      let '(a, w2, tr) := frun (k r) w1 in
      (a, w2, existT e r :: tr)
  end.

Definition fanswer (e : E) (w : W) : R e := (handle e w).1.
Definition fafter (e : E) (w : W) : W := (handle e w).2.
Definition fresult {A : Type} (p : Free R A) (w : W) : A := (frun p w).1.1.
Definition ffinal {A : Type} (p : Free R A) (w : W) : W := (frun p w).1.2.
Definition ftrace {A : Type} (p : Free R A) (w : W) : list (sigT R) :=
  (frun p w).2.
End Run.

(** The events of a trace without their answers. *)
Definition fcalls {E : Type} {R : E -> Type} (tr : list (sigT R)) : list E :=
  map (@projT1 _ _) tr.

End fx.
Export fx.

Declare Scope fx_scope.
Delimit Scope fx_scope with fx.
Notation "x <- p ;; q" := (fbind p (fun x => q))
  (at level 100, p at next level, right associativity) : fx_scope.
Notation "p ;; q" := (fbind p (fun _ => q))
  (at level 100, right associativity) : fx_scope.

(* ===================================================================== *)
(** ** Package redis: the cache adapter *)
(* ===================================================================== *)

Module redis.

Local Open Scope fx_scope.

Definition SetKey : string := "favorites:all".
Definition Prefix : string := "favorite:".

(** A command queued on a pipeline. *)
Inductive Cmd : Type :=
| ZAdd (key : string) (score : Z) (member : string)
| ZRem (key : string) (member : string)
| Del (key : string).

(** One round trip of the go-redis client.  [MGet] answers one value per
    key, nil for a key without a string value. *)
Inductive RedisCall : Type :=
| PipelineExec (cmds : list Cmd)
| SetEX (key : string) (value : list byte) (ttlSeconds : Z)
| MGet (keys : list string)
| ZRevRange (key : string) (start stop : Z)
| DelKey (key : string).

Definition RedisResp (c : RedisCall) : Type :=
  match c with
  | PipelineExec _ => option error
  | SetEX _ _ _ => option error
  | MGet _ => (error + list (option (list byte)))%type
  | ZRevRange _ _ _ => (error + list string)%type
  | DelKey _ => option error
  end.

Definition Redis := Free RedisResp.

(** [func (a *Adapter) AddToSet(ctx, id, score) error] *)
Definition AddToSet (id : string) (score : Z) : Redis (option error) :=
  op (PipelineExec [ZAdd SetKey score id]).

(** [func (a *Adapter) Set(ctx, id, data) error]: expiry 24 hours. *)
Definition Set_ (id : string) (data : list byte) : Redis (option error) :=
  op (SetEX (Prefix +:+ id) data (24 * 3600)).

(** The loop [for i, val := range vals] of [GetBatch] from index [i] on:
    a string value is stored under [ids[i]]; [None] is the panic of an
    index out of range. *)
Fixpoint fill (ids : list string) (vals : list (option (list byte)))
    (i : nat) (result : gmap string (list byte))
  : option (gmap string (list byte)) :=
  match vals with
  | [] => Some result
  | None :: vals' => fill ids vals' (S i) result
  | Some v :: vals' =>
      match ids !! i with
      | Some id => fill ids vals' (S i) (<[id := v]> result)
      | None => None
      end
  end.

(** [func (a *Adapter) GetBatch(ctx, ids) (map[string][]byte, error)];
    the outer [option] is [None] when the function panics. *)
Definition GetBatch (ids : list string)
  : Redis (option (error + gmap string (list byte))) :=
  match ids with
  | [] => Pure (Some (inr ∅))
  | _ =>
      let keys := (fun id => Prefix +:+ id) <$> ids in
      r <- op (MGet keys);;
      match r with
      | inl err => Pure (Some (inl err))
      | inr vals => Pure (inr <$> fill ids vals 0 ∅)
      end
  end.

(** [func (a *Adapter) GetIdsFromSet(ctx, start, stop) ([]string, error)] *)
Definition GetIdsFromSet (start stop : Z) : Redis (error + list string) :=
  op (ZRevRange SetKey start stop).

(** [func (a *Adapter) Remove(ctx, id) error] *)
Definition Remove (id : string) : Redis (option error) :=
  op (PipelineExec [ZRem SetKey id; Del (Prefix +:+ id)]).

(** [func (a *Adapter) Invalidate(ctx, id) error] *)
Definition Invalidate (id : string) : Redis (option error) :=
  op (DelKey (Prefix +:+ id)).

(** *** A Redis server holding strings and one sorted set

    The commands the adapter sends, over a server state: string values
    by key and the members of the sorted set [SetKey] with their scores,
    highest first.  Expiry is not modelled. *)
Record Server : Type := mkServer {
  strings : gmap string (list byte);
  zset : list (string * Z)
}.

Definition apply_cmd (s : Server) (c : Cmd) : Server :=
  match c with
  | ZAdd key score member =>
      if decide (key = SetKey)
      then mkServer (strings s) (mem.zadd member score (zset s))
      else s
  | ZRem key member =>
      if decide (key = SetKey)
      then mkServer (strings s) (filter (fun p => p.1 <> member) (zset s))
      else s
  | Del key =>
      if decide (key = SetKey) then mkServer (strings s) []
      else mkServer (delete key (strings s)) (zset s)
  end.

Definition serve (c : RedisCall) (s : Server) : RedisResp c * Server :=
  match c return RedisResp c * Server with
  | PipelineExec cmds => (None, foldl apply_cmd s cmds)
  | SetEX key value _ =>
      (None, mkServer (<[key := value]> (strings s)) (zset s))
  | MGet keys => (inr ((fun k => strings s !! k) <$> keys), s)
  | ZRevRange key start stop =>
      (inr (if decide (key = SetKey)
            then mem.zrevrange (fst <$> zset s) start stop else []), s)
  | DelKey key => (None, apply_cmd s (Del key))
  end.

End redis.

(* ===================================================================== *)
(** ** Package observability: the instrumented cache *)
(* ===================================================================== *)

Module observability.

Local Open Scope fx_scope.

(** What [InstrumentedCache] does: a call of the cache it wraps, or
    [Add] on one of the two Prometheus counters with a value that is not
    negative.  (With a negative value [Add] panics and the counter stays
    as it is: that is no event but the end of the run, see [GetBatch].) *)
Inductive MetricCall : Type :=
| Inner (c : Call)
| CounterAdd (name : string) (v : Z).

Definition MetricResp (c : MetricCall) : Type :=
  match c with
  | Inner c => Resp c
  | CounterAdd _ _ => unit
  end.

Definition cacheHits : string := "cache_hits_total".
Definition cacheMisses : string := "cache_misses_total".

Definition AddToSet (id : string) (score : Z)
  : Free MetricResp (option error) :=
  op (Inner (CacheAddToSet id score)).

Definition Set_ (id : string) (data : list byte)
  : Free MetricResp (option error) :=
  op (Inner (CacheSet id data)).

Definition Remove (id : string) : Free MetricResp (option error) :=
  op (Inner (CacheRemove id)).

Definition Invalidate (id : string) : Free MetricResp (option error) :=
  op (Inner (CacheInvalidate id)).

(** [func (c *InstrumentedCache) GetBatch(ctx, ids)
      (map[string][]byte, error)]; the outer [option] is [None] when the
    function panics: [hits] is a length and never negative, [misses] is
    negative when the wrapped cache answers more entries than ids were
    asked for, and [cacheMisses.Add(misses)] then panics. *)
Definition GetBatch (ids : list string)
  : Free MetricResp (option (error + gmap string (list byte))) :=
  r <- op (Inner (CacheGetBatch ids));;
  match r with
  | inr res =>
      let hits := Z.of_nat (size res) in
      let misses := Z.of_nat (length ids) - Z.of_nat (size res) in
      op (CounterAdd cacheHits hits);;
      if decide (misses < 0) then Pure None
      else op (CounterAdd cacheMisses misses);; Pure (Some r)
  | inl _ => Pure (Some r)
  end.

Definition GetIdsFromSet (start stop : Z)
  : Free MetricResp (error + list string) :=
  op (Inner (CacheGetIdsFromSet start stop)).

(** The value added to counter [name] by an event. *)
Definition added (name : string) (e : sigT MetricResp) : Z :=
  match projT1 e with
  | CounterAdd n v => if decide (n = name) then v else 0
  | Inner _ => 0
  end.

(** The total added to counter [name] over a trace. *)
Definition total (name : string) (tr : list (sigT MetricResp)) : Z :=
  foldr (fun e acc => added name e + acc) 0 tr.

End observability.

(* ===================================================================== *)
(** ** Package postgres: the Store adapter *)
(* ===================================================================== *)

Module postgres.

Local Open Scope fx_scope.

(** A statement argument. *)
Inductive Arg : Type :=
| AStr (s : string)
| AInt (z : Z)
| ABytes (b : list byte).

(** The SQL statements of the repository:
    - [InsertFavorite]: [INSERT INTO favorites (id, type, asset_data,
      user_id) VALUES ($1, $2, $3, $4)];
    - [SelectByID]: [SELECT type, asset_data FROM favorites WHERE id = $1];
    - [SelectAll]: [SELECT type, asset_data FROM favorites ORDER BY
      created_at DESC LIMIT $1 OFFSET $2];
    - [DeleteByID]: [DELETE FROM favorites WHERE id = $1];
    - [UpdateDescriptionByID]: [UPDATE favorites SET asset_data =
      jsonb_set(asset_data, '{description}', to_jsonb($1::text)),
      updated_at = NOW() WHERE id = $2 RETURNING type, asset_data];
    - [SelectByUser]: [SELECT id, type, asset_data FROM favorites WHERE
      user_id = $1 ORDER BY created_at DESC LIMIT $2 OFFSET $3]. *)
Inductive Stmt : Type :=
| InsertFavorite | SelectByID | SelectAll | DeleteByID
| UpdateDescriptionByID | SelectByUser.

(** An open [pgx.Rows]: what [Scan] gives for each row that [Next]
    announces, and what [Err] reports once [Next] has answered false. *)
Record Cursor (R : Type) : Type := mkCursor {
  fetched : list (error + R);
  rowsErr : option error
}.
Arguments mkCursor {R} fetched rowsErr.
Arguments fetched {R} c.
Arguments rowsErr {R} c.

(** Columns [(type, asset_data)] and [(id, type, asset_data)]. *)
Definition Row2 := (string * list byte)%type.
Definition Row3 := (string * string * list byte)%type.

(** Calls on the connection pool, on the open rows, and on the
    consumer's [yield]. *)
Inductive PgCall : Type :=
| Exec (q : Stmt) (args : list Arg)
| QueryRowScan (q : Stmt) (args : list Arg)
| Query2 (q : Stmt) (args : list Arg)
| Query3 (q : Stmt) (args : list Arg)
| RowsClose
| PgYield (item : AssetResult).

(** [Exec] answers the number of rows affected. *)
Definition PgResp (c : PgCall) : Type :=
  match c with
  | Exec _ _ => (error + Z)%type
  | QueryRowScan _ _ => (error + Row2)%type
  | Query2 _ _ => (error + Cursor Row2)%type
  | Query3 _ _ => (error + Cursor Row3)%type
  | RowsClose => unit
  | PgYield _ => bool
  end.

Definition Pg := Free PgResp.

(** [pgx.ErrNoRows] *)
Definition ErrNoRows : error := New "no rows in result set".

(** The items of a stream up to and including its first error. *)
Fixpoint upto_error (items : list AssetResult) : list AssetResult :=
  match items with
  | [] => []
  | item :: rest =>
      if item.2 is Some _ then [item] else item :: upto_error rest
  end.

Section Repository.
Context `{JSON}.

(** [func unmarshalAsset(t string, data []byte)
      (favorites.Asset, error)] *)
Definition unmarshalAsset (t : string) (data : list byte) : AssetResult :=
  if decide (t = AssetTypeChart) then
    match UnmarshalChart data with
    | inl err => (None, Some err)
    | inr c => (Some (AChart c), None)
    end
  else if decide (t = AssetTypeInsight) then
    match UnmarshalInsight data with
    | inl err => (None, Some err)
    | inr i => (Some (AInsight i), None)
    end
  else if decide (t = AssetTypeAudience) then
    match UnmarshalAudience data with
    | inl err => (None, Some err)
    | inr a => (Some (AAudience a), None)
    end
  else (None, Some (New ("unknown asset type: " +:+ t))).

(** [func (r *Repository) Save(ctx, asset) error] *)
Definition Save (asset : Asset) : Pg (option error) :=
  match Marshal asset with
  | inl err => Pure (Some (Errorf "failed to marshal asset: " err ""))
  | inr data =>
      r <- op (Exec InsertFavorite
                 [AStr (GetID asset); AStr (GetType asset); ABytes data;
                  AStr (GetUserID asset)]);;
      match r with
      | inl err => Pure (Some (Errorf "failed to insert asset: " err ""))
      | inr _ => Pure None
      end
  end.

(** [func (r *Repository) FindByID(ctx, id) (favorites.Asset, error)] *)
Definition FindByID (id : string) : Pg AssetResult :=
  r <- op (QueryRowScan SelectByID [AStr id]);;
  match r with
  | inl err =>
      if Is err ErrNoRows then Pure (None, Some (New "asset not found"))
      else Pure (None, Some (Errorf "failed to fetch asset: " err ""))
  | inr (typeStr, data) => Pure (unmarshalAsset typeStr data)
  end.

(** The loop [for rows.Next()] of the iterator of [FindAll] and what
    follows it. *)
Fixpoint FindAll_rows (rows : list (error + Row2)) (rowsErr : option error)
  : Pg unit :=
  match rows with
  | [] =>
      match rowsErr with
      | Some err =>
          op (PgYield (None, Some (Errorf "rows iteration error: " err "")));;
          Pure ()
      | None => Pure ()
      end
  | scan :: rest =>
      match scan with
      | inl err =>
          op (PgYield (None, Some (Errorf "failed to scan row: " err "")));;
          Pure ()
      | inr (typeStr, data) =>
          match unmarshalAsset typeStr data with
          | (_, Some err) => op (PgYield (None, Some err));; Pure ()
          | (asset, None) =>
              continue <- op (PgYield (asset, None));;
              if continue : bool then FindAll_rows rest rowsErr
              else Pure ()
          end
      end
  end.

(** The iterator that [FindAll] returns; [defer rows.Close()] runs on
    every way out. *)
Definition FindAll_iter (rows : Cursor Row2) : Pg unit :=
  FindAll_rows (fetched rows) (rowsErr rows);;
  op RowsClose.

(** [func (r *Repository) FindAll(ctx, limit, offset)
      (iter.Seq2[favorites.Asset, error], error)] *)
Definition FindAll (limit offset : Z) : Pg (error + Pg unit) :=
  r <- op (Query2 SelectAll [AInt limit; AInt offset]);;
  match r with
  | inl err => Pure (inl (Errorf "failed to query assets: " err ""))
  | inr rows => Pure (inr (FindAll_iter rows))
  end.

(** [func (r *Repository) Delete(ctx, id) error] *)
Definition Delete (id : string) : Pg (option error) :=
  r <- op (Exec DeleteByID [AStr id]);;
  match r with
  | inl err => Pure (Some (Errorf "failed to delete asset: " err ""))
  | inr rowsAffected =>
      if decide (rowsAffected = 0) then Pure (Some (New "asset not found"))
      else Pure None
  end.

(** [func (r *Repository) UpdateDescription(ctx, id, description)
      (favorites.Asset, error)] *)
Definition UpdateDescription (id description : string) : Pg AssetResult :=
  r <- op (QueryRowScan UpdateDescriptionByID [AStr description; AStr id]);;
  match r with
  | inl err =>
      if Is err ErrNoRows then Pure (None, Some (New "asset not found"))
      else Pure (None, Some (Errorf "failed to update description: " err ""))
  | inr (typeStr, data) => Pure (unmarshalAsset typeStr data)
  end.

(** The loop of the iterator of [FindByUser]. *)
Fixpoint FindByUser_rows (rows : list (error + Row3))
    (rowsErr : option error) : Pg unit :=
  match rows with
  | [] =>
      match rowsErr with
      | Some err => op (PgYield (None, Some err));; Pure ()
      | None => Pure ()
      end
  | scan :: rest =>
      match scan with
      | inl err =>
          op (PgYield (None, Some (Errorf "scan error: " err "")));;
          Pure ()
      | inr (_, typeStr, data) =>
          match unmarshalAsset typeStr data with
          | (_, Some err) =>
              op (PgYield (None, Some (Errorf "unmarshal error: " err "")));;
              Pure ()
          | (asset, None) =>
              continue <- op (PgYield (asset, None));;
              if continue : bool then FindByUser_rows rest rowsErr
              else Pure ()
          end
      end
  end.

Definition FindByUser_iter (rows : Cursor Row3) : Pg unit :=
  FindByUser_rows (fetched rows) (rowsErr rows);;
  op RowsClose.

(** [func (r *Repository) FindByUser(ctx, userID, limit, offset)
      (iter.Seq2[favorites.Asset, error], error)] *)
Definition FindByUser (userID : string) (limit offset : Z)
  : Pg (error + Pg unit) :=
  r <- op (Query3 SelectByUser [AStr userID; AInt limit; AInt offset]);;
  match r with
  | inl err => Pure (inl (Errorf "failed to query favorites: " err ""))
  | inr rows => Pure (inr (FindByUser_iter rows))
  end.

(** What one row becomes for the consumer of [FindAll]'s iterator. *)
Definition item2 (scan : error + Row2) : AssetResult :=
  match scan with
  | inl err => (None, Some (Errorf "failed to scan row: " err ""))
  | inr (typeStr, data) =>
      match unmarshalAsset typeStr data with
      | (_, Some err) => (None, Some err)
      | (asset, None) => (asset, None)
      end
  end.

(** What one row becomes for the consumer of [FindByUser]'s iterator. *)
Definition item3 (scan : error + Row3) : AssetResult :=
  match scan with
  | inl err => (None, Some (Errorf "scan error: " err ""))
  | inr (_, typeStr, data) =>
      match unmarshalAsset typeStr data with
      | (_, Some err) => (None, Some (Errorf "unmarshal error: " err ""))
      | (asset, None) => (asset, None)
      end
  end.

(** The decoder of the asset's own variant gives the asset back from
    [data]. *)
Definition decodes (asset : Asset) (data : list byte) : Prop :=
  match asset with
  | AChart c => UnmarshalChart data = inr c
  | AInsight i => UnmarshalInsight data = inr i
  | AAudience a => UnmarshalAudience data = inr a
  end.

(** Everything the iterator over [rows] hands to a consumer that never
    stops it: the rows' items, then the error of the rows if there is
    one, cut after the first error. *)
Definition rows_items {R : Type} (item : error + R -> AssetResult)
    (wrap : error -> error) (rows : Cursor R) : list AssetResult :=
  upto_error
    ((item <$> fetched rows)
       ++ match rowsErr rows with
          | Some err => [(None, Some (wrap err))]
          | None => []
          end).

End Repository.

(** The items handed to the consumer, in order. *)
Fixpoint pg_yields (tr : list (sigT PgResp)) : list AssetResult :=
  match tr with
  | [] => []
  | existT (PgYield item) _ :: tr' => item :: pg_yields tr'
  | _ :: tr' => pg_yields tr'
  end.

(** The consumer's answers to the items, in order. *)
Fixpoint pg_answers (tr : list (sigT PgResp)) : list bool :=
  match tr with
  | [] => []
  | existT (PgYield _) continue :: tr' => continue :: pg_answers tr'
  | _ :: tr' => pg_answers tr'
  end.

(** *** An in-memory table

    The rows of [favorites] as [(id, type, asset_data)], behind the two
    statements that write and read one row. *)
Definition Table := list (string * string * list byte).

Definition unsupported : error := New "statement not supported".

Definition serve (c : PgCall) (t : Table) : PgResp c * Table :=
  match c return PgResp c * Table with
  | Exec q args =>
      match q, args with
      | InsertFavorite, [AStr id; AStr type; ABytes data; AStr _] =>
          if bool_decide (id ∈ t.*1.*1)
          then (inl (New "duplicate key value"), t)
          else (inr 1, (id, type, data) :: t)
      | _, _ => (inl unsupported, t)
      end
  | QueryRowScan q args =>
      match q, args with
      | SelectByID, [AStr id] =>
          match find (fun r => bool_decide (r.1.1 = id)) t with
          | Some r => (inr (r.1.2, r.2), t)
          | None => (inl ErrNoRows, t)
          end
      | _, _ => (inl unsupported, t)
      end
  | Query2 _ _ => (inl unsupported, t)
  | Query3 _ _ => (inl unsupported, t)
  | RowsClose => ((), t)
  | PgYield _ => (true, t)
  end.

(** What the run [tr] of an iterator's loop shows to its consumer, for
    the items [stream] that the loop hands over when it is never stopped:
    the run consists of [yield] calls only; the items yielded are the
    first ones of [stream], all of them if the consumer never answered
    false; and nothing is yielded after the consumer answered false. *)
Definition consumed (stream : list AssetResult)
    (tr : list (sigT PgResp)) : Prop :=
  fcalls tr = PgYield <$> pg_yields tr
  /\ pg_yields tr `prefix_of` stream
  /\ (Forall (eq true) (pg_answers tr) -> pg_yields tr = stream)
  /\ (forall pre post, pg_answers tr = pre ++ false :: post -> post = []).

End postgres.

(* ===================================================================== *)
(** ** Package auth and the authentication service *)
(* ===================================================================== *)

Module auth.

Record User : Type := mkUser {
  ID : string;
  Email : string;
  PasswordHash : string
}.

(** [func (u User) Validate() error] *)
Definition Validate (u : User) : option error :=
  if decide (ID u = "") then Some (New "id is required")
  else if decide (Email u = "") then Some (New "email is required")
  else None.

End auth.

Module AuthService.

Local Open Scope fx_scope.

(** What the authentication service calls: bcrypt, the uuid generator,
    the user repository, the clock and the JWT signer. *)
Inductive AuthCall : Type :=
| BcryptGenerateFromPassword (password : string) (cost : Z)
| BcryptCompareHashAndPassword (hash password : string)
| UuidNew
| UserRepoSave (user : auth.User)
| UserRepoFindByEmail (email : string)
| TimeNowUnix
| SignHS256 (secret : string) (sub : string) (exp : Z).

(** [SignHS256 secret sub exp] is [jwt.NewWithClaims(SigningMethodHS256,
    MapClaims{"sub": sub, "exp": exp}).SignedString(secret)]. *)
Definition AuthResp (c : AuthCall) : Type :=
  match c with
  | BcryptGenerateFromPassword _ _ => (error + string)%type
  | BcryptCompareHashAndPassword _ _ => option error
  | UuidNew => string
  | UserRepoSave _ => option error
  | UserRepoFindByEmail _ => (error + auth.User)%type
  | TimeNowUnix => Z
  | SignHS256 _ _ _ => (string * option error)%type
  end.

(** [bcrypt.DefaultCost] *)
Definition DefaultCost : Z := 10.

(** [func (s *AuthService) SignUp(ctx, email, password) error] *)
Definition SignUp (email password : string)
  : Free AuthResp (option error) :=
  r <- op (R := AuthResp) (BcryptGenerateFromPassword password DefaultCost);;
  match r with
  | inl err => Pure (Some err)
  | inr hashed =>
      id <- op (R := AuthResp) UuidNew;;
      op (R := AuthResp) (UserRepoSave (auth.mkUser id email hashed))
  end.

(** [func (s *AuthService) Login(ctx, email, password) (string, error)];
    the token expires two hours after the clock reading. *)
Definition Login (jwtSecret email password : string)
  : Free AuthResp (string * option error) :=
  r <- op (R := AuthResp) (UserRepoFindByEmail email);;
  match r with
  | inl _ => Pure ("", Some (New "invalid credentials"))
  | inr user =>
      e <- op (R := AuthResp) (BcryptCompareHashAndPassword
                 (auth.PasswordHash user) password);;
      match e with
      | Some _ => Pure ("", Some (New "invalid credentials"))
      | None =>
          now <- op (R := AuthResp) TimeNowUnix;;
          op (R := AuthResp)
            (SignHS256 jwtSecret (auth.ID user) (now + 2 * 3600))
      end
  end.

Definition is_sign (c : AuthCall) : bool :=
  match c with SignHS256 _ _ _ => true | _ => false end.

Definition is_save (c : AuthCall) : bool :=
  match c with UserRepoSave _ => true | _ => false end.

End AuthService.

(* ===================================================================== *)
(** ** Package rest: the HTTP handlers *)
(* ===================================================================== *)

Module handler.

Local Open Scope fx_scope.

(** What [json.NewEncoder(w).Encode] is given: an asset, or the object
    [{"error": msg}]. *)
Inductive Body : Type :=
| BAsset (asset : option Asset)
| BError (msg : string).

(** What a handler does: a call on a port of the service it runs (or on
    the logger), or a call on the response writer. *)
Inductive HttpCall : Type :=
| Port (c : Call)
| HeaderSet (key value : string)
| WriteHeader (code : Z)
| Encode (v : Body).

Definition HttpResp (c : HttpCall) : Type :=
  match c with
  | Port c => Resp c
  | HeaderSet _ _ => unit
  | WriteHeader _ => unit
  | Encode _ => option error
  end.

Definition Http := Free HttpResp.

Definition StatusOK : Z := 200.
Definition StatusCreated : Z := 201.
Definition StatusNoContent : Z := 204.
Definition StatusBadRequest : Z := 400.
Definition StatusUnauthorized : Z := 401.
Definition StatusForbidden : Z := 403.
Definition StatusNotFound : Z := 404.
Definition StatusInternalServerError : Z := 500.

(** A method of the service, run by the handler that calls it. *)
Fixpoint lift {A : Type} (p : Prog A) : Http A :=
  match p with
  | Ret a => Pure a
  | Do c k => Op (Port c) (fun r => lift (k r))
  end.

(** The item of a [yield] call, with the way back from the loop body's
    answer to the call's. *)
Definition as_yield (c : Call) : option (AssetResult * (bool -> Resp c)) :=
  match c with
  | Yield item => Some (item, fun continue => continue)
  | _ => None
  end.

(** [for item, err := range seq { body }]: the sequence runs with the
    loop body as its [yield]; [body] answers false after a [return]. *)
Fixpoint range (seq : Seq2) (body : AssetResult -> Http bool) : Http unit :=
  match seq with
  | Ret _ => Pure ()
  | Do c k =>
      match as_yield c with
      | Some (item, answer) =>
          continue <- body item;;
          range (k (answer continue)) body
      | None => Op (Port c) (fun r => range (k r) body)
      end
  end.

Section Handler.
Context `{JSON}.

(** [func (h *Handler) respondError(w, code, err)] *)
Definition respondError (code : Z) (err : error) : Http unit :=
  op (R := HttpResp) (HeaderSet "Content-Type" "application/json");;
  op (R := HttpResp) (WriteHeader code);;
  e <- op (R := HttpResp) (Encode (BError (Error err)));;
  if e is Some _
  then op (R := HttpResp) (Port (Log LError "failed to write response"))
  else Pure ().

(** [func (h *Handler) Create(w, r)].  [ctxUser] is what
    [r.Context().Value(userIDKey).(string)] gives, [None] when the
    assertion fails; [decoded] is what decoding the body into a
    [createAssetRequest] gives, the type and the raw bytes; [uuid] is
    the next value of [uuid.NewString()]. *)
Definition Create (ctxUser : option string)
    (decoded : error + (AssetType * list byte)) (uuid : string)
  : Http unit :=
  match ctxUser with
  | None => respondError StatusUnauthorized (New "unauthorized")
  | Some userID =>
      if decide (userID = "")
      then respondError StatusUnauthorized (New "unauthorized")
      else
        match decoded with
        | inl err => respondError StatusBadRequest err
        | inr (type, raw) =>
            match rest.parseAsset uuid raw type userID with
            | (_, Some err) => respondError StatusBadRequest err
            | (None, None) => Pure () (* [parseAsset] has no such result *)
            | (Some asset, None) =>
                e <- lift (service.Save asset);;
                match e with
                | Some err =>
                    op (R := HttpResp)
                      (Port (Log LError "failed to save asset"));;
                    if Is err ErrValidation
                    then respondError StatusBadRequest err
                    else respondError StatusInternalServerError err
                | None =>
                    op (R := HttpResp) (WriteHeader StatusCreated);;
                    e' <- op (R := HttpResp) (Encode (BAsset (Some asset)));;
                    if e' is Some _
                    then op (R := HttpResp)
                           (Port (Log LError "failed to write response"))
                    else Pure ()
                end
            end
        end
  end.

(** [func (h *Handler) Get(w, r)]; [id] is [r.PathValue("id")]. *)
Definition Get (id : string) : Http unit :=
  if decide (id = "")
  then respondError StatusBadRequest (New "missing id")
  else
    r <- lift (service.FindByID id);;
    match r with
    | (_, Some err) =>
        op (R := HttpResp) (Port (Log LError "failed to find asset"));;
        respondError StatusNotFound err
    | (asset, None) =>
        _ <- op (R := HttpResp) (Encode (BAsset asset));;
        Pure ()
    end.

(** The loop body of [streamResponse]. *)
Definition streamBody (item : AssetResult) : Http bool :=
  match item with
  | (_, Some err) =>
      op (R := HttpResp) (Port (Log LError "stream error"));; Pure false
  | (asset, None) =>
      e <- op (R := HttpResp) (Encode (BAsset asset));;
      if e is Some _
      then op (R := HttpResp) (Port (Log LError "encode error"));; Pure false
      else Pure true
  end.

(** [func (h *Handler) streamResponse(w, iter)] *)
Definition streamResponse (iter : Seq2) : Http unit :=
  range iter streamBody.

(** [func (h *Handler) List(w, r)] *)
Definition List (ctxUser : option string)
    (Atoi : string -> Z * option error) (query : string -> string)
  : Http unit :=
  match ctxUser with
  | None => respondError StatusUnauthorized (New "unauthorized")
  | Some userID =>
      if decide (userID = "")
      then respondError StatusUnauthorized (New "unauthorized")
      else
        let p := rest.NewPagination Atoi query in
        r <- lift (service.FindAllByUser userID
                     (rest.Limit p) (rest.Offset p));;
        match r with
        | inl err => respondError StatusInternalServerError err
        | inr iter =>
            op (R := HttpResp)
              (HeaderSet "Content-Type" "application/x-ndjson");;
            op (R := HttpResp) (WriteHeader StatusOK);;
            streamResponse iter
        end
  end.

(** [func (h *Handler) Delete(w, r)] *)
Definition Delete (ctxUser : option string) (id : string) : Http unit :=
  match ctxUser with
  | None => respondError StatusUnauthorized (New "unauthorized")
  | Some userID =>
      if decide (userID = "")
      then respondError StatusUnauthorized (New "unauthorized")
      else
        e <- lift (service.Delete id userID);;
        match e with
        | Some err =>
            if decide (Error err = "forbidden: you do not own this asset")
            then respondError StatusForbidden err
            else respondError StatusInternalServerError err
        | None => op (R := HttpResp) (WriteHeader StatusNoContent)
        end
  end.

(** [func (h *Handler) UpdateDescription(w, r)]; [decoded] is what
    decoding the body gives, the new description. *)
Definition UpdateDescription (ctxUser : option string) (id : string)
    (decoded : error + string) : Http unit :=
  match ctxUser with
  | None => respondError StatusUnauthorized (New "unauthorized")
  | Some userID =>
      if decide (userID = "")
      then respondError StatusUnauthorized (New "unauthorized")
      else
        match decoded with
        | inl err => respondError StatusBadRequest err
        | inr description =>
            r <- lift (service.UpdateDescription id description userID);;
            match r with
            | (_, Some err) =>
                if decide
                     (Error err = "forbidden: you do not own this asset")
                then respondError StatusForbidden err
                else respondError StatusInternalServerError err
            | (asset, None) =>
                op (R := HttpResp) (WriteHeader StatusOK);;
                e <- op (R := HttpResp) (Encode (BAsset asset));;
                if e is Some _
                then op (R := HttpResp)
                       (Port (Log LError "failed to write response"))
                else Pure ()
            end
        end
  end.

End Handler.

(** *** What a client and the ports see of a handler's run *)

Definition HttpEvent := sigT HttpResp.

(** The status codes written, in order. *)
Fixpoint statuses (tr : list HttpEvent) : list Z :=
  match tr with
  | [] => []
  | existT (WriteHeader code) _ :: tr' => code :: statuses tr'
  | _ :: tr' => statuses tr'
  end.

(** The bodies handed to the encoder, in order. *)
Fixpoint encoded (tr : list HttpEvent) : list Body :=
  match tr with
  | [] => []
  | existT (Encode v) _ :: tr' => v :: encoded tr'
  | _ :: tr' => encoded tr'
  end.

(** The calls on the ports other than the logger, in order. *)
Fixpoint ports_called (tr : list HttpEvent) : list Call :=
  match tr with
  | [] => []
  | existT (Port c) _ :: tr' =>
      if is_log c then ports_called tr' else c :: ports_called tr'
  | _ :: tr' => ports_called tr'
  end.

(** The response of a request refused with [code] and [msg]: that status
    and that error body, and no port touched. *)
Definition refused_with (code : Z) (msg : string) (tr : list HttpEvent)
  : Prop :=
  statuses tr = [code] /\ encoded tr = [BError msg] /\ ports_called tr = [].

(** An event of the service, as an event of the handler that runs it. *)
Definition port_event (e : Event) : HttpEvent :=
  existT (Port (projT1 e)) (projT2 e).

(** The assets of a Store stream that come before its first error. *)
Fixpoint leading_assets (items : list RepoItem) : list Asset :=
  match items with
  | inr asset :: rest => asset :: leading_assets rest
  | _ => []
  end.

(** The handler's view of the ports of the service it runs. *)
Definition port_handle {W : Type}
    (handle : forall c : HttpCall, W -> HttpResp c * W)
  : forall c : Call, W -> Resp c * W :=
  fun c => handle (Port c).

(** An in-memory environment for the handlers: the ports of [mem], and
    a response writer that never fails. *)
Definition serve (c : HttpCall) (w : mem.World) : HttpResp c * mem.World :=
  match c return HttpResp c * mem.World with
  | Port c => mem.handle c w
  | HeaderSet _ _ => ((), w)
  | WriteHeader _ => ((), w)
  | Encode _ => (None, w)
  end.

End handler.

(* ===================================================================== *)
(** * Properties *)
(* ===================================================================== *)

(** ** Errors *)

Lemma Is_refl (e : error) : Is e e = true.
Proof. destruct e; cbn; by rewrite bool_decide_true. Qed.

Lemma Is_Errorf (pre post : string) (inner : error) :
  Is (Errorf pre inner post) inner = true.
Proof. cbn [Is]. rewrite Is_refl. apply orb_true_r. Qed.

(** ** Validation *)

Lemma ValidateCommon_rules (a : Asset) :
  ValidateCommon (base a) (variant_type a) = first_violation (shared_rules a).
Proof.
  unfold ValidateCommon, shared_rules, GetID, GetType; cbn [first_violation].
  repeat case_decide; repeat case_bool_decide; try done; tauto.
Qed.

Lemma ValidateCommon_None (a : Asset) :
  ValidateCommon (base a) (variant_type a) = None <-> shared_valid a.
Proof.
  unfold ValidateCommon, shared_valid, GetID, GetType.
  repeat case_decide; split; intros; try done; try tauto.
Qed.

Lemma first_violation_app (rs1 rs2 : list rule) :
  first_violation (rs1 ++ rs2) =
  match first_violation rs1 with
  | Some e => Some e
  | None => first_violation rs2
  end.
Proof.
  induction rs1 as [|[v e] rs1 IH]; cbn; [done|]. by destruct v.
Qed.

Lemma Validate_dispatch (a : Asset) :
  Validate a =
  match ValidateCommon (base a) (variant_type a) with
  | Some e => Some e
  | None => first_violation (variant_rules a)
  end.
Proof.
  destruct a as [c|i|a]; cbn [Validate base variant_type variant_rules];
    unfold Chart_Validate, Insight_Validate, Audience_Validate;
    (match goal with |- context [ValidateCommon ?b ?t] =>
       destruct (ValidateCommon b t) end; [done|]);
    cbn [first_violation];
    repeat case_decide; repeat case_bool_decide;
    repeat match goal with
           | |- context [(?x <? ?y)] => destruct (Z.ltb_spec x y)
           end; cbn; try done; try lia; try tauto.
Qed.

Lemma variant_rules_None (a : Asset) :
  first_violation (variant_rules a) = None <-> variant_valid a.
Proof.
  destruct a as [c|i|a]; cbn [variant_rules variant_valid first_violation].
  - repeat case_bool_decide; cbn; split; intros; try done; try tauto.
  - case_bool_decide; split; intros; try done.
  - case_bool_decide; cbn;
      repeat match goal with
             | |- context [(?x <? ?y)] => destruct (Z.ltb_spec x y)
             end; cbn; split; intros; try done; try tauto; try lia.
  split_and!; [done|done|done|lia].
Qed.

Lemma first_violation_wraps (rs : list rule) (err : error) :
  Forall (fun r => Is r.2 ErrValidation = true) rs ->
  first_violation rs = Some err -> Is err ErrValidation = true.
Proof.
  induction 1 as [|[v e] rs Hr _ IH]; cbn; [done|].
  destruct v; [|done]. by intros [= <-].
Qed.

(** C9. [Validate] reports the first violated rule of the ordered list
    "shared-field rules, then the variant's own rules", each with its own
    error; it succeeds exactly when the shared fields are valid (non-empty
    id, non-empty name, discriminator equal to the variant's) and the
    variant rule holds (Chart: an axis label is non-empty; Insight:
    content is non-empty; Audience: country non-empty, both age bounds
    non-negative, min <= max when max is set); a failing shared-field
    check decides the result before any variant rule is looked at; and
    every reported error wraps [ErrValidation]. *)
Theorem Validate_spec (a : Asset) :
  Validate a = first_violation (shared_rules a ++ variant_rules a)
  /\ (Validate a = None <-> shared_valid a /\ variant_valid a)
  /\ (forall err, ValidateCommon (base a) (variant_type a) = Some err ->
                  Validate a = Some err)
  /\ (forall err, Validate a = Some err -> Is err ErrValidation = true).
Proof.
  assert (Hfirst :
    Validate a = first_violation (shared_rules a ++ variant_rules a)).
  { rewrite Validate_dispatch, first_violation_app, ValidateCommon_rules.
    done. }
  split_and!.
  - done.
  - rewrite Validate_dispatch.
    rewrite <- ValidateCommon_None, <- variant_rules_None.
    destruct (ValidateCommon (base a) (variant_type a)).
    + split; [done | by intros [? _]].
    + split; [done | by intros [_ ?]].
  - intros err Herr. by rewrite Validate_dispatch, Herr.
  - intros err. rewrite Hfirst. apply first_violation_wraps.
    destruct a; unfold shared_rules; cbn [variant_rules app];
      repeat constructor.
Qed.

(** ** Running programs: equations for [result], [final] and [trace] *)

Section RunLemmas.
Context {W : Type} (handle : forall c : Call, W -> Resp c * W).

Lemma run_eta {A : Type} (p : Prog A) (w : W) :
  run handle p w = (result handle p w, final handle p w, trace handle p w).
Proof. unfold result, final, trace. by destruct (run handle p w) as [[??]?]. Qed.

Lemma run_bind {A B : Type} (p : Prog A) (f : A -> Prog B) (w : W) :
  run handle (bind p f) w =
  (result handle (f (result handle p w)) (final handle p w),
   final handle (f (result handle p w)) (final handle p w),
   trace handle p w ++ trace handle (f (result handle p w)) (final handle p w)).
Proof.
  revert w. induction p as [a|c k IH]; intros w.
  - cbn. apply run_eta.
  - unfold result, final, trace in *. cbn.
    destruct (handle c w) as [r w1]. rewrite IH.
    by destruct (run handle (k r) w1) as [[??]?].
Qed.

Lemma result_bind {A B : Type} (p : Prog A) (f : A -> Prog B) (w : W) :
  result handle (bind p f) w =
  result handle (f (result handle p w)) (final handle p w).
Proof. unfold result at 1. by rewrite run_bind. Qed.

Lemma final_bind {A B : Type} (p : Prog A) (f : A -> Prog B) (w : W) :
  final handle (bind p f) w =
  final handle (f (result handle p w)) (final handle p w).
Proof. unfold final at 1. by rewrite run_bind. Qed.

Lemma trace_bind {A B : Type} (p : Prog A) (f : A -> Prog B) (w : W) :
  trace handle (bind p f) w =
  trace handle p w ++ trace handle (f (result handle p w)) (final handle p w).
Proof. unfold trace at 1. by rewrite run_bind. Qed.

Lemma result_Do {A : Type} (c : Call) (k : Resp c -> Prog A) (w : W) :
  result handle (Do c k) w =
  result handle (k (answer handle c w)) (after handle c w).
Proof.
  unfold result, answer, after. cbn. destruct (handle c w) as [r w1]. cbn.
  by destruct (run handle (k r) w1) as [[??]?].
Qed.

Lemma final_Do {A : Type} (c : Call) (k : Resp c -> Prog A) (w : W) :
  final handle (Do c k) w =
  final handle (k (answer handle c w)) (after handle c w).
Proof.
  unfold final, answer, after. cbn. destruct (handle c w) as [r w1]. cbn.
  by destruct (run handle (k r) w1) as [[??]?].
Qed.

Lemma trace_Do {A : Type} (c : Call) (k : Resp c -> Prog A) (w : W) :
  trace handle (Do c k) w =
  ev c (answer handle c w)
    :: trace handle (k (answer handle c w)) (after handle c w).
Proof.
  unfold trace, answer, after. cbn. destruct (handle c w) as [r w1]. cbn.
  by destruct (run handle (k r) w1) as [[??]?].
Qed.

Lemma result_Ret {A : Type} (a : A) (w : W) : result handle (Ret a) w = a.
Proof. done. Qed.

Lemma final_Ret {A : Type} (a : A) (w : W) : final handle (Ret a) w = w.
Proof. done. Qed.

Lemma trace_Ret {A : Type} (a : A) (w : W) : trace handle (Ret a) w = [].
Proof. done. Qed.

End RunLemmas.

Create Rewrite HintDb run.
#[global] Hint Rewrite @result_bind @final_bind @trace_bind
  @result_Do @final_Do @trace_Do
  @result_Ret @final_Ret @trace_Ret : run.

(** ** Counting over traces *)

Lemma calls_app (t1 t2 : list Event) : calls (t1 ++ t2) = calls t1 ++ calls t2.
Proof. apply map_app. Qed.

Lemma count_app (f : Call -> bool) (t1 t2 : list Event) :
  count f (t1 ++ t2) = (count f t1 + count f t2)%nat.
Proof. unfold count. by rewrite calls_app, List.filter_app, length_app. Qed.

Lemma port_calls_app (t1 t2 : list Event) :
  port_calls (t1 ++ t2) = port_calls t1 ++ port_calls t2.
Proof. unfold port_calls. by rewrite calls_app, List.filter_app. Qed.

Lemma yields_app (t1 t2 : list Event) :
  yields (t1 ++ t2) = yields t1 ++ yields t2.
Proof.
  induction t1 as [|[c r] t1 IH]; [done|].
  destruct c; cbn; by rewrite ?IH.
Qed.

Lemma split_at_batch_error_app (t1 t2 : list Event) :
  split_at_batch_error t1 = None ->
  split_at_batch_error (t1 ++ t2) =
  match split_at_batch_error t2 with
  | Some (before, ie, rest) => Some (t1 ++ before, ie, rest)
  | None => None
  end.
Proof.
  induction t1 as [|e t1 IH]; cbn.
  - intros _. by destruct (split_at_batch_error t2) as [[[??]?]|].
  - destruct (batch_error e); [done|].
    destruct (split_at_batch_error t1) as [[[??]?]|]; [done|].
    intros _. rewrite IH by done.
    by destruct (split_at_batch_error t2) as [[[??]?]|].
Qed.

(** ** The write-through helper *)

(** Case analysis on the answer the environment gave to a call that the
    program under study branches on. *)
Ltac case_answer :=
  match goal with
  | |- context [match answer ?h ?c ?w with _ => _ end] =>
      let E := fresh "Hans" in destruct (answer h c w) eqn:E
  end.

Ltac run_simpl :=
  unfold call; repeat (progress (autorewrite with run; cbn [fst snd app])).

Ltac run_cases := run_simpl; repeat (case_answer; run_simpl).

Section WriteThrough.
Context `{JSON} {W : Type} (handle : forall c : Call, W -> Resp c * W).

Lemma updateCache_trace (asset : Asset) (w : W) :
  let tr := trace handle (updateCache asset) w in
  yields tr = []
  /\ split_at_batch_error tr = None
  /\ List.filter is_store (calls tr) = []
  /\ List.filter is_enricher (calls tr) = []
  /\ port_calls tr =
     match Marshal asset with
     | inr data =>
         [TimeNowUnix;
          CacheAddToSet (GetID asset) (answer handle TimeNowUnix w);
          CacheSet (GetID asset) data]
     | inl _ => []
     end.
Proof.
  unfold updateCache. destruct (Marshal asset) as [err|data]; run_cases; done.
Qed.

Lemma enrichAndSaveCache_result (asset : Asset) (w : W) :
  result handle (enrichAndSaveCache asset) w = (Some asset, None).
Proof. unfold enrichAndSaveCache. by run_simpl. Qed.

Lemma enrichAndSaveCache_trace (asset : Asset) (w : W) :
  let tr := trace handle (enrichAndSaveCache asset) w in
  yields tr = []
  /\ split_at_batch_error tr = None
  /\ List.filter is_store (calls tr) = []
  /\ List.filter is_enricher (calls tr) = [EnricherEnrich asset]
  /\ match Marshal asset with
     | inr data =>
         exists score,
         port_calls tr =
         [EnricherEnrich asset; TimeNowUnix;
          CacheAddToSet (GetID asset) score; CacheSet (GetID asset) data]
     | inl _ => port_calls tr = [EnricherEnrich asset]
     end.
Proof.
  pose proof (updateCache_trace asset) as Hupd. cbn zeta in Hupd.
  unfold enrichAndSaveCache.
  remember (updateCache asset) as upd eqn:Hopaque. clear Hopaque.
  run_simpl. rewrite app_nil_r.
  case_answer; run_simpl;
    match goal with
    | |- context [trace handle upd ?w'] =>
        destruct (Hupd w') as (Hy & Hb & Hs & He & Hp);
        set (t := trace handle upd w') in *; clearbody t
    end;
    cbn [yields ev split_at_batch_error batch_error];
    rewrite Hb; (split_and!; [exact Hy|done|exact Hs|cbn; f_equal; exact He|]);
    destruct (Marshal asset) as [err|data];
    try eexists; cbn; f_equal; exact Hp.
Qed.

End WriteThrough.

(** ** Single-asset operations *)

(** A batch that answers [GetBatch({id})] within the requested ids and has
    no entry for [id] is empty. *)
Lemma batch_miss_empty (id : string) (batch : gmap string (list byte)) :
  batch_within [id] (inr batch) -> batch !! id = None -> size batch = 0%nat.
Proof.
  cbn. intros Hin Hid. apply map_size_empty_iff, map_empty. intros k.
  destruct (batch !! k) eqn:Hk; [|done].
  assert (k ∈ [id]) as ->%list_elem_of_singleton by eauto. congruence.
Qed.

Section Operations.
Context `{JSON} {W : Type} (handle : forall c : Call, W -> Resp c * W).

(** C3. [Save] has three outcomes.  When [Validate] fails it returns the
    validation error wrapped, having made no call except the opening log
    line: no Store, cache or enricher call.  When validation passes and
    the Store save fails it returns that error wrapped, having called
    only the logger and the Store save: no cache or enricher call.  When
    the Store save succeeds it returns nil, whatever the enricher and the
    cache answer afterwards. *)
Theorem Save_outcomes (asset : Asset) (w : W) :
  let w0 := after handle (Log LInfo "saving asset") w in
  let tr := trace handle (Save asset) w in
  (forall err, Validate asset = Some err ->
     result handle (Save asset) w
       = Some (Errorf "validation failed: " err "")
     /\ calls tr = [Log LInfo "saving asset"]
     /\ count is_store tr = 0%nat /\ count is_cache tr = 0%nat
     /\ count is_enricher tr = 0%nat)
  /\ (forall err, Validate asset = None ->
        answer handle (RepoSave asset) w0 = Some err ->
     result handle (Save asset) w
       = Some (Errorf "failed to save to db: " err "")
     /\ calls tr = [Log LInfo "saving asset"; RepoSave asset]
     /\ count is_cache tr = 0%nat /\ count is_enricher tr = 0%nat)
  /\ (Validate asset = None ->
        answer handle (RepoSave asset) w0 = None ->
      result handle (Save asset) w = None).
Proof.
  cbn zeta. unfold Save. split_and!.
  - intros err ->. by run_simpl.
  - intros err -> Herr. run_simpl. rewrite Herr. by run_simpl.
  - intros -> Hok. run_simpl. rewrite Hok. by run_simpl.
Qed.

(** C5. When [GetBatch({id})] succeeds and its result holds bytes for
    [id], [FindByID(id)] returns what [unmarshal] makes of those bytes and
    its only call is that batch read: no Store call, no Enricher call. *)
Theorem FindByID_cache_hit (id : string) (w : W)
    (batch : gmap string (list byte)) (data : list byte) :
  answer handle (CacheGetBatch [id]) w = inr batch ->
  batch !! id = Some data ->
  let tr := trace handle (FindByID id) w in
  result handle (FindByID id) w = unmarshal data
  /\ calls tr = [CacheGetBatch [id]]
  /\ count is_store tr = 0%nat /\ count is_enricher tr = 0%nat.
Proof.
  intros Hbatch Hdata. cbn zeta. unfold FindByID. run_simpl.
  rewrite Hbatch.
  assert (size batch <> 0%nat) by (eapply map_size_ne_0_lookup_2; eauto).
  case_decide; [|lia]. rewrite Hdata. by run_simpl.
Qed.

(** C4. On a cache miss for [id] (the batch read failed, or its result --
    a partial map of the requested ids -- has no entry for [id]),
    [FindByID(id)] calls the Store exactly once, with [FindByID(id)].  A
    Store error comes back unchanged and nothing else is called.  On
    Store success the asset is returned after exactly one [Enrich] call
    and, the asset being serializable, after [AddToSet] and [Set] have
    been called for it, in that order. *)
Theorem FindByID_cache_miss (id : string) (w : W) :
  let r := answer handle (CacheGetBatch [id]) w in
  let w1 := after handle (CacheGetBatch [id]) w in
  let tr := trace handle (FindByID id) w in
  cache_miss id r -> batch_within [id] r ->
  List.filter is_store (calls tr) = [RepoFindByID id]
  /\ (forall err, answer handle (RepoFindByID id) w1 = inl err ->
        result handle (FindByID id) w = (None, Some err)
        /\ calls tr = [CacheGetBatch [id]; RepoFindByID id])
  /\ (forall asset data,
        answer handle (RepoFindByID id) w1 = inr asset ->
        Marshal asset = inr data ->
        result handle (FindByID id) w = (Some asset, None)
        /\ List.filter is_enricher (calls tr)
           = [EnricherEnrich asset]
        /\ exists score,
           port_calls tr =
           [CacheGetBatch [id]; RepoFindByID id; EnricherEnrich asset;
            TimeNowUnix; CacheAddToSet (GetID asset) score;
            CacheSet (GetID asset) data]).
Proof.
  cbn zeta. intros Hmiss Hwithin.
  set (fromStore :=
    bind (call (RepoFindByID id)) (fun r' =>
      match r' with
      | inl err => Ret (None, Some err)
      | inr asset => enrichAndSaveCache asset
      end)).
  assert (Hgo :
    result handle (FindByID id) w
      = result handle fromStore (after handle (CacheGetBatch [id]) w)
    /\ trace handle (FindByID id) w
      = ev (CacheGetBatch [id]) (answer handle (CacheGetBatch [id]) w)
          :: trace handle fromStore (after handle (CacheGetBatch [id]) w)).
  { unfold FindByID. fold fromStore. run_simpl.
    destruct (answer handle (CacheGetBatch [id]) w) as [e|batch] eqn:Hb;
      [done|].
    rewrite (batch_miss_empty id batch) by done. done. }
  destruct Hgo as [-> ->]. subst fromStore.
  set (w1 := after handle (CacheGetBatch [id]) w).
  pose proof (enrichAndSaveCache_trace handle) as Htr.
  pose proof (enrichAndSaveCache_result handle) as Hres.
  cbn zeta in Htr. remember enrichAndSaveCache as enrich eqn:Hopaque.
  clear Hopaque. split_and!.
  - run_simpl. destruct (answer handle (RepoFindByID id) w1) as [e|a];
      run_simpl; [done|].
    destruct (Htr a (after handle (RepoFindByID id) w1))
      as (_ & _ & Hs & _).
    cbn. f_equal. exact Hs.
  - intros err Herr. run_simpl. rewrite Herr. by run_simpl.
  - intros asset data Hasset Hdata. run_simpl. rewrite Hasset.
    destruct (Htr asset (after handle (RepoFindByID id) w1))
      as (_ & _ & _ & He & Hp).
    rewrite Hdata in Hp. destruct Hp as [score Hp].
    split_and!.
    + apply Hres.
    + cbn. exact He.
    + exists score. cbn. do 2 f_equal. exact Hp.
Qed.

(** Outside the port contract: a non-empty batch result that holds
    other ids than the requested one is not a miss for [FindByID], which
    tests [len(batch) > 0] and decodes the nil slice [batch[id]]. *)
Lemma FindByID_foreign_batch (id : string) (w : W)
    (batch : gmap string (list byte)) :
  answer handle (CacheGetBatch [id]) w = inr batch ->
  batch !! id = None -> (0 < size batch)%nat ->
  result handle (FindByID id) w = unmarshal []
  /\ calls (trace handle (FindByID id) w) = [CacheGetBatch [id]].
Proof.
  intros Hbatch Hid Hsize. unfold FindByID. run_simpl. rewrite Hbatch.
  case_decide; [|lia]. rewrite Hid. by run_simpl.
Qed.

(** What [Delete] returns once the ownership check has passed and the
    Store row is gone: the answer of the cache removal, error included. *)
Lemma Delete_returns_cache_answer (id userID : string) (w : W)
    (asset : Asset) :
  let w1 := after handle (RepoFindByID id) w in
  let w2 := after handle (RepoDelete id) w1 in
  answer handle (RepoFindByID id) w = inr asset ->
  GetUserID asset = userID ->
  answer handle (RepoDelete id) w1 = None ->
  result handle (Delete id userID) w = answer handle (CacheRemove id) w2.
Proof.
  cbn zeta. intros Hasset Howner Hdel. unfold Delete. run_simpl.
  rewrite Hasset. case_decide; [done|]. run_simpl. rewrite Hdel.
  by run_simpl.
Qed.

(** The sibling path: [UpdateDescription] logs a failed cache removal and
    still returns the updated asset. *)
Lemma UpdateDescription_swallows_cache_error
    (id description userID : string) (w : W) (asset updated : Asset) :
  let w1 := after handle (RepoFindByID id) w in
  answer handle (RepoFindByID id) w = inr asset ->
  GetUserID asset = userID ->
  answer handle (RepoUpdateDescription id description) w1 = inr updated ->
  result handle (UpdateDescription id description userID) w
    = (Some updated, None).
Proof.
  cbn zeta. intros Hasset Howner Hupd. unfold UpdateDescription. run_simpl.
  rewrite Hasset. case_decide; [done|]. run_simpl. rewrite Hupd.
  by run_simpl.
Qed.

(** C8. [Delete] and [UpdateDescription] open with a Store read of the
    asset and never read the cache.  When the Store's copy belongs to
    somebody else, each returns the forbidden error and that Store read is
    its only call: no Store mutation, no cache call. *)
Theorem not_owner_forbidden (id description userID : string) (w : W) :
  let trD := trace handle (Delete id userID) w in
  let trU := trace handle (UpdateDescription id description userID) w in
  (head (calls trD) = Some (RepoFindByID id)
   /\ head (calls trU) = Some (RepoFindByID id)
   /\ count is_cache_read trD = 0%nat /\ count is_cache_read trU = 0%nat)
  /\ (forall asset,
        answer handle (RepoFindByID id) w = inr asset ->
        GetUserID asset <> userID ->
        (result handle (Delete id userID) w
           = Some (New "forbidden: you do not own this asset")
         /\ calls trD = [RepoFindByID id]
         /\ count is_store_mutation trD = 0%nat
         /\ count is_cache trD = 0%nat)
        /\ (result handle (UpdateDescription id description userID) w
              = (None, Some (New "forbidden: you do not own this asset"))
            /\ calls trU = [RepoFindByID id]
            /\ count is_store_mutation trU = 0%nat
            /\ count is_cache trU = 0%nat)).
Proof.
  cbn zeta. unfold Delete, UpdateDescription. split.
  - run_simpl.
    destruct (answer handle (RepoFindByID id) w) as [e|a]; run_simpl;
      [done|].
    case_decide; run_cases; done.
  - intros asset Hasset Howner. run_simpl. rewrite Hasset.
    case_decide; [|done]. by run_simpl.
Qed.

End Operations.

(** ** Streaming *)

Section Streaming.
Context `{JSON} {W : Type} (handle : forall c : Call, W -> Resp c * W).

(** C10. On the Store-backed path of [FindAll] -- the index read failed
    or returned no ids, and the Store query succeeded -- the returned
    sequence is [cacheIterator] over the Store's rows; and whenever that
    iteration reaches a (serializable) asset, it calls the Enricher and
    the two cache writes, [AddToSet] and [Set], a first time and then a
    second time, and only then yields the asset. *)
Theorem store_backed_FindAll_writes_through_twice
    (limit offset : Z) (w : W) (items : list RepoItem) :
  let stop := wrap_int (wrap_int (offset + limit) - 1) in
  let w1 := after handle (Log LInfo "streaming favorites from db")
              (after handle (CacheGetIdsFromSet offset stop) w) in
  (forall id ids, answer handle (CacheGetIdsFromSet offset stop) w
                  <> inr (id :: ids)) ->
  answer handle (RepoFindAll limit offset) w1 = inr items ->
  result handle (FindAll limit offset) w = inr (cacheIterator items)
  /\ forall asset data rest wi,
       Marshal asset = inr data ->
       exists pre continue wi' s1 s2,
         trace handle (cacheIterator (inr asset :: rest)) wi
         = pre ++ ev (Yield (Some asset, None)) continue
               :: (if continue : bool
                   then trace handle (cacheIterator rest) wi' else [])
         /\ port_calls pre =
            [EnricherEnrich asset; TimeNowUnix;
             CacheAddToSet (GetID asset) s1; CacheSet (GetID asset) data;
             EnricherEnrich asset; TimeNowUnix;
             CacheAddToSet (GetID asset) s2; CacheSet (GetID asset) data].
Proof.
  cbn zeta. intros Hindex Hitems. split.
  - unfold FindAll. run_simpl.
    destruct (answer handle (CacheGetIdsFromSet _ _) w) as [e|[|id ids]]
      eqn:Hans; try (by destruct (Hindex id ids));
      run_simpl; rewrite Hitems; by run_simpl.
  - intros asset data rest wi Hdata.
    pose proof (enrichAndSaveCache_trace handle asset) as Htr.
    pose proof (enrichAndSaveCache_result handle asset) as Hres.
    cbn zeta in Htr. rewrite Hdata in Htr.
    unfold cacheIterator. cbn [range_items]. unfold cacheIteratorBody.
    remember (enrichAndSaveCache asset) as enrich eqn:Hopaque.
    clear Hopaque. run_simpl. rewrite !Hres. run_simpl.
    set (w2 := final handle enrich wi).
    set (w3 := final handle enrich w2).
    destruct (Htr wi) as (_ & _ & _ & _ & s1 & Hp1).
    destruct (Htr w2) as (_ & _ & _ & _ & s2 & Hp2).
    exists (trace handle enrich wi ++ trace handle enrich w2),
      (answer handle (Yield (Some asset, None)) w3),
      (after handle (Yield (Some asset, None)) w3), s1, s2.
    split.
    + rewrite <- !app_assoc. do 2 f_equal. cbn. f_equal.
      by destruct (answer handle (Yield (Some asset, None)) w3).
    + by rewrite port_calls_app, Hp1, Hp2.
Qed.

Lemma unmarshal_cases (data : list byte) :
  (exists a, unmarshal data = (Some a, None))
  \/ (exists e, unmarshal data = (None, Some e)).
Proof.
  unfold unmarshal.
  destruct (UnmarshalBase data) as [e|b]; [by right; eexists|].
  repeat case_decide;
    repeat match goal with
           | |- context [match ?x with inl _ => _ | inr _ => _ end] =>
               destruct x
           end; (by left; eexists) || (by right; eexists).
Qed.

(** Composition rules for [loop_trace]. *)

Lemma loop_trace_stop (n : nat) (next : Prog unit) (tr : list Event) :
  split_at_batch_error tr = None -> (length (yields tr) <= n)%nat ->
  loop_trace handle n next tr.
Proof. by left. Qed.

Lemma loop_trace_done (next : Prog unit) (w : W) :
  loop_trace handle 0 next (trace handle next w).
Proof. right. exists [], w. by repeat constructor. Qed.

Lemma loop_trace_silent (n : nat) (next : Prog unit)
    (pre tr : list Event) :
  split_at_batch_error pre = None -> yields pre = [] ->
  loop_trace handle n next tr -> loop_trace handle n next (pre ++ tr).
Proof.
  intros Hb Hy [[Hb' Hn]|(tr0 & w' & -> & Hb' & Hn & Hall)].
  - left. by rewrite split_at_batch_error_app, Hb', yields_app, Hy.
  - right. exists (pre ++ tr0), w'.
    by rewrite app_assoc, split_at_batch_error_app, Hb', yields_app, Hy
      by done.
Qed.

Lemma loop_trace_yield (n : nat) (next : Prog unit)
    (item : AssetResult) (continue : bool) (tr : list Event) :
  is_asset_item item ->
  loop_trace handle n next tr ->
  loop_trace handle (S n) next (ev (Yield item) continue :: tr).
Proof.
  intros Hitem [[Hb' Hn]|(tr0 & w' & -> & Hb' & Hn & Hall)].
  - left. cbn. rewrite Hb'. split; [done|lia].
  - right. exists (ev (Yield item) continue :: tr0), w'. cbn.
    rewrite Hb', Hn. split_and!; try done. by constructor.
Qed.

(** The inner loop of the chunked iterator has the loop shape. *)
Lemma chunkBody_loop_trace (dataMap : gmap string (list byte))
    (chunkIds : list string) (next : Prog unit) (w : W) :
  loop_trace handle (length chunkIds) next
    (trace handle (chunkBody dataMap chunkIds next) w).
Proof.
  revert w. induction chunkIds as [|id rest IH]; intros w.
  - apply loop_trace_done.
  - cbn [chunkBody length].
    pose proof (enrichAndSaveCache_trace handle) as Htr.
    pose proof (enrichAndSaveCache_result handle) as Hres.
    cbn zeta in Htr. remember enrichAndSaveCache as enrich eqn:Hopaque.
    clear Hopaque.
    destruct (dataMap !! id) as [data|].
    + destruct (unmarshal_cases data) as [[a ->]|[e ->]]; run_simpl.
      * apply loop_trace_yield; [by split; [eexists|]|].
        case_answer; [apply IH|]. apply loop_trace_stop; cbn; [done|lia].
      * apply loop_trace_stop; cbn; [done|lia].
    + run_simpl. apply (loop_trace_silent _ _ [_]); [done..|].
      apply (loop_trace_silent _ _ [_]); [done..|].
      case_answer; run_simpl.
      * apply loop_trace_stop; cbn; [done|lia].
      * rewrite Hres. cbn [fst].
        destruct (Htr a (after handle (RepoFindByID id)
                    (after handle (Log LWarn
          "cache inconsistency detected (missing data), repairing from db")
                    w))) as (Hy & Hb & _).
        apply loop_trace_silent; [done..|].
        apply loop_trace_yield; [by split; [eexists|]|].
        case_answer; [apply IH|]. apply loop_trace_stop; cbn; [done|lia].
Qed.

(** One step of the inner loop.  When it reaches an id with no entry in
    the batch result and the Store has the asset, it calls the Store once
    with [FindByID(id)], the Enricher once, writes the (serializable)
    asset through with [AddToSet] and [Set], yields that asset, and --
    the consumer still pulling -- goes on with the remaining ids of the
    chunk and then with what follows the chunk. *)
Lemma chunkBody_read_repair (dataMap : gmap string (list byte))
    (id : string) (rest : list string) (next : Prog unit) (w : W)
    (asset : Asset) (data : list byte) :
  let w1 := after handle (Log LWarn
    "cache inconsistency detected (missing data), repairing from db") w in
  dataMap !! id = None ->
  answer handle (RepoFindByID id) w1 = inr asset ->
  Marshal asset = inr data ->
  exists pre continue w' score,
    trace handle (chunkBody dataMap (id :: rest) next) w
    = pre ++ ev (Yield (Some asset, None)) continue
          :: (if continue : bool
              then trace handle (chunkBody dataMap rest next) w' else [])
    /\ port_calls pre =
       [RepoFindByID id; EnricherEnrich asset; TimeNowUnix;
        CacheAddToSet (GetID asset) score; CacheSet (GetID asset) data]
    /\ count is_store pre = 1%nat /\ count is_enricher pre = 1%nat.
Proof.
  cbn zeta. intros Hmiss Hasset Hdata.
  pose proof (enrichAndSaveCache_trace handle asset) as Htr.
  pose proof (enrichAndSaveCache_result handle) as Hres.
  cbn zeta in Htr. rewrite Hdata in Htr.
  cbn [chunkBody]. rewrite Hmiss.
  remember enrichAndSaveCache as enrich eqn:Hopaque. clear Hopaque.
  run_simpl. rewrite Hasset. run_simpl. rewrite Hres. cbn [fst].
  set (w1 := after handle (Log _ _) w).
  set (w2 := after handle (RepoFindByID id) w1).
  set (w3 := final handle (enrich asset) w2).
  destruct (Htr w2) as (_ & _ & Hs & He & score & Hp).
  exists (ev (Log LWarn
    "cache inconsistency detected (missing data), repairing from db") ()
          :: ev (RepoFindByID id) (inr asset)
          :: trace handle (enrich asset) w2),
    (answer handle (Yield (Some asset, None)) w3),
    (after handle (Yield (Some asset, None)) w3), score.
  split_and!.
  - cbn. f_equal.
    { f_equal. by destruct (answer handle (Log _ _) w). }
    do 3 f_equal.
    by destruct (answer handle (Yield (Some asset, None)) w3).
  - cbn. f_equal. exact Hp.
  - unfold count. cbn. f_equal. exact (f_equal length Hs).
  - unfold count. cbn. exact (f_equal length He).
Qed.

Lemma slice_length {A : Type} (l : list A) (i j : nat) :
  length (slice l i j) = Nat.min (j - i) (length l - i).
Proof. unfold slice. by rewrite length_take, length_drop. Qed.

(** Enough fuel: the outer loop started at [i] never needs more than
    [length ids - i] iterations, so the fuel does not show in the result. *)
Lemma chunkLoop_fuel (ids : list string) (fuel1 fuel2 i : nat) :
  (length ids - i <= fuel1)%nat -> (length ids - i <= fuel2)%nat ->
  chunkLoop fuel1 ids i = chunkLoop fuel2 ids i.
Proof.
  revert fuel2 i. induction fuel1 as [|fuel1 IH]; intros fuel2 i H1 H2.
  - destruct fuel2; cbn [chunkLoop]; case_decide; try done; lia.
  - destruct fuel2; cbn [chunkLoop]; case_decide; try done; [lia|].
    rewrite (IH fuel2 (i + batchSize)%nat); [done|..];
      unfold batchSize; lia.
Qed.

(** The loop as Go writes it: test [i < len(ids)], fetch the chunk
    [ids[i:min(i+batchSize, len(ids))]], run the inner loop, go on with
    [i + batchSize]. *)
Lemma chunkLoop_unfold (ids : list string) (i : nat) :
  chunkLoop (length ids - i) ids i =
  if decide (i < length ids)%nat then
    let chunkIds := slice ids i (Nat.min (i + batchSize) (length ids)) in
    (r <- call (CacheGetBatch chunkIds);;
     match r with
     | inl err =>
         call (Yield (None,
           Some (Errorf "failed to fetch cache batch: " err "")));;
         Ret ()
     | inr dataMap =>
         chunkBody dataMap chunkIds
           (chunkLoop (length ids - (i + batchSize)) ids (i + batchSize))
     end)%prog
  else Ret ().
Proof.
  destruct (length ids - i)%nat as [|n] eqn:Hn; cbn [chunkLoop];
    case_decide; try done; [lia|].
  rewrite (chunkLoop_fuel ids n (length ids - (i + batchSize))
             (i + batchSize)); [done|..]; unfold batchSize; lia.
Qed.

Lemma chunkLoop_batch_error (fuel : nat) (ids : list string) (i : nat)
    (w : W) (before : list Event) (chunk : list string) (err : error)
    (rest : list Event) :
  split_at_batch_error (trace handle (chunkLoop fuel ids i) w)
    = Some (before, (chunk, err), rest) ->
  (exists continue,
     rest = [ev (Yield (None,
               Some (Errorf "failed to fetch cache batch: " err "")))
               continue])
  /\ exists j k,
       (i <= j < length ids)%nat /\ j = (i + k * batchSize)%nat
       /\ chunk = slice ids j (Nat.min (j + batchSize) (length ids))
       /\ length (yields before) = (j - i)%nat
       /\ Forall is_asset_item (yields before).
Proof.
  revert i w before. induction fuel as [|fuel IH]; intros i w before;
    cbn [chunkLoop]; case_decide; try done.
  run_simpl.
  set (chunkIds := slice ids i (Nat.min (i + batchSize) (length ids))).
  destruct (answer handle (CacheGetBatch chunkIds) w) as [e|dataMap]
    eqn:Hans; cbn [split_at_batch_error batch_error ev].
  - run_simpl. intros [= <- <- <- <-]. split; [by eexists|].
    exists i, 0%nat. split_and!; [lia|lia|lia|done|cbn; lia|constructor].
  - destruct (chunkBody_loop_trace dataMap chunkIds
                (chunkLoop fuel ids (i + batchSize))
                (after handle (CacheGetBatch chunkIds) w))
      as [[Hb _]|(tr0 & w' & -> & Hb & Hn & Hall)].
    + by rewrite Hb.
    + rewrite split_at_batch_error_app by done.
      destruct (split_at_batch_error
                  (trace handle (chunkLoop fuel ids (i + batchSize)) w'))
        as [[[before' [chunk' err']] rest']|] eqn:Hsplit; [|done].
      intros [= <- <- <- <-].
      destruct (IH _ _ _ Hsplit)
        as (Hrest & j & k & Hj & Hk & Hchunk & Hlen & Hall').
      split; [done|]. exists j, (S k).
      assert (length chunkIds = batchSize) as Hfull.
      { subst chunkIds. rewrite slice_length. unfold batchSize in *. lia. }
      split_and!; [unfold batchSize in *; lia|lia|lia|done|..].
      * cbn [yields ev]. rewrite yields_app, length_app, Hn, Hlen, Hfull.
        unfold batchSize in *. lia.
      * cbn [yields ev]. rewrite yields_app. by apply Forall_app.
Qed.

(** C7. In any run of the chunked cache iterator, a failed batch read is
    followed by exactly one more event: the yield of an error that wraps
    the cache's error ([errors.Unwrap] gives it back), after which the
    sequence has ended -- no asset of that chunk or of a later chunk is
    yielded.  The failing read is the one for the chunk starting at some
    index [i], a multiple of the batch size, and before it exactly [i]
    items were yielded, each an asset: no id before the failing chunk was
    skipped. *)
Theorem batch_error_is_fatal (ids : list string) (w : W)
    (before : list Event) (chunk : list string) (err : error)
    (rest : list Event) :
  split_at_batch_error (trace handle (chunkedCacheIterator ids) w)
    = Some (before, (chunk, err), rest) ->
  let yielded := Errorf "failed to fetch cache batch: " err "" in
  (exists continue, rest = [ev (Yield (None, Some yielded)) continue])
  /\ Unwrap yielded = Some err /\ Is yielded err = true
  /\ exists i k,
       (i < length ids)%nat /\ i = (k * batchSize)%nat
       /\ chunk = slice ids i (Nat.min (i + batchSize) (length ids))
       /\ length (yields before) = i
       /\ Forall is_asset_item (yields before).
Proof.
  intros Hsplit. cbn zeta.
  destruct (chunkLoop_batch_error _ _ _ _ _ _ _ _ Hsplit)
    as (Hrest & j & k & Hj & Hk & Hchunk & Hlen & Hall).
  split_and!; [done|done|..].
  - apply Is_Errorf.
  - exists j, k. split_and!; [lia|lia|done|lia|done].
Qed.

(** The chunked iterator yields at most one item per id. *)
Lemma chunkLoop_yields_le (fuel : nat) (ids : list string) (i : nat)
    (w : W) :
  (length (yields (trace handle (chunkLoop fuel ids i) w))
   <= length ids - i)%nat.
Proof.
  revert i w. induction fuel as [|fuel IH]; intros i w;
    cbn [chunkLoop]; case_decide; try (cbn; lia).
  run_simpl.
  set (chunkIds := slice ids i (Nat.min (i + batchSize) (length ids))).
  assert (length chunkIds = Nat.min batchSize (length ids - i)) as Hlen.
  { subst chunkIds. rewrite slice_length. lia. }
  destruct (answer handle (CacheGetBatch chunkIds) w) as [e|dataMap];
    cbn [yields ev].
  - run_simpl. cbn. lia.
  - destruct (chunkBody_loop_trace dataMap chunkIds
                (chunkLoop fuel ids (i + batchSize))
                (after handle (CacheGetBatch chunkIds) w))
      as [[_ Hn]|(tr0 & w' & -> & _ & Hn & _)].
    + lia.
    + rewrite yields_app, length_app, Hn.
      specialize (IH (i + batchSize)%nat w'). lia.
Qed.

Lemma chunkedCacheIterator_yields_le (ids : list string) (w : W) :
  (length (yields (trace handle (chunkedCacheIterator ids) w))
   <= length ids)%nat.
Proof.
  unfold chunkedCacheIterator.
  pose proof (chunkLoop_yields_le (length ids) ids 0 w). lia.
Qed.

(** The Store-backed iterator yields at most one item per row. *)
Lemma cacheIterator_yields_le (items : list RepoItem) (w : W) :
  (length (yields (trace handle (cacheIterator items) w))
   <= length items)%nat.
Proof.
  unfold cacheIterator. revert w.
  induction items as [|it items IH]; intros w; [cbn; lia|].
  cbn [range_items length]. unfold cacheIteratorBody at 1.
  pose proof (enrichAndSaveCache_trace handle) as Htr.
  pose proof (enrichAndSaveCache_result handle) as Hres.
  cbn zeta in Htr. remember enrichAndSaveCache as enrich eqn:Hopaque.
  destruct it as [e|a]; run_simpl; [cbn; lia|].
  rewrite !Hres. run_simpl. rewrite !yields_app.
  set (w2 := final handle (enrich a) w).
  set (w3 := final handle (enrich a) w2).
  destruct (Htr a w) as (-> & _). destruct (Htr a w2) as (-> & _).
  cbn [app yields ev length]. subst enrich.
  destruct (answer handle (Yield (Some a, None)) w3).
  - specialize (IH (after handle (Yield (Some a, None)) w3)). lia.
  - cbn. lia.
Qed.

(** [FindAll] then ranging over the result: when the index read returns
    at most [n] ids and the Store query at most [n] rows, at most [n]
    items are yielded. *)
Lemma FindAll_consume_yields_le (limit offset : Z) (w : W) (n : nat) :
  (forall ids,
     answer handle (CacheGetIdsFromSet offset
                      (wrap_int (wrap_int (offset + limit) - 1))) w
     = inr ids -> (length ids <= n)%nat) ->
  (forall w' items,
     answer handle (RepoFindAll limit offset) w' = inr items ->
     (length items <= n)%nat) ->
  (length (yields (trace handle (FindAll_consume limit offset) w)) <= n)%nat.
Proof.
  intros Hindex Hstore. unfold FindAll_consume, FindAll.
  pose proof chunkedCacheIterator_yields_le as Hchunked.
  pose proof cacheIterator_yields_le as Hrows.
  remember chunkedCacheIterator as chunked eqn:Hc. clear Hc.
  remember cacheIterator as fromStore eqn:Hs. clear Hs.
  run_simpl.
  destruct (answer handle (CacheGetIdsFromSet _ _) w) as [e|[|id ids]]
    eqn:Hans; run_simpl.
  3: { cbn [yields ev]. rewrite app_nil_r.
       etrans; [apply Hchunked|]. by apply Hindex. }
  all: cbn [yields ev];
    match goal with
    | |- context [answer handle (RepoFindAll ?l ?o) ?w'] =>
        specialize (Hstore w');
        destruct (answer handle (RepoFindAll l o) w') as [e'|items]
    end; run_simpl; cbn [yields ev length]; try lia;
    rewrite app_nil_r; (etrans; [apply Hrows|]); by apply Hstore.
Qed.

End Streaming.

(* ===================================================================== *)
(** * The properties at concrete inputs *)
(* ===================================================================== *)

Section Concrete.
Import mem.

(** C1. [Delete("1", "u1")] where the caller owns asset "1", the Store
    deletes the row, and the cache removal fails: the ownership check
    passes, the Store row is gone, and yet [Delete] returns the cache's
    error to the caller.  [UpdateDescription] in the same environment logs
    the same cache failure and reports success. *)
Theorem Delete_returns_cache_remove_error :
  let w := with_faults warm remove_fails in
  let w1 := after handle (RepoFindByID "1") w in
  answer handle (RepoFindByID "1") w = inr asset1
  /\ GetUserID asset1 = "u1"
  /\ answer handle (RepoDelete "1") w1 = None
  /\ answer handle (CacheRemove "1") (after handle (RepoDelete "1") w1)
     = Some cache_down
  /\ result handle (Delete "1" "u1") w = Some cache_down
  /\ rows (final handle (Delete "1" "u1") w) = [asset2]
  /\ calls (trace handle (Delete "1" "u1") w)
     = [RepoFindByID "1"; RepoDelete "1"; CacheRemove "1"]
  /\ result handle (UpdateDescription "1" "new desc" "u1") w
     = (Some (set_description "new desc" asset1), None).
Proof. cbn zeta. by split_and!; vm_compute. Qed.

(** C2. [FindAll(0, 0)] asks the index for the range [0, -1] in every
    environment; over a cache whose index holds two ids, with [-1] read as
    "to the end", the returned sequence yields both assets although the
    limit is zero.  The Store-backed path with the same arguments yields
    nothing. *)
Theorem FindAll_zero_limit_yields_whole_index :
  (forall (W : Type) (h : forall c : Call, W -> Resp c * W) (w : W),
     head (calls (trace h (FindAll 0 0) w))
     = Some (CacheGetIdsFromSet 0 (-1)))
  /\ answer handle (CacheGetIdsFromSet 0 (-1)) warm = inr ["2"; "1"]
  /\ result handle (FindAll_consume 0 0) warm = None
  /\ yielded_assets (trace handle (FindAll_consume 0 0) warm)
     = [asset2; asset1]
  /\ yields (trace handle (FindAll_consume 0 0) store_only) = [].
Proof.
  split; [|by split_and!; vm_compute].
  intros W h w. unfold FindAll. by run_simpl.
Qed.

(** [FindByID("1")] over the warm cache: a hit. *)
Lemma FindByID_cache_hit_witness :
  let tr := trace handle (FindByID "1") warm in
  answer handle (CacheGetBatch ["1"]) warm = inr (mget (blobs warm) ["1"])
  /\ mget (blobs warm) ["1"] !! "1" = Some (blob_of asset1)
  /\ result handle (FindByID "1") warm = (Some asset1, None)
  /\ calls tr = [CacheGetBatch ["1"]]
  /\ count is_store tr = 0%nat /\ count is_enricher tr = 0%nat.
Proof.
  assert (H1 : answer handle (CacheGetBatch ["1"]) warm
               = inr (mget (blobs warm) ["1"])) by reflexivity.
  assert (H2 : mget (blobs warm) ["1"] !! "1" = Some (blob_of asset1))
    by (vm_compute; reflexivity).
  split; [exact H1|]. split; [exact H2|].
  exact (FindByID_cache_hit handle "1" warm _ _ H1 H2).
Defined.

(** [FindByID("2")] when the blob of "2" is gone: a miss, repaired from
    the Store. *)
Lemma FindByID_cache_miss_witness :
  let r := answer handle (CacheGetBatch ["2"]) drifted in
  let tr := trace handle (FindByID "2") drifted in
  cache_miss "2" r /\ batch_within ["2"] r
  /\ List.filter is_store (calls tr) = [RepoFindByID "2"]
  /\ result handle (FindByID "2") drifted = (Some asset2, None)
  /\ List.filter is_enricher (calls tr) = [EnricherEnrich asset2]
  /\ exists score,
       port_calls tr =
       [CacheGetBatch ["2"]; RepoFindByID "2"; EnricherEnrich asset2;
        TimeNowUnix; CacheAddToSet "2" score; CacheSet "2" (blob_of asset2)].
Proof.
  assert (H1 : cache_miss "2" (answer handle (CacheGetBatch ["2"]) drifted))
    by (vm_compute; reflexivity).
  assert (H2 : batch_within ["2"]
                 (answer handle (CacheGetBatch ["2"]) drifted)).
  { change (forall k, is_Some ((∅ : gmap string (list byte)) !! k)
                      -> k ∈ ["2"]).
    intros k [x Hx]. by rewrite lookup_empty in Hx. }
  split; [exact H1|]. split; [exact H2|].
  destruct (FindByID_cache_miss handle "2" drifted H1 H2)
    as (Hstore & _ & Hok).
  split; [exact Hstore|].
  exact (Hok asset2 (blob_of asset2) eq_refl eq_refl).
Defined.

(** The inner loop over the page ["2"; "1"] when the batch result lacks
    "2". *)
Example chunkBody_read_repair_example :
  let dataMap := mget (blobs drifted) ["2"; "1"] in
  let w1 := after handle (Log LWarn
    "cache inconsistency detected (missing data), repairing from db")
    drifted in
  dataMap !! "2" = None
  /\ answer handle (RepoFindByID "2") w1 = inr asset2
  /\ Marshal asset2 = inr (blob_of asset2)
  /\ exists pre continue w' score,
       trace handle (chunkBody dataMap ["2"; "1"] (Ret ())) drifted
       = pre ++ ev (Yield (Some asset2, None)) continue
             :: (if continue : bool
                 then trace handle (chunkBody dataMap ["1"] (Ret ())) w'
                 else [])
       /\ port_calls pre =
          [RepoFindByID "2"; EnricherEnrich asset2; TimeNowUnix;
           CacheAddToSet (GetID asset2) score;
           CacheSet (GetID asset2) (blob_of asset2)]
       /\ count is_store pre = 1%nat /\ count is_enricher pre = 1%nat.
Proof.
  assert (H1 : mget (blobs drifted) ["2"; "1"] !! "2" = None)
    by (vm_compute; reflexivity).
  split; [exact H1|]. split; [reflexivity|]. split; [reflexivity|].
  exact (chunkBody_read_repair handle _ "2" ["1"] (Ret ()) drifted
           asset2 (blob_of asset2) H1 eq_refl eq_refl).
Qed.

(** A page of two chunks whose second batch read fails: the first hundred
    ids are yielded, then the error, then nothing. *)
Lemma batch_error_is_fatal_witness :
  let w := with_faults warm second_chunk_fails in
  let tr := trace handle (chunkedCacheIterator long_ids) w in
  let yielded := Errorf "failed to fetch cache batch: " cache_down "" in
  split_at_batch_error tr = Some (take 101 tr, (["2"], cache_down), drop 102 tr)
  /\ (exists continue,
        drop 102 tr = [ev (Yield (None, Some yielded)) continue])
  /\ Unwrap yielded = Some cache_down /\ Is yielded cache_down = true
  /\ exists i k,
       (i < length long_ids)%nat /\ i = (k * batchSize)%nat
       /\ ["2"] = slice long_ids i (Nat.min (i + batchSize) (length long_ids))
       /\ length (yields (take 101
            (trace handle (chunkedCacheIterator long_ids) w))) = i
       /\ Forall is_asset_item (yields (take 101
            (trace handle (chunkedCacheIterator long_ids) w))).
Proof.
  assert (H1 :
    split_at_batch_error
      (trace handle (chunkedCacheIterator long_ids)
         (with_faults warm second_chunk_fails))
    = Some (take 101 (trace handle (chunkedCacheIterator long_ids)
                        (with_faults warm second_chunk_fails)),
            (["2"], cache_down),
            drop 102 (trace handle (chunkedCacheIterator long_ids)
                        (with_faults warm second_chunk_fails))))
    by (vm_compute; reflexivity).
  split; [exact H1|].
  exact (batch_error_is_fatal handle long_ids _ _ _ _ _ H1).
Defined.

(** [FindAll(10, 0)] over an empty cache: the Store-backed path. *)
Lemma store_backed_FindAll_witness :
  let w1 := after handle (Log LInfo "streaming favorites from db")
              (after handle (CacheGetIdsFromSet 0 9) store_only) in
  (forall id ids, answer handle (CacheGetIdsFromSet 0 9) store_only
                  <> inr (id :: ids))
  /\ answer handle (RepoFindAll 10 0) w1 = inr [inr asset2; inr asset1]
  /\ result handle (FindAll 10 0) store_only
     = inr (cacheIterator [inr asset2; inr asset1])
  /\ exists pre continue wi' s1 s2,
       trace handle (cacheIterator [inr asset2; inr asset1]) w1
       = pre ++ ev (Yield (Some asset2, None)) continue
             :: (if continue : bool
                 then trace handle (cacheIterator [inr asset1]) wi' else [])
       /\ port_calls pre =
          [EnricherEnrich asset2; TimeNowUnix;
           CacheAddToSet (GetID asset2) s1;
           CacheSet (GetID asset2) (blob_of asset2);
           EnricherEnrich asset2; TimeNowUnix;
           CacheAddToSet (GetID asset2) s2;
           CacheSet (GetID asset2) (blob_of asset2)].
Proof.
  assert (H1 : forall id ids,
            answer handle (CacheGetIdsFromSet 0 9) store_only
            <> inr (id :: ids)) by (intros id ids; discriminate).
  split; [exact H1|]. split; [reflexivity|].
  destruct (store_backed_FindAll_writes_through_twice handle 10 0
              store_only [inr asset2; inr asset1] H1 eq_refl)
    as [Hres Hbody].
  split; [exact Hres|].
  exact (Hbody asset2 (blob_of asset2) [inr asset1] _ eq_refl).
Defined.

(** The three outcomes of [Save]: an Insight without content; a Store
    that refuses the save; an enricher and a cache that both fail. *)
Lemma Save_outcomes_witness :
  Validate no_content
    = Some (Errorf "" ErrValidation ": content is required for Insight")
  /\ (result handle (Save no_content) warm
      = Some (Errorf "validation failed: "
                (Errorf "" ErrValidation ": content is required for Insight")
                "")
      /\ calls (trace handle (Save no_content) warm)
         = [Log LInfo "saving asset"])
  /\ (result handle (Save asset1) (with_faults warm save_fails)
      = Some (Errorf "failed to save to db: " db_down "")
      /\ calls (trace handle (Save asset1) (with_faults warm save_fails))
         = [Log LInfo "saving asset"; RepoSave asset1])
  /\ result handle (Save asset1) (with_faults warm write_through_fails)
     = None.
Proof.
  split; [reflexivity|].
  destruct (Save_outcomes handle no_content warm) as (Hinvalid & _ & _).
  destruct (Save_outcomes handle asset1 (with_faults warm save_fails))
    as (_ & Hstore & _).
  destruct (Save_outcomes handle asset1
              (with_faults warm write_through_fails)) as (_ & _ & Hok).
  split; [|split].
  - destruct (Hinvalid _ eq_refl) as (Hr & Hc & _). by split.
  - destruct (Hstore db_down eq_refl eq_refl) as (Hr & Hc & _). by split.
  - exact (Hok eq_refl eq_refl).
Defined.

(** Somebody else asks to delete and to re-describe asset "1". *)
Lemma not_owner_forbidden_witness :
  let forbidden := New "forbidden: you do not own this asset" in
  answer handle (RepoFindByID "1") warm = inr asset1
  /\ GetUserID asset1 <> "u2"
  /\ (result handle (Delete "1" "u2") warm = Some forbidden
      /\ calls (trace handle (Delete "1" "u2") warm) = [RepoFindByID "1"])
  /\ (result handle (UpdateDescription "1" "new desc" "u2") warm
        = (None, Some forbidden)
      /\ calls (trace handle (UpdateDescription "1" "new desc" "u2") warm)
         = [RepoFindByID "1"]).
Proof.
  assert (H1 : GetUserID asset1 <> "u2") by discriminate.
  split; [reflexivity|]. split; [exact H1|].
  destruct (not_owner_forbidden handle "1" "new desc" "u2" warm)
    as [_ Hforbidden].
  destruct (Hforbidden asset1 eq_refl H1)
    as [(Hd & Hdc & _) (Hu & Huc & _)].
  by split.
Defined.

(** The cases of [TestAudience_Validate], and a Chart-typed Insight. *)
Lemma Validate_spec_witness :
  Validate (audience "UK" 18 25) = None
  /\ Validate (audience "" 18 0)
     = Some (Errorf "" ErrValidation
               ": country rule is required for Audience")
  /\ Validate (audience "UK" (-1) 0)
     = Some (Errorf "" ErrValidation ": age limits cannot be negative")
  /\ Validate (audience "UK" 30 20)
     = Some (Errorf "" ErrValidation
               ": age_min cannot be greater than age_max")
  /\ Validate (AInsight (mkInsight
                 (mkBaseAsset "1" "" AssetTypeChart "Test" "") ""))
     = Some (Errorf "" ErrValidation
               ": invalid asset type: expected insight, got chart").
Proof.
  split_and!.
  - apply (proj1 (proj2 (Validate_spec (audience "UK" 18 25)))).
    split; [by split_and!|]. cbn. split_and!; [done|lia..].
  - exact (proj1 (Validate_spec (audience "" 18 0))).
  - exact (proj1 (Validate_spec (audience "UK" (-1) 0))).
  - exact (proj1 (Validate_spec (audience "UK" 30 20))).
  - exact (proj1 (Validate_spec _)).
Defined.

(** *** The scenarios of the unit tests *)

(** [Save] of a valid Insight: one Store save, one [AddToSet], one
    [Set]. *)
Example scenario_Save :
  let tr := trace handle (Save asset1) store_only in
  result handle (Save asset1) store_only = None
  /\ port_calls tr
     = [RepoSave asset1; EnricherEnrich asset1; TimeNowUnix;
        CacheAddToSet "1" 1000; CacheSet "1" (blob_of asset1)].
Proof. by vm_compute. Qed.

(** [FindByID("2")] over an empty batch result: the Store's asset, one
    [Enrich], one write-through. *)
Example scenario_FindByID_miss :
  let tr := trace handle (FindByID "2") one_cached in
  result handle (FindByID "2") one_cached = (Some asset2, None)
  /\ port_calls tr
     = [CacheGetBatch ["2"]; RepoFindByID "2"; EnricherEnrich asset2;
        TimeNowUnix; CacheAddToSet "2" 1000; CacheSet "2" (blob_of asset2)]
  /\ fst <$> index (final handle (FindByID "2") one_cached) = ["2"; "1"].
Proof. by vm_compute. Qed.

(** [FindAll(10, 0)] when the index returns ["1"] and the batch holds
    its blob: exactly one item, no Store call. *)
Example scenario_FindAll_cache_hit :
  let tr := trace handle (FindAll_consume 10 0) one_cached in
  yields tr = [(Some asset1, None)]
  /\ count is_store tr = 0%nat
  /\ calls tr
     = [CacheGetIdsFromSet 0 9;
        Log LInfo "cache hit for favorites list (chunked)";
        CacheGetBatch ["1"]; Yield (Some asset1, None)].
Proof. by vm_compute. Qed.

(** [FindAll(10, 0)] when the index knows "2" and "1" but the blob of "2"
    is gone: "2" is repaired from the Store and yielded in its place,
    then "1" is yielded from the cache. *)
Example scenario_FindAll_read_repair :
  let tr := trace handle (FindAll_consume 10 0) drifted in
  yields tr = [(Some asset2, None); (Some asset1, None)]
  /\ List.filter is_store (calls tr) = [RepoFindByID "2"]
  /\ List.filter is_enricher (calls tr) = [EnricherEnrich asset2]
  /\ blobs (final handle (FindAll_consume 10 0) drifted) !! "2"
     = Some (blob_of asset2).
Proof. by vm_compute. Qed.

(** A consumer that stops after the first item: nothing is called after
    its [yield] returned false. *)
Example scenario_FindAll_early_stop :
  let w := with_stop_after store_only (Some 1%nat) in
  let tr := trace handle (FindAll_consume 10 0) w in
  yields tr = [(Some asset2, None)]
  /\ last (calls tr) = Some (Yield (Some asset2, None)).
Proof. by vm_compute. Qed.


(** *** The page size is respected away from the [-1] sentinel *)

Lemma wrap_int_small (z : Z) : - 2 ^ 63 <= z < 2 ^ 63 -> wrap_int z = z.
Proof. intros Hz. unfold wrap_int. rewrite Z.mod_small; lia. Qed.

Lemma zrevrange_length (ids : list string) (start stop : Z) :
  0 <= start -> 0 <= stop ->
  (length (zrevrange ids start stop) <= Z.to_nat (stop - start + 1))%nat.
Proof.
  intros Hstart Hstop. unfold zrevrange.
  destruct (decide (start < 0)); [lia|].
  destruct (decide (stop < 0)); [lia|].
  case_decide; [cbn; lia|]. rewrite length_take.
  etrans; [apply Nat.le_min_l|]. apply Z2Nat.inj_le; lia.
Qed.

Lemma page_length {A : Type} (l : list A) (limit offset : Z) :
  (length (page l limit offset) <= Z.to_nat limit)%nat.
Proof. unfold page. rewrite length_take. apply Nat.le_min_l. Qed.

(** With this cache and this Store, [FindAll(limit, offset)] yields at
    most [limit] items for all non-negative arguments except
    [limit = offset = 0]. *)
Lemma FindAll_yields_at_most_limit (w : World) (limit offset : Z) :
  0 <= limit -> 0 <= offset -> 0 < limit + offset ->
  offset + limit < 2 ^ 63 ->
  (length (yields (trace handle (FindAll_consume limit offset) w))
   <= Z.to_nat limit)%nat.
Proof.
  intros Hlimit Hoffset Hpos Hbound.
  apply FindAll_consume_yields_le.
  - rewrite (wrap_int_small (offset + limit)) by lia.
    rewrite wrap_int_small by lia.
    intros ids. unfold answer, handle, fail_or.
    destruct (faults w _); [done|]. intros [= <-].
    etrans; [apply zrevrange_length; lia|].
    apply Z2Nat.inj_le; lia.
  - intros w' items. unfold answer, handle, fail_or.
    destruct (faults w' _); [done|]. intros [= <-].
    rewrite length_fmap. apply page_length.
Qed.

End Concrete.

(* ===================================================================== *)
(** * Further properties of the service *)
(* ===================================================================== *)

Section MoreOperations.
Context `{JSON} {W : Type} (handle : forall c : Call, W -> Resp c * W).

(** X1. When the caller owns the asset and the Store update succeeds,
    [UpdateDescription] returns the Store's updated asset whether or not
    the cache removal fails; it calls the Store read, the Store update and
    the cache removal, in that order, and logs exactly when the removal
    failed. *)
Theorem UpdateDescription_success (id description userID : string) (w : W)
    (asset updated : Asset) :
  let w1 := after handle (RepoFindByID id) w in
  let w2 := after handle (RepoUpdateDescription id description) w1 in
  let tr := trace handle (UpdateDescription id description userID) w in
  answer handle (RepoFindByID id) w = inr asset ->
  GetUserID asset = userID ->
  answer handle (RepoUpdateDescription id description) w1 = inr updated ->
  result handle (UpdateDescription id description userID) w
    = (Some updated, None)
  /\ port_calls tr
     = [RepoFindByID id; RepoUpdateDescription id description;
        CacheRemove id]
  /\ count is_log tr
     = (if answer handle (CacheRemove id) w2 is Some _ then 1 else 0)%nat.
Proof.
  cbn zeta. intros Hasset Howner Hupd. unfold UpdateDescription.
  run_simpl. rewrite Hasset. case_decide; [done|]. run_simpl.
  rewrite Hupd. run_simpl.
  by destruct (answer handle (CacheRemove id) _); run_simpl.
Qed.

(** X2. A Store error aborts [Delete] and [UpdateDescription] and comes
    back unchanged.  When the ownership read fails it is the only call.
    When the Store delete or update fails after a passed ownership check,
    the cache is not called. *)
Theorem write_path_store_errors (id description userID : string) (w : W) :
  let w1 := after handle (RepoFindByID id) w in
  let trD := trace handle (Delete id userID) w in
  let trU := trace handle (UpdateDescription id description userID) w in
  (forall err,
     answer handle (RepoFindByID id) w = inl err ->
     result handle (Delete id userID) w = Some err
     /\ calls trD = [RepoFindByID id]
     /\ result handle (UpdateDescription id description userID) w
        = (None, Some err)
     /\ calls trU = [RepoFindByID id])
  /\ (forall asset err,
        answer handle (RepoFindByID id) w = inr asset ->
        GetUserID asset = userID ->
        answer handle (RepoDelete id) w1 = Some err ->
        result handle (Delete id userID) w = Some err
        /\ calls trD = [RepoFindByID id; RepoDelete id])
  /\ (forall asset err,
        answer handle (RepoFindByID id) w = inr asset ->
        GetUserID asset = userID ->
        answer handle (RepoUpdateDescription id description) w1 = inl err ->
        result handle (UpdateDescription id description userID) w
          = (None, Some err)
        /\ calls trU = [RepoFindByID id; RepoUpdateDescription id description]).
Proof.
  cbn zeta. unfold Delete, UpdateDescription. split_and!.
  - intros err Herr. run_simpl. rewrite Herr. by run_simpl.
  - intros asset err Hasset Howner Herr. run_simpl. rewrite Hasset.
    case_decide; [done|]. run_simpl. rewrite Herr. by run_simpl.
  - intros asset err Hasset Howner Herr. run_simpl. rewrite Hasset.
    case_decide; [done|]. run_simpl. rewrite Herr. by run_simpl.
Qed.

(** X3. [FindAll] itself reads the index and, only when the index read
    failed or was empty, queries the Store: on an index hit it returns
    the chunked iterator without any Store call; an index error is
    swallowed and the Store is queried; a Store error comes back
    unchanged with no sequence. *)
Theorem FindAll_paths (limit offset : Z) (w : W) :
  let range := CacheGetIdsFromSet offset
                 (wrap_int (wrap_int (offset + limit) - 1)) in
  let w1 := after handle (Log LInfo "streaming favorites from db")
              (after handle range w) in
  let tr := trace handle (FindAll limit offset) w in
  (forall id ids,
     answer handle range w = inr (id :: ids) ->
     result handle (FindAll limit offset) w
       = inr (chunkedCacheIterator (id :: ids))
     /\ port_calls tr = [range])
  /\ (forall err,
        (forall id ids, answer handle range w <> inr (id :: ids)) ->
        answer handle (RepoFindAll limit offset) w1 = inl err ->
        result handle (FindAll limit offset) w = inl err
        /\ port_calls tr = [range; RepoFindAll limit offset])
  /\ (forall items,
        (forall id ids, answer handle range w <> inr (id :: ids)) ->
        answer handle (RepoFindAll limit offset) w1 = inr items ->
        result handle (FindAll limit offset) w = inr (cacheIterator items)
        /\ port_calls tr = [range; RepoFindAll limit offset]).
Proof.
  cbn zeta. unfold FindAll. split_and!.
  - intros id ids Hans. run_simpl. rewrite Hans. by run_simpl.
  - intros err Hidx Herr. run_simpl.
    destruct (answer handle (CacheGetIdsFromSet _ _) w) as [e|[|id ids]]
      eqn:Hans; try (by destruct (Hidx id ids));
      run_simpl; rewrite Herr; by run_simpl.
  - intros items Hidx Hitems. run_simpl.
    destruct (answer handle (CacheGetIdsFromSet _ _) w) as [e|[|id ids]]
      eqn:Hans; try (by destruct (Hidx id ids));
      run_simpl; rewrite Hitems; by run_simpl.
Qed.

(** X4. After validation and the Store save have passed, [Save] calls,
    in this order, the Store save, the Enricher, the clock, [AddToSet]
    and [Set] -- the Store is written before any cache call, the blob is
    the serialization of the very asset that was saved, a failed
    enrichment does not stop the caching and a failed [AddToSet] does not
    stop the [Set].  When the asset cannot be serialized no cache call is
    made.  In both cases [Save] returns nil. *)
Theorem Save_write_through (asset : Asset) (w : W) :
  let w0 := after handle (Log LInfo "saving asset") w in
  let tr := trace handle (Save asset) w in
  Validate asset = None ->
  answer handle (RepoSave asset) w0 = None ->
  result handle (Save asset) w = None
  /\ match Marshal asset with
     | inr data =>
         exists score,
         port_calls tr
         = [RepoSave asset; EnricherEnrich asset; TimeNowUnix;
            CacheAddToSet (GetID asset) score; CacheSet (GetID asset) data]
     | inl _ => port_calls tr = [RepoSave asset; EnricherEnrich asset]
     end.
Proof.
  cbn zeta. intros Hvalid Hsave. unfold Save. rewrite Hvalid.
  pose proof (enrichAndSaveCache_trace handle asset) as Htr.
  pose proof (enrichAndSaveCache_result handle asset) as Hres.
  cbn zeta in Htr.
  remember (enrichAndSaveCache asset) as enrich eqn:Hopaque. clear Hopaque.
  run_simpl. rewrite Hsave. run_simpl. rewrite Hres. run_simpl.
  split; [done|]. rewrite app_nil_r.
  destruct (Htr (after handle (RepoSave asset)
                   (after handle (Log LInfo "saving asset") w)))
    as (_ & _ & _ & _ & Hp).
  destruct (Marshal asset) as [e|data].
  - cbn. f_equal. exact Hp.
  - destruct Hp as [score Hp]. exists score. cbn. f_equal. exact Hp.
Qed.

(** X5. [unmarshal] returns either an asset or an error, never both and
    never neither.  A returned asset is of the variant that the
    discriminator of the decoded base names; a discriminator other than
    the three known ones gives the error ["unknown type: "] followed by
    it; and a failure to decode the base is returned as it is. *)
Theorem unmarshal_dispatch (data : list byte) :
  ((exists a, unmarshal data = (Some a, None))
   \/ (exists e, unmarshal data = (None, Some e)))
  /\ (forall a e, unmarshal data = (Some a, e) ->
        exists b, UnmarshalBase data = inr b /\ Type_ b = variant_type a)
  /\ (forall b, UnmarshalBase data = inr b ->
        Type_ b <> AssetTypeChart -> Type_ b <> AssetTypeInsight ->
        Type_ b <> AssetTypeAudience ->
        unmarshal data = (None, Some (New ("unknown type: " +:+ Type_ b))))
  /\ (forall err, UnmarshalBase data = inl err ->
        unmarshal data = (None, Some err)).
Proof.
  split; [apply unmarshal_cases|]. unfold unmarshal. split_and!.
  - intros a e. destruct (UnmarshalBase data) as [err|b]; [done|].
    repeat case_decide;
      repeat match goal with
             | |- context [match ?x with inl _ => _ | inr _ => _ end] =>
                 destruct x
             end; intros [= <- <-] || intros [=]; by exists b.
  - intros b -> H1 H2 H3. by repeat case_decide.
  - by intros err ->.
Qed.

End MoreOperations.

(** ** The shape of streaming traces *)

Lemma batch_reads_app (t1 t2 : list Event) :
  batch_reads (t1 ++ t2) = batch_reads t1 ++ batch_reads t2.
Proof.
  induction t1 as [|[c r] t1 IH]; [done|].
  destruct c; cbn; by rewrite ?IH.
Qed.

Lemma quiet_nil : quiet [].
Proof. split; [done|constructor]. Qed.

Lemma quiet_app (t1 t2 : list Event) :
  quiet t1 -> quiet t2 -> quiet (t1 ++ t2).
Proof.
  intros [Hb1 Hs1] [Hb2 Hs2]. split.
  - by rewrite batch_reads_app, Hb1, Hb2.
  - by apply Forall_app.
Qed.

(** A trace whose calls are neither batch reads nor yields is quiet. *)
Lemma quiet_of_calls (tr : list Event) :
  Forall (fun c => is_write_through c = true) (calls tr) -> quiet tr.
Proof.
  induction tr as [|[c r] tr IH]; [intros _; apply quiet_nil|].
  cbn. intros [Hc Htr]%Forall_cons. destruct (IH Htr) as [Hb Hs].
  split.
  - destruct c; try done; cbn; exact Hb.
  - constructor; [|done]. by destruct c.
Qed.

Lemma quiet_yields (tr : list Event) :
  Forall (fun c => is_write_through c = true) (calls tr) -> yields tr = [].
Proof.
  induction tr as [|[c r] tr IH]; [done|].
  cbn. intros [Hc Htr]%Forall_cons. destruct c; try done; by apply IH.
Qed.

Lemma stops_only_at_end_single (e : Event) : stops_only_at_end [e].
Proof.
  intros pre e' post Heq _. destruct pre as [|x pre]; cbn in Heq.
  - by inversion Heq.
  - inversion Heq as [[Hx Hnil]]. by destruct pre.
Qed.

Lemma stops_only_at_end_app (pre tr : list Event) :
  Forall (fun e => stops e = false) pre ->
  stops_only_at_end tr -> stops_only_at_end (pre ++ tr).
Proof.
  induction pre as [|x pre IH]; [done|].
  intros [Hx Hpre]%Forall_cons Htr p e post Heq Hstop.
  destruct p as [|y p]; cbn in Heq; inversion Heq; subst.
  - congruence.
  - by eapply (IH Hpre Htr).
Qed.

Lemma stops_only_at_end_nil : stops_only_at_end [].
Proof. intros pre e post Heq. by destruct pre. Qed.

Section StreamShape.
Context `{JSON} {W : Type} (handle : forall c : Call, W -> Resp c * W).

Lemma updateCache_calls (asset : Asset) (w : W) :
  Forall (fun c => is_write_through c = true)
    (calls (trace handle (updateCache asset) w)).
Proof.
  unfold updateCache. destruct (Marshal asset) as [err|data]; run_cases;
    by repeat constructor.
Qed.

Lemma enrichAndSaveCache_calls (asset : Asset) (w : W) :
  Forall (fun c => is_write_through c = true)
    (calls (trace handle (enrichAndSaveCache asset) w)).
Proof.
  pose proof (updateCache_calls asset) as Hupd.
  unfold enrichAndSaveCache.
  remember (updateCache asset) as upd eqn:Hopaque. clear Hopaque.
  run_simpl. rewrite app_nil_r. unfold calls. rewrite fmap_cons, fmap_app.
  constructor; [done|]. apply Forall_app. split; [|apply Hupd].
  case_answer; run_simpl; by repeat constructor.
Qed.

Lemma enrichAndSaveCache_quiet (asset : Asset) (w : W) :
  quiet (trace handle (enrichAndSaveCache asset) w)
  /\ yields (trace handle (enrichAndSaveCache asset) w) = [].
Proof.
  pose proof (enrichAndSaveCache_calls asset w) as Hcalls.
  split; [by apply quiet_of_calls|by apply quiet_yields].
Qed.

(** X6. [enrichAndSaveCache] calls nothing but the enricher, the clock,
    [AddToSet], [Set] and the logger -- never the Store, never a cache
    read or removal, never the consumer -- and returns the asset it was
    given, with a nil error. *)
Theorem enrichAndSaveCache_frame (asset : Asset) (w : W) :
  let tr := trace handle (enrichAndSaveCache asset) w in
  result handle (enrichAndSaveCache asset) w = (Some asset, None)
  /\ Forall (fun c => is_write_through c = true) (calls tr)
  /\ count is_store tr = 0%nat /\ count is_cache_read tr = 0%nat
  /\ count is_yield tr = 0%nat.
Proof.
  cbn zeta. split; [apply enrichAndSaveCache_result|].
  pose proof (enrichAndSaveCache_calls asset w) as Hcalls.
  split; [exact Hcalls|].
  unfold count. induction Hcalls as [|c cs Hc _ IH]; [done|].
  cbn. destruct c; try done; cbn; exact IH.
Qed.

End StreamShape.

Section ChunkedRuns.
Context `{JSON} {W : Type} (handle : forall c : Call, W -> Resp c * W).

Lemma loop_run_done (next : Prog unit) (w : W) :
  loop_run handle 0 next (trace handle next w).
Proof. right. exists [], w. split_and!; [done|apply quiet_nil|done]. Qed.

Lemma loop_run_silent (n : nat) (next : Prog unit) (pre tr : list Event) :
  quiet pre -> yields pre = [] ->
  loop_run handle n next tr -> loop_run handle n next (pre ++ tr).
Proof.
  intros Hq Hy [(p & e & -> & Hp & He & Hb & Hn)
               |(tr0 & w' & -> & Hq0 & Hn)].
  - left. exists (pre ++ p), e. rewrite app_assoc, yields_app, Hy.
    split_and!; [done|by apply quiet_app|done..].
  - right. exists (pre ++ tr0), w'. rewrite app_assoc, yields_app, Hy.
    split_and!; [done|by apply quiet_app|done].
Qed.

Lemma loop_run_yield (n : nat) (next : Prog unit) (item : AssetResult)
    (tr : list Event) :
  item.2 = None ->
  loop_run handle n next tr ->
  loop_run handle (S n) next (ev (Yield item) true :: tr).
Proof.
  intros Hitem.
  assert (Hq : quiet [ev (Yield item) true]).
  { split; [done|]. constructor; [|constructor]. cbn.
    rewrite Hitem. by rewrite bool_decide_false by (intros ?; done). }
  intros [(p & e & -> & Hp & He & Hb & Hn)|(tr0 & w' & -> & Hq0 & Hn)].
  - left. exists (ev (Yield item) true :: p), e.
    split_and!; [done|by apply (quiet_app [_])|done|done|cbn; lia].
  - right. exists (ev (Yield item) true :: tr0), w'.
    split_and!; [done|by apply (quiet_app [_])|cbn; lia].
Qed.

Lemma loop_run_stop (n : nat) (next : Prog unit) (item : AssetResult)
    (continue : bool) :
  stops (ev (Yield item) continue) = true ->
  loop_run handle (S n) next [ev (Yield item) continue].
Proof.
  intros Hstop. left. exists [], (ev (Yield item) continue).
  split_and!; [done|apply quiet_nil|done|done|cbn; lia].
Qed.

Lemma stops_error (a : option Asset) (err : error) (continue : bool) :
  stops (ev (Yield (a, Some err)) continue) = true.
Proof. by destruct continue. Qed.

(** The inner loop of the chunked iterator. *)
Lemma chunkBody_loop_run (dataMap : gmap string (list byte))
    (chunkIds : list string) (next : Prog unit) (w : W) :
  loop_run handle (length chunkIds) next
    (trace handle (chunkBody dataMap chunkIds next) w).
Proof.
  revert w. induction chunkIds as [|id rest IH]; intros w.
  - apply loop_run_done.
  - cbn [chunkBody length].
    pose proof (enrichAndSaveCache_quiet handle) as Hquiet.
    pose proof (enrichAndSaveCache_result handle) as Hres.
    remember enrichAndSaveCache as enrich eqn:Hopaque. clear Hopaque.
    destruct (dataMap !! id) as [data|].
    + destruct (unmarshal_cases data) as [[a ->]|[e ->]]; run_simpl.
      * case_answer; run_simpl.
        -- apply loop_run_yield; [done|apply IH].
        -- by apply loop_run_stop.
      * apply loop_run_stop, stops_error.
    + run_simpl.
      apply (loop_run_silent _ _ [_]); [by split; repeat constructor|done|].
      apply (loop_run_silent _ _ [_]); [by split; repeat constructor|done|].
      case_answer; run_simpl.
      * apply loop_run_stop, stops_error.
      * rewrite Hres. cbn [fst].
        destruct (Hquiet a (after handle (RepoFindByID id)
                    (after handle (Log LWarn
          "cache inconsistency detected (missing data), repairing from db")
                    w))) as (Hq & Hy).
        apply loop_run_silent; [done..|].
        case_answer; run_simpl.
        -- apply loop_run_yield; [done|apply IH].
        -- by apply loop_run_stop.
Qed.

(** The slices of the outer loop tile the id list. *)
Lemma slice_tiles {A : Type} (l : list A) (i : nat) :
  slice l i (Nat.min (i + batchSize) (length l)) ++ drop (i + batchSize) l
  = drop i l.
Proof.
  unfold slice.
  replace (drop (i + batchSize) l) with (drop batchSize (drop i l))
    by (rewrite drop_drop; f_equal; lia).
  destruct (decide (i + batchSize <= length l)%nat).
  - replace (Nat.min (i + batchSize) (length l) - i)%nat with batchSize
      by lia.
    apply take_drop.
  - rewrite take_ge by (rewrite length_drop; lia).
    rewrite (drop_ge (drop i l)) by (rewrite length_drop; lia).
    apply app_nil_r.
Qed.

Lemma chunkLoop_shape (fuel : nat) (ids : list string) (i : nat) (w : W) :
  let tr := trace handle (chunkLoop fuel ids i) w in
  Forall (fun c => (0 < length c <= batchSize)%nat) (batch_reads tr)
  /\ concat (batch_reads tr) `prefix_of` drop i ids
  /\ stops_only_at_end tr.
Proof.
  cbn zeta. revert i w. induction fuel as [|fuel IH]; intros i w;
    cbn [chunkLoop]; case_decide;
    try (split_and!; [constructor|apply prefix_nil
                     |apply stops_only_at_end_nil]).
  run_simpl.
  set (chunkIds := slice ids i (Nat.min (i + batchSize) (length ids))).
  assert (0 < length chunkIds <= batchSize)%nat as Hlen.
  { subst chunkIds. rewrite slice_length. unfold batchSize. lia. }
  assert (chunkIds `prefix_of` drop i ids) as Hpre.
  { exists (drop (i + batchSize) ids). subst chunkIds.
    symmetry. apply slice_tiles. }
  cbn [batch_reads ev concat].
  destruct (answer handle (CacheGetBatch chunkIds) w) as [e|dataMap].
  - run_simpl. cbn [batch_reads ev concat]. rewrite app_nil_r.
    split_and!; [constructor; [exact Hlen|constructor]|done|].
    apply (stops_only_at_end_app [_]); [by repeat constructor|].
    apply stops_only_at_end_single.
  - destruct (chunkBody_loop_run dataMap chunkIds
                (chunkLoop fuel ids (i + batchSize))
                (after handle (CacheGetBatch chunkIds) w))
      as [(p & e & -> & [Hbp Hsp] & He & Hb & Hn)
         |(tr0 & w' & -> & [Hb0 Hs0] & Hn)].
    + rewrite batch_reads_app, Hbp, Hb. cbn [concat app].
      rewrite app_nil_r.
      split_and!; [constructor; [exact Hlen|constructor]|done|].
      apply (stops_only_at_end_app (_ :: p)); [by constructor|].
      apply stops_only_at_end_single.
    + destruct (IH (i + batchSize)%nat w') as (Hall & Hcat & Hstop).
      rewrite batch_reads_app, Hb0. cbn [app].
      split_and!.
      * by constructor.
      * rewrite <- (slice_tiles ids i). fold chunkIds.
        by apply prefix_app.
      * apply (stops_only_at_end_app (_ :: tr0)); [by constructor|done].
Qed.

(** X7. Every batch read of the chunked cache iterator asks for at least
    one and at most [batchSize] = 100 ids, and the ids of the successive
    batch reads, put end to end, are an initial part of the id list: ids
    are requested in index order, none twice, none skipped. *)
Theorem chunked_batches (ids : list string) (w : W) :
  let tr := trace handle (chunkedCacheIterator ids) w in
  Forall (fun c => (0 < length c <= batchSize)%nat) (batch_reads tr)
  /\ concat (batch_reads tr) `prefix_of` ids.
Proof.
  destruct (chunkLoop_shape (length ids) ids 0 w) as (Hall & Hcat & _).
  by split.
Qed.

Lemma cacheIterator_stops (items : list RepoItem) (w : W) :
  stops_only_at_end (trace handle (cacheIterator items) w).
Proof.
  unfold cacheIterator. revert w.
  induction items as [|it items IH]; intros w;
    [apply stops_only_at_end_nil|].
  cbn [range_items]. unfold cacheIteratorBody at 1.
  pose proof (enrichAndSaveCache_quiet handle) as Hquiet.
  pose proof (enrichAndSaveCache_result handle) as Hres.
  remember enrichAndSaveCache as enrich eqn:Hopaque.
  destruct it as [e|a]; run_simpl; [apply stops_only_at_end_single|].
  rewrite !Hres. run_simpl. rewrite <- !app_assoc.
  set (w2 := final handle (enrich a) w).
  set (w3 := final handle (enrich a) w2).
  destruct (Hquiet a w) as ([_ Hs1] & _).
  destruct (Hquiet a w2) as ([_ Hs2] & _).
  apply stops_only_at_end_app; [done|].
  apply stops_only_at_end_app; [done|]. subst enrich. cbn [app].
  destruct (answer handle (Yield (Some a, None)) w3) eqn:Hans.
  - apply (stops_only_at_end_app [_]); [by repeat constructor|].
    apply IH.
  - run_simpl. apply stops_only_at_end_single.
Qed.

(** X8. In a run of either iterator of [FindAll] -- the chunked cache
    iterator or the Store-backed one -- a yield that the consumer answers
    with false, and a yield that carries an error, is the last event:
    afterwards the iterator calls neither the Store, nor the cache, nor
    the enricher, nor the consumer. *)
Theorem iterators_stop (ids : list string) (items : list RepoItem) (w : W) :
  (forall pre e post,
     trace handle (chunkedCacheIterator ids) w = pre ++ e :: post ->
     stops e = true -> post = [])
  /\ (forall pre e post,
        trace handle (cacheIterator items) w = pre ++ e :: post ->
        stops e = true -> post = []).
Proof.
  split.
  - by destruct (chunkLoop_shape (length ids) ids 0 w) as (_ & _ & Hstop).
  - apply cacheIterator_stops.
Qed.

End ChunkedRuns.

(** ** Order and completeness of the streams *)

Lemma yields_of_calls (tr : list Event) :
  yields tr
  = omap (fun c => match c with Yield item => Some item | _ => None end)
      (calls tr).
Proof.
  induction tr as [|[c r] tr IH]; [done|].
  destruct c; cbn; by rewrite ?IH.
Qed.

Lemma batch_reads_of_calls (tr : list Event) :
  batch_reads tr
  = omap (fun c => match c with CacheGetBatch ids => Some ids | _ => None end)
      (calls tr).
Proof.
  induction tr as [|[c r] tr IH]; [done|].
  destruct c; cbn; by rewrite ?IH.
Qed.

Section StreamOrder.
Context `{JSON} {W : Type} (handle : forall c : Call, W -> Resp c * W).

(** A property of the environment state that every call preserves holds
    after any program. *)
Lemma final_preserves {A : Type} (I : W -> Prop) (p : Prog A) (w : W) :
  (forall c w', I w' -> I (after handle c w')) ->
  I w -> I (final handle p w).
Proof.
  intros Hstep. revert w. induction p as [a|c k IH]; intros w Hw; [done|].
  rewrite final_Do. by apply IH, Hstep.
Qed.

(** X10. When the consumer keeps pulling, the Store-backed iterator
    yields the Store's rows in the Store's order: each asset as it is,
    up to and including the first error row, and nothing after it. *)
Theorem cacheIterator_order (I : W -> Prop) (items : list RepoItem)
    (w : W) :
  (forall c w', I w' -> I (after handle c w')) ->
  (forall item w', I w' -> answer handle (Yield item) w' = true) ->
  I w ->
  yields (trace handle (cacheIterator items) w) = until_error items.
Proof.
  intros Hstep Hpull. unfold cacheIterator. revert w.
  induction items as [|it items IH]; intros w Hw; [done|].
  cbn [range_items until_error]. unfold cacheIteratorBody at 1.
  pose proof (enrichAndSaveCache_quiet handle) as Hquiet.
  pose proof (enrichAndSaveCache_result handle) as Hres.
  assert (Hfin : forall a w', I w' ->
            I (final handle (enrichAndSaveCache a) w'))
    by (intros; by apply final_preserves).
  remember enrichAndSaveCache as enrich eqn:Hopaque. clear Hopaque.
  destruct it as [e|a]; run_simpl; [done|].
  rewrite !Hres. run_simpl. rewrite !yields_app.
  set (w2 := final handle (enrich a) w).
  set (w3 := final handle (enrich a) w2).
  assert (I w3) as Hw3 by (apply Hfin, Hfin, Hw).
  destruct (Hquiet a w) as (_ & ->). destruct (Hquiet a w2) as (_ & ->).
  cbn [app yields ev]. rewrite (Hpull _ _ Hw3). cbn [app]. f_equal.
  apply IH, Hstep, Hw3.
Qed.

Lemma chunkBody_full_hit (I : W -> Prop) (cached : string -> Asset)
    (dataMap : gmap string (list byte)) (chunkIds : list string)
    (next : Prog unit) (w : W) :
  (forall item w',
     I w' -> I (after handle (Yield item) w')
             /\ answer handle (Yield item) w' = true) ->
  (forall id, id ∈ chunkIds ->
     exists d, dataMap !! id = Some d
               /\ unmarshal d = (Some (cached id), None)) ->
  I w ->
  exists tr0 w',
    trace handle (chunkBody dataMap chunkIds next) w
    = tr0 ++ trace handle next w'
    /\ I w'
    /\ calls tr0 = (fun id => Yield (Some (cached id), None)) <$> chunkIds.
Proof.
  intros Hpull. revert w.
  induction chunkIds as [|id rest IH]; intros w Hdata Hw.
  - by exists [], w.
  - destruct (Hdata id) as (d & Hd & Hdec); [by left|].
    cbn [chunkBody]. rewrite Hd, Hdec. run_simpl.
    destruct (Hpull (Some (cached id), None) w Hw) as [Hw' ->].
    destruct (IH (after handle (Yield (Some (cached id), None)) w))
      as (tr0 & w' & -> & Hw'' & Hcalls); [|done|].
    { intros id' Hid'. apply Hdata. by right. }
    exists (ev (Yield (Some (cached id), None)) true :: tr0), w'.
    split_and!; [done|done|]. cbn. f_equal. exact Hcalls.
Qed.

Lemma chunkLoop_full_hit (I : W -> Prop) (cached : string -> Asset)
    (fuel : nat) (ids : list string) (i : nat) (w : W) :
  (forall item w',
     I w' -> I (after handle (Yield item) w')
             /\ answer handle (Yield item) w' = true) ->
  (forall ids' w',
     I w' -> ids' ⊆ ids ->
     I (after handle (CacheGetBatch ids') w')
     /\ exists m,
          answer handle (CacheGetBatch ids') w' = inr m
          /\ forall id, id ∈ ids' ->
               exists d, m !! id = Some d
                         /\ unmarshal d = (Some (cached id), None)) ->
  (length ids - i <= fuel)%nat ->
  I w ->
  let tr := trace handle (chunkLoop fuel ids i) w in
  yields tr = (fun id => (Some (cached id), None)) <$> drop i ids
  /\ concat (batch_reads tr) = drop i ids
  /\ Forall (fun c => is_yield c || is_cache_read c = true) (calls tr).
Proof.
  intros Hpull Hbatch. cbn zeta. revert i w.
  induction fuel as [|fuel IH]; intros i w Hfuel Hw;
    cbn [chunkLoop]; case_decide; try lia;
    try (rewrite drop_ge by lia; by split_and!; [..|constructor]).
  run_simpl.
  set (chunkIds := slice ids i (Nat.min (i + batchSize) (length ids))).
  assert (chunkIds ⊆ ids) as Hsub.
  { subst chunkIds. unfold slice.
    etrans; [apply subseteq_take|apply subseteq_drop]. }
  destruct (Hbatch chunkIds w Hw Hsub) as (Hw1 & m & -> & Hm).
  destruct (chunkBody_full_hit I cached m chunkIds
              (chunkLoop fuel ids (i + batchSize))
              (after handle (CacheGetBatch chunkIds) w) Hpull Hm Hw1)
    as (tr0 & w' & -> & Hw' & Hcalls).
  destruct (IH (i + batchSize)%nat w') as (Hy & Hb & Hc);
    [unfold batchSize; lia|done|].
  cbn [yields ev batch_reads concat calls fmap list_fmap projT1].
  rewrite yields_app, batch_reads_app, concat_app, Hy, Hb.
  rewrite (yields_of_calls tr0), (batch_reads_of_calls tr0), Hcalls.
  pose proof (slice_tiles ids i) as Htile. fold chunkIds in Htile.
  rewrite <- Htile. clear Htile. split_and!.
  - rewrite (fmap_app _ chunkIds). f_equal.
    generalize chunkIds. clear. intros l.
    induction l as [|x l IHl]; [done|]. cbn. by rewrite IHl.
  - do 2 f_equal. generalize chunkIds. clear. intros l.
    induction l as [|x l IHl]; [done|]. cbn. by rewrite IHl.
  - rewrite app_comm_cons, calls_app. apply Forall_app. split; [|done].
    change (calls (ev (CacheGetBatch chunkIds) (inr m) :: tr0))
      with (CacheGetBatch chunkIds :: calls tr0).
    constructor; [done|]. rewrite Hcalls.
    generalize chunkIds. clear. intros l.
    induction l as [|x l IHl]; by constructor.
Qed.

(** X9. When every id of the page has a decodable blob in the cache and
    the consumer keeps pulling, the chunked cache iterator yields the
    decoded assets one per id, in the order of the ids; its batch reads
    put end to end are exactly the id list; and it calls neither the
    Store nor the enricher. *)
Theorem chunked_full_hit (I : W -> Prop) (cached : string -> Asset)
    (ids : list string) (w : W) :
  (forall item w',
     I w' -> I (after handle (Yield item) w')
             /\ answer handle (Yield item) w' = true) ->
  (forall ids' w',
     I w' -> ids' ⊆ ids ->
     I (after handle (CacheGetBatch ids') w')
     /\ exists m,
          answer handle (CacheGetBatch ids') w' = inr m
          /\ forall id, id ∈ ids' ->
               exists d, m !! id = Some d
                         /\ unmarshal d = (Some (cached id), None)) ->
  I w ->
  let tr := trace handle (chunkedCacheIterator ids) w in
  yields tr = (fun id => (Some (cached id), None)) <$> ids
  /\ concat (batch_reads tr) = ids
  /\ count is_store tr = 0%nat /\ count is_enricher tr = 0%nat.
Proof.
  intros Hpull Hbatch Hw. cbn zeta.
  destruct (chunkLoop_full_hit I cached (length ids) ids 0 w Hpull Hbatch)
    as (Hy & Hb & Hc); [lia|done|].
  split_and!; [done|done|..]; unfold chunkedCacheIterator, count;
    induction Hc as [|c cs Hc _ IH]; try done;
    destruct c; try done; cbn; exact IH.
Qed.

Lemma repoSeq_cons (it : RepoItem) (items : list RepoItem) (w : W) :
  trace handle (repoSeq (it :: items)) w
  = ev (Yield (item_of it)) (answer handle (Yield (item_of it)) w)
      :: (if answer handle (Yield (item_of it)) w
          then trace handle (repoSeq items)
                 (after handle (Yield (item_of it)) w)
          else []).
Proof.
  unfold repoSeq. cbn [range_items].
  destruct it as [e|a]; run_simpl; cbn [item_of];
    by case_answer; run_simpl.
Qed.

Lemma repoSeq_shape (items : list RepoItem) (w : W) :
  let tr := trace handle (repoSeq items) w in
  Forall (fun c => is_yield c = true) (calls tr)
  /\ yields tr `prefix_of` (item_of <$> items)
  /\ (yields tr = item_of <$> items
      \/ exists pre e, tr = pre ++ [e] /\ refused e = true).
Proof.
  cbn zeta. revert w. induction items as [|it items IH]; intros w.
  - split_and!; [constructor|done|by left].
  - rewrite repoSeq_cons. cbn [fmap list_fmap].
    destruct (answer handle (Yield (item_of it)) w) eqn:Hans.
    + destruct (IH (after handle (Yield (item_of it)) w))
        as (Hc & Hp & Hend).
      split_and!.
      * by constructor.
      * by apply prefix_cons.
      * destruct Hend as [Heq|(pre & e & -> & He)].
        -- left. cbn. by rewrite Heq.
        -- right. by exists (ev (Yield (item_of it)) true :: pre), e.
    + split_and!.
      * by repeat constructor.
      * apply prefix_cons, prefix_nil.
      * right. by exists [], (ev (Yield (item_of it)) false).
Qed.

(** X11. [FindAllByUser] calls the Store's [FindByUser] with its own
    arguments and nothing else -- no cache, no enricher.  A Store error
    comes back unchanged; otherwise the returned sequence only yields: it
    hands the Store's rows to the consumer as they are and in order, all
    of them unless the consumer answered a yield with false, which then
    is the last event. *)
Theorem FindAllByUser_passthrough (userID : string) (limit offset : Z)
    (w : W) :
  calls (trace handle (FindAllByUser userID limit offset) w)
    = [RepoFindByUser userID limit offset]
  /\ result handle (FindAllByUser userID limit offset) w
     = match answer handle (RepoFindByUser userID limit offset) w with
       | inl err => inl err
       | inr items => inr (repoSeq items)
       end
  /\ forall items w',
       let tr := trace handle (repoSeq items) w' in
       Forall (fun c => is_yield c = true) (calls tr)
       /\ yields tr `prefix_of` (item_of <$> items)
       /\ (yields tr = item_of <$> items
           \/ exists pre e, tr = pre ++ [e] /\ refused e = true).
Proof.
  split_and!.
  - unfold FindAllByUser. run_simpl.
    by destruct (answer handle (RepoFindByUser _ _ _) w); run_simpl.
  - unfold FindAllByUser. run_simpl.
    by destruct (answer handle (RepoFindByUser _ _ _) w); run_simpl.
  - intros items w'. apply repoSeq_shape.
Qed.

(** X12. Each iterator yields at most one item per id, respectively per
    Store row; and [FindAll] followed by ranging over its result yields
    at most [n] items whenever the index read returns at most [n] ids and
    the Store query at most [n] rows. *)
Theorem streams_yield_bound (ids : list string) (items : list RepoItem)
    (limit offset : Z) (w : W) :
  (length (yields (trace handle (chunkedCacheIterator ids) w))
   <= length ids)%nat
  /\ (length (yields (trace handle (cacheIterator items) w))
      <= length items)%nat
  /\ forall n : nat,
       (forall ids',
          answer handle (CacheGetIdsFromSet offset
                           (wrap_int (wrap_int (offset + limit) - 1))) w
          = inr ids' -> (length ids' <= n)%nat) ->
       (forall w' items',
          answer handle (RepoFindAll limit offset) w' = inr items' ->
          (length items' <= n)%nat) ->
       (length (yields (trace handle (FindAll_consume limit offset) w))
        <= n)%nat.
Proof.
  split_and!.
  - apply chunkedCacheIterator_yields_le.
  - apply cacheIterator_yields_le.
  - intros n. apply FindAll_consume_yields_le.
Qed.

End StreamOrder.

(** ** The further properties at concrete inputs *)

Section MoreConcrete.
Import mem.

Lemma mget_lookup (b : gmap string (list byte)) (ids : list string)
    (id : string) :
  mget b ids !! id = if decide (id ∈ ids) then b !! id else None.
Proof.
  unfold mget. induction ids as [|x ids IH]; cbn [foldr].
  - by rewrite lookup_empty, decide_False by apply not_elem_of_nil.
  - destruct (decide (x = id)) as [->|Hne].
    + rewrite decide_True by apply list_elem_of_here.
      destruct (b !! id) as [d|] eqn:Hb.
      * apply lookup_insert_eq.
      * rewrite IH. by case_decide.
    + assert (id ∈ x :: ids <-> id ∈ ids) as Hiff.
      { rewrite elem_of_cons. split; [|by right].
        intros [Heq|Hin]; [congruence|done]. }
      destruct (b !! x).
      * rewrite lookup_insert_ne, IH by done.
        repeat case_decide; try done; tauto.
      * rewrite IH. repeat case_decide; try done; tauto.
Qed.

(** The caller re-describes their own asset while the cache is down. *)
Lemma UpdateDescription_success_witness :
  let w := with_faults warm remove_fails in
  let tr := trace handle (UpdateDescription "1" "new desc" "u1") w in
  answer handle (RepoFindByID "1") w = inr asset1
  /\ GetUserID asset1 = "u1"
  /\ result handle (UpdateDescription "1" "new desc" "u1") w
     = (Some (set_description "new desc" asset1), None)
  /\ port_calls tr
     = [RepoFindByID "1"; RepoUpdateDescription "1" "new desc";
        CacheRemove "1"]
  /\ count is_log tr = 1%nat.
Proof.
  split; [reflexivity|]. split; [reflexivity|].
  exact (UpdateDescription_success handle "1" "new desc" "u1"
           (with_faults warm remove_fails) asset1
           (set_description "new desc" asset1) eq_refl eq_refl eq_refl).
Defined.

(** [Save] while the enricher and the cache writes fail. *)
Lemma Save_write_through_witness :
  let w := with_faults store_only write_through_fails in
  Validate asset1 = None
  /\ answer handle (RepoSave asset1)
       (after handle (Log LInfo "saving asset") w) = None
  /\ result handle (Save asset1) w = None
  /\ exists score,
       port_calls (trace handle (Save asset1) w)
       = [RepoSave asset1; EnricherEnrich asset1; TimeNowUnix;
          CacheAddToSet "1" score; CacheSet "1" (blob_of asset1)].
Proof.
  split; [reflexivity|]. split; [reflexivity|].
  exact (Save_write_through handle asset1
           (with_faults store_only write_through_fails) eq_refl eq_refl).
Defined.

(** The Store streams an asset, then an error, then another asset. *)
Lemma cacheIterator_order_witness :
  let I := fun w : World => stop_after w = None in
  let rows := [inr asset2; inl db_down; inr asset1] in
  (forall c w', I w' -> I (after handle c w'))
  /\ (forall item w', I w' -> answer handle (Yield item) w' = true)
  /\ I store_only
  /\ yields (trace handle (cacheIterator rows) store_only)
     = [(Some asset2, None); (None, Some db_down)].
Proof.
  assert (H1 : forall c w',
            stop_after w' = None -> stop_after (after handle c w') = None).
  { intros c w' Hw. unfold after.
    destruct c; cbn; unfold fail_or; repeat case_match; cbn; congruence. }
  assert (H2 : forall item w',
            stop_after w' = None -> answer handle (Yield item) w' = true).
  { intros item w' Hw. unfold answer. cbn. by rewrite Hw. }
  split; [exact H1|]. split; [exact H2|]. split; [reflexivity|].
  exact (cacheIterator_order handle (fun w => stop_after w = None)
           [inr asset2; inl db_down; inr asset1] store_only H1 H2 eq_refl).
Defined.

(** A page of two ids over the warm cache. *)
Lemma chunked_full_hit_witness :
  let I := fun w : World =>
    blobs w = blobs warm /\ faults w = no_faults /\ stop_after w = None in
  let cached := fun id : string =>
    if decide (id = "2") then asset2 else asset1 in
  let tr := trace handle (chunkedCacheIterator ["2"; "1"]) warm in
  I warm
  /\ yields tr = [(Some asset2, None); (Some asset1, None)]
  /\ concat (batch_reads tr) = ["2"; "1"]
  /\ count is_store tr = 0%nat /\ count is_enricher tr = 0%nat.
Proof.
  set (I := fun w : World =>
    blobs w = blobs warm /\ faults w = no_faults /\ stop_after w = None).
  set (cached := fun id : string =>
    if decide (id = "2") then asset2 else asset1).
  assert (H1 : forall item w',
            I w' -> I (after handle (Yield item) w')
                    /\ answer handle (Yield item) w' = true).
  { intros item w' (Hb & Hf & Hs). unfold after, answer. cbn.
    rewrite Hs. by cbn. }
  assert (H2 : forall ids' w',
            I w' -> ids' ⊆ ["2"; "1"] ->
            I (after handle (CacheGetBatch ids') w')
            /\ exists m,
                 answer handle (CacheGetBatch ids') w' = inr m
                 /\ forall id, id ∈ ids' ->
                      exists d, m !! id = Some d
                                /\ unmarshal d = (Some (cached id), None)).
  { intros ids' w' (Hb & Hf & Hs) Hsub. unfold after, answer.
    cbn. unfold fail_or. rewrite Hf. cbn. split; [done|].
    exists (mget (blobs w') ids'). split; [done|].
    intros id Hid. rewrite mget_lookup, decide_True, Hb by done.
    apply Hsub in Hid.
    apply elem_of_cons in Hid as [->|Hid];
      [|apply list_elem_of_singleton in Hid as ->];
      eexists; split; reflexivity. }
  assert (H3 : I warm) by done.
  split; [exact H3|].
  exact (chunked_full_hit handle I cached ["2"; "1"] warm H1 H2 H3).
Defined.

End MoreConcrete.

(** ** Read repair over a whole page *)

Lemma batches_app (t1 t2 : list Event) :
  batches (t1 ++ t2) = batches t1 ++ batches t2.
Proof.
  induction t1 as [|[c r] t1 IH]; [done|].
  destruct c; cbn; rewrite ?IH; try done. by destruct r.
Qed.

Lemma batches_no_reads (tr : list Event) :
  batch_reads tr = [] -> batches tr = [].
Proof.
  induction tr as [|[c r] tr IH]; [done|]. destruct c; cbn; try done.
Qed.

Lemma yields_erased (l : list Call) :
  omap (fun c => match c with Yield item => Some item | _ => None end)
    (erase_score <$> List.filter (fun c => negb (is_log c)) l)
  = omap (fun c => match c with Yield item => Some item | _ => None end) l.
Proof.
  induction l as [|c l IH]; [done|]. destruct c; cbn; by rewrite ?IH.
Qed.

Lemma store_calls_erased (l : list Call) :
  List.filter is_store
    (erase_score <$> List.filter (fun c => negb (is_log c)) l)
  = List.filter is_store l.
Proof.
  induction l as [|c l IH]; [done|]. destruct c; cbn; by rewrite ?IH.
Qed.

Lemma enricher_calls_erased (l : list Call) :
  List.filter is_enricher
    (erase_score <$> List.filter (fun c => negb (is_log c)) l)
  = List.filter is_enricher l.
Proof.
  induction l as [|c l IH]; [done|]. destruct c; cbn; by rewrite ?IH.
Qed.

Section Script.
Variable expected : string -> Asset.
Variable blob : string -> list byte.

Lemma id_script_yields (dataMap : gmap string (list byte))
    (chunk : list string) :
  omap (fun c => match c with Yield item => Some item | _ => None end)
    (chunk ≫= id_script expected blob dataMap)
  = (fun id => (Some (expected id), None)) <$> chunk.
Proof.
  induction chunk as [|id chunk IH]; [done|].
  rewrite bind_cons, omap_app, IH, fmap_cons. unfold id_script.
  by destruct (dataMap !! id).
Qed.

Lemma id_script_store (dataMap : gmap string (list byte))
    (chunk : list string) :
  List.filter is_store (chunk ≫= id_script expected blob dataMap)
  = RepoFindByID
      <$> List.filter (fun id => bool_decide (dataMap !! id = None)) chunk.
Proof.
  induction chunk as [|id chunk IH]; [done|].
  rewrite bind_cons, List.filter_app, IH. unfold id_script. cbn.
  by destruct (dataMap !! id).
Qed.

Lemma id_script_enricher (dataMap : gmap string (list byte))
    (chunk : list string) :
  List.filter is_enricher (chunk ≫= id_script expected blob dataMap)
  = (fun id => EnricherEnrich (expected id))
      <$> List.filter (fun id => bool_decide (dataMap !! id = None)) chunk.
Proof.
  induction chunk as [|id chunk IH]; [done|].
  rewrite bind_cons, List.filter_app, IH. unfold id_script. cbn.
  by destruct (dataMap !! id).
Qed.

Lemma page_script_yields
    (bs : list (list string * gmap string (list byte))) :
  omap (fun c => match c with Yield item => Some item | _ => None end)
    (page_script expected blob bs)
  = (fun id => (Some (expected id), None)) <$> concat bs.*1.
Proof.
  unfold page_script. induction bs as [|[chunk dataMap] bs IH]; [done|].
  rewrite bind_cons, omap_app, IH. cbn [fst snd].
  change (omap ?f (CacheGetBatch chunk :: ?l)) with (omap f l).
  rewrite id_script_yields. cbn [fmap list_fmap fst concat].
  by rewrite fmap_app.
Qed.

Lemma page_script_store
    (bs : list (list string * gmap string (list byte))) :
  List.filter is_store (page_script expected blob bs)
  = RepoFindByID <$> misses bs.
Proof.
  unfold page_script, misses.
  induction bs as [|[chunk dataMap] bs IH]; [done|].
  rewrite !bind_cons, List.filter_app, IH, fmap_app. cbn [fst snd].
  cbn [List.filter is_store]. by rewrite id_script_store.
Qed.

Lemma page_script_enricher
    (bs : list (list string * gmap string (list byte))) :
  List.filter is_enricher (page_script expected blob bs)
  = (fun id => EnricherEnrich (expected id)) <$> misses bs.
Proof.
  unfold page_script, misses.
  induction bs as [|[chunk dataMap] bs IH]; [done|].
  rewrite !bind_cons, List.filter_app, IH, fmap_app. cbn [fst snd].
  cbn [List.filter is_enricher]. by rewrite id_script_enricher.
Qed.

End Script.

Section ReadRepair.
Context `{JSON} {W : Type} (handle : forall c : Call, W -> Resp c * W).

(** One chunk: every id yields its asset, the absent ones after their
    repair, and the run goes on with what follows the chunk. *)
Lemma chunkBody_repairs (I : W -> Prop) (expected : string -> Asset)
    (blob : string -> list byte) (dataMap : gmap string (list byte))
    (chunkIds : list string) (next : Prog unit) (w : W) :
  (forall item w',
     I w' -> I (after handle (Yield item) w')
             /\ answer handle (Yield item) w' = true) ->
  (forall id, id ∈ chunkIds ->
     match dataMap !! id with
     | Some d => unmarshal d = (Some (expected id), None)
     | None => repairable handle I id (expected id) (blob id)
     end) ->
  I w ->
  exists tr0 w',
    trace handle (chunkBody dataMap chunkIds next) w
    = tr0 ++ trace handle next w'
    /\ I w'
    /\ batches tr0 = []
    /\ erase_score <$> port_calls tr0
       = chunkIds ≫= id_script expected blob dataMap.
Proof.
  intros Hpull. revert w.
  induction chunkIds as [|id rest IH]; intros w Hdata Hw.
  - by exists [], w.
  - assert (Hrest : forall id', id' ∈ rest ->
              match dataMap !! id' with
              | Some d => unmarshal d = (Some (expected id'), None)
              | None => repairable handle I id' (expected id') (blob id')
              end).
    { intros id' Hid'. apply Hdata. by right. }
    specialize (Hdata id (list_elem_of_here _ _)).
    cbn [chunkBody]. rewrite bind_cons. unfold id_script at 1.
    destruct (dataMap !! id) as [d|] eqn:Hd.
    + rewrite Hdata. run_simpl.
      destruct (Hpull (Some (expected id), None) w Hw) as [Hw' ->].
      destruct (IH (after handle (Yield (Some (expected id), None)) w)
                  Hrest Hw') as (tr0 & w' & -> & Hw'' & Hb & Hcalls).
      exists (ev (Yield (Some (expected id), None)) true :: tr0), w'.
      split_and!; [done|done|exact Hb|].
      change (erase_score <$> Yield (Some (expected id), None)
                                :: port_calls tr0
              = Yield (Some (expected id), None)
                  :: rest ≫= id_script expected blob dataMap).
      by rewrite fmap_cons, Hcalls.
    + destruct Hdata as [Hmarshal Hstore].
      destruct (Hstore w Hw) as [Hfound Hw3]. cbn zeta in Hfound, Hw3.
      pose proof (enrichAndSaveCache_trace handle (expected id)) as Htr.
      pose proof (enrichAndSaveCache_quiet handle (expected id)) as Hquiet.
      pose proof (enrichAndSaveCache_result handle) as Hres.
      cbn zeta in Htr. rewrite Hmarshal in Htr.
      remember enrichAndSaveCache as enrich eqn:Hopaque. clear Hopaque.
      run_simpl. rewrite Hfound. run_simpl. rewrite Hres. cbn [fst].
      set (w1 := after handle (Log _ _) w) in *.
      set (w2 := after handle (RepoFindByID id) w1) in *.
      set (w3 := final handle (enrich (expected id)) w2) in *.
      destruct (Htr w2) as (_ & _ & _ & _ & score & Hp).
      destruct (Hquiet w2) as [[Hreads _] _].
      destruct (Hpull (Some (expected id), None) w3 Hw3) as [Hw4 ->].
      destruct (IH (after handle (Yield (Some (expected id), None)) w3)
                  Hrest Hw4) as (tr0 & w' & -> & Hw'' & Hb & Hcalls).
      exists (ev (Log LWarn
        "cache inconsistency detected (missing data), repairing from db")
                (answer handle (Log LWarn
        "cache inconsistency detected (missing data), repairing from db") w)
              :: ev (RepoFindByID id) (inr (expected id))
              :: trace handle (enrich (expected id)) w2
              ++ ev (Yield (Some (expected id), None)) true :: tr0), w'.
      split_and!.
      * cbn [app]. do 2 f_equal. by rewrite <- app_assoc.
      * done.
      * cbn [batches ev]. rewrite batches_app.
        rewrite (batches_no_reads _ Hreads). exact Hb.
      * rewrite !app_comm_cons, port_calls_app.
        change (port_calls
                  (ev (Log LWarn
        "cache inconsistency detected (missing data), repairing from db")
                     (answer handle (Log LWarn
        "cache inconsistency detected (missing data), repairing from db") w)
                   :: ev (RepoFindByID id) (inr (expected id))
                   :: trace handle (enrich (expected id)) w2))
          with (RepoFindByID id
                  :: port_calls (trace handle (enrich (expected id)) w2)).
        change (port_calls
                  (ev (Yield (Some (expected id), None)) true :: tr0))
          with (Yield (Some (expected id), None) :: port_calls tr0).
        rewrite Hp, fmap_app.
        change (erase_score <$> Yield (Some (expected id), None)
                                  :: port_calls tr0)
          with (Yield (Some (expected id), None)
                  :: (erase_score <$> port_calls tr0)).
        by rewrite Hcalls.
Qed.

(** The chunks from index [i] on. *)
Lemma chunkLoop_repairs (I : W -> Prop) (expected : string -> Asset)
    (blob : string -> list byte) (fuel : nat) (ids : list string)
    (i : nat) (w : W) :
  (forall item w',
     I w' -> I (after handle (Yield item) w')
             /\ answer handle (Yield item) w' = true) ->
  (forall ids' w',
     I w' -> ids' ⊆ ids ->
     I (after handle (CacheGetBatch ids') w')
     /\ exists dataMap,
          answer handle (CacheGetBatch ids') w' = inr dataMap
          /\ forall id, id ∈ ids' ->
               match dataMap !! id with
               | Some d => unmarshal d = (Some (expected id), None)
               | None => repairable handle I id (expected id) (blob id)
               end) ->
  (length ids - i <= fuel)%nat ->
  I w ->
  let tr := trace handle (chunkLoop fuel ids i) w in
  concat (batches tr).*1 = drop i ids
  /\ erase_score <$> port_calls tr
     = page_script expected blob (batches tr).
Proof.
  intros Hpull Hbatch. cbn zeta. revert i w.
  induction fuel as [|fuel IH]; intros i w Hfuel Hw;
    cbn [chunkLoop]; case_decide; try lia;
    try (rewrite drop_ge by lia; by split).
  run_simpl.
  set (chunkIds := slice ids i (Nat.min (i + batchSize) (length ids))).
  assert (chunkIds ⊆ ids) as Hsub.
  { subst chunkIds. unfold slice.
    etrans; [apply subseteq_take|apply subseteq_drop]. }
  destruct (Hbatch chunkIds w Hw Hsub) as (Hw1 & m & -> & Hm).
  destruct (chunkBody_repairs I expected blob m chunkIds
              (chunkLoop fuel ids (i + batchSize))
              (after handle (CacheGetBatch chunkIds) w) Hpull Hm Hw1)
    as (tr0 & w' & -> & Hw' & Hb0 & Hcalls).
  destruct (IH (i + batchSize)%nat w') as (Hb & Hc);
    [unfold batchSize; lia|done|].
  cbn [batches ev]. rewrite batches_app, Hb0. cbn [app]. split.
  - cbn [fmap list_fmap fst concat]. rewrite Hb.
    apply (slice_tiles ids i).
  - rewrite app_comm_cons, port_calls_app.
    change (port_calls (ev (CacheGetBatch chunkIds) (inr m) :: tr0))
      with (CacheGetBatch chunkIds :: port_calls tr0).
    rewrite fmap_app, fmap_cons, Hcalls, Hc.
    unfold page_script. by rewrite bind_cons.
Qed.

(** C6. Take a page of ids over a cache and a Store that agree on the
    assets ([expected]): in every state the environment can be in ([I]),
    the consumer keeps pulling, a batch read is answered, an id the
    answer holds decodes to its asset, and an id the answer lacks can be
    repaired -- the Store has the asset and writing it through changes
    nothing of this.  Then the chunked cache iterator, which is what
    [FindAll] returns on an index hit, covers the page with its batch
    reads and yields one asset per id, in the order of the ids: also in
    the position of an id that its batch answer lacks, and for all ids
    after it.  On the ports it does exactly this, for each batch read in
    turn: the read; then for an id the answer holds only the yield; for
    an id the answer lacks the Store read of that id, the Enricher, the
    clock, [AddToSet] and [Set] of the (serialized) Store asset, and then
    the yield.  So the Store and the Enricher are called once for each
    absent id, in order, and for no other. *)
Theorem chunked_read_repair (I : W -> Prop) (expected : string -> Asset)
    (blob : string -> list byte) (ids : list string) (w : W) :
  (forall item w',
     I w' -> I (after handle (Yield item) w')
             /\ answer handle (Yield item) w' = true) ->
  (forall ids' w',
     I w' -> ids' ⊆ ids ->
     I (after handle (CacheGetBatch ids') w')
     /\ exists dataMap,
          answer handle (CacheGetBatch ids') w' = inr dataMap
          /\ forall id, id ∈ ids' ->
               match dataMap !! id with
               | Some d => unmarshal d = (Some (expected id), None)
               | None => repairable handle I id (expected id) (blob id)
               end) ->
  I w ->
  let tr := trace handle (chunkedCacheIterator ids) w in
  let bs := batches tr in
  (forall limit offset w0,
     ids <> [] ->
     answer handle
       (CacheGetIdsFromSet offset (wrap_int (wrap_int (offset + limit) - 1)))
       w0 = inr ids ->
     result handle (FindAll limit offset) w0
     = inr (chunkedCacheIterator ids))
  /\ concat bs.*1 = ids
  /\ yields tr = (fun id => (Some (expected id), None)) <$> ids
  /\ erase_score <$> port_calls tr = page_script expected blob bs
  /\ List.filter is_store (calls tr) = RepoFindByID <$> misses bs
  /\ List.filter is_enricher (calls tr)
     = (fun id => EnricherEnrich (expected id)) <$> misses bs.
Proof.
  intros Hpull Hbatch Hw. cbn zeta.
  destruct (chunkLoop_repairs I expected blob (length ids) ids 0 w
              Hpull Hbatch) as (Hb & Hc); [lia|done|].
  fold (chunkedCacheIterator ids) in Hb, Hc. rewrite drop_0 in Hb.
  split_and!.
  - intros limit offset w0 Hne Hids. unfold FindAll. run_simpl.
    rewrite Hids. destruct ids as [|id0 ids0]; [done|]. by run_simpl.
  - exact Hb.
  - rewrite yields_of_calls, <- yields_erased.
    fold (port_calls (trace handle (chunkedCacheIterator ids) w)).
    by rewrite Hc, page_script_yields, Hb.
  - exact Hc.
  - rewrite <- store_calls_erased.
    fold (port_calls (trace handle (chunkedCacheIterator ids) w)).
    by rewrite Hc, page_script_store.
  - rewrite <- enricher_calls_erased.
    fold (port_calls (trace handle (chunkedCacheIterator ids) w)).
    by rewrite Hc, page_script_enricher.
Qed.

End ReadRepair.

(** ** Read repair at a concrete input *)

Section RepairConcrete.
Import mem.

(** Write-through in the in-memory environment when nothing fails. *)
Lemma final_enrichAndSaveCache (a : Asset) (data : list byte) (w : World) :
  Marshal a = inr data -> faults w = no_faults ->
  final handle (enrichAndSaveCache a) w
  = mkWorld (rows w) (<[GetID a := data]> (blobs w))
      (zadd (GetID a) (clock w) (index w)) (clock w + 1) no_faults
      (stop_after w).
Proof.
  intros Hm Hf. destruct w as [r b i c f s]. cbn in Hf. subst f.
  unfold enrichAndSaveCache, updateCache. rewrite Hm. by run_simpl.
Qed.

(** The index knows "2" and "1", the blob of "2" is gone, the Store has
    both. *)
Lemma chunked_read_repair_witness :
  let I := fun w : World =>
    rows w = rows drifted /\ faults w = no_faults /\ stop_after w = None
    /\ blobs w !! "1" = Some (blob_of asset1)
    /\ (blobs w !! "2" = None \/ blobs w !! "2" = Some (blob_of asset2)) in
  let tr := trace handle (chunkedCacheIterator ["2"; "1"]) drifted in
  I drifted
  /\ batches tr = [(["2"; "1"], <["1" := blob_of asset1]> ∅)]
  /\ yields tr = [(Some asset2, None); (Some asset1, None)]
  /\ erase_score <$> port_calls tr
     = [CacheGetBatch ["2"; "1"]; RepoFindByID "2"; EnricherEnrich asset2;
        TimeNowUnix; CacheAddToSet "2" 0; CacheSet "2" (blob_of asset2);
        Yield (Some asset2, None); Yield (Some asset1, None)]
  /\ List.filter is_store (calls tr) = [RepoFindByID "2"]
  /\ List.filter is_enricher (calls tr) = [EnricherEnrich asset2].
Proof.
  set (I := fun w : World =>
    rows w = rows drifted /\ faults w = no_faults /\ stop_after w = None
    /\ blobs w !! "1" = Some (blob_of asset1)
    /\ (blobs w !! "2" = None \/ blobs w !! "2" = Some (blob_of asset2))).
  set (expected := fun id : string =>
    if decide (id = "2") then asset2 else asset1).
  set (blob := fun id : string => blob_of (expected id)).
  assert (H1 : forall item w',
            I w' -> I (after handle (Yield item) w')
                    /\ answer handle (Yield item) w' = true).
  { intros item w' (Hr & Hf & Hs & Hb1 & Hb2). unfold after, answer. cbn.
    rewrite Hs. by cbn. }
  assert (Hrepair : repairable handle I "2" asset2 (blob_of asset2)).
  { split; [reflexivity|]. intros w' (Hr & Hf & Hs & Hb1 & Hb2). cbn zeta.
    assert (Hstore : answer handle (RepoFindByID "2") w' = inr asset2).
    { unfold answer. cbn. unfold fail_or. rewrite Hf, Hr. reflexivity. }
    assert (Hsame : after handle (RepoFindByID "2") w' = w').
    { unfold after. cbn. unfold fail_or. by rewrite Hf. }
    change (after handle (Log LWarn
      "cache inconsistency detected (missing data), repairing from db") w')
      with w'.
    split; [exact Hstore|]. rewrite Hsame.
    rewrite (final_enrichAndSaveCache asset2 (blob_of asset2) w')
      by (reflexivity || exact Hf).
    split_and!; cbn [rows faults stop_after blobs]; try done.
    - by rewrite lookup_insert_ne.
    - right. apply lookup_insert_eq. }
  assert (H2 : forall ids' w',
            I w' -> ids' ⊆ ["2"; "1"] ->
            I (after handle (CacheGetBatch ids') w')
            /\ exists dataMap,
                 answer handle (CacheGetBatch ids') w' = inr dataMap
                 /\ forall id, id ∈ ids' ->
                      match dataMap !! id with
                      | Some d => unmarshal d = (Some (expected id), None)
                      | None => repairable handle I id (expected id) (blob id)
                      end).
  { intros ids' w' (Hr & Hf & Hs & Hb1 & Hb2) Hsub. unfold after, answer.
    cbn. unfold fail_or. rewrite Hf. cbn. split; [done|].
    exists (mget (blobs w') ids'). split; [done|].
    intros id Hid. rewrite mget_lookup, decide_True by done.
    apply Hsub in Hid.
    apply elem_of_cons in Hid as [->|Hid];
      [|apply list_elem_of_singleton in Hid as ->].
    - destruct Hb2 as [-> | ->]; [exact Hrepair|reflexivity].
    - rewrite Hb1. reflexivity. }
  assert (H3 : I drifted) by (split_and!; try done; by left).
  destruct (chunked_read_repair handle I expected blob ["2"; "1"] drifted
              H1 H2 H3) as (_ & Hb & Hy & Hc & Hs & He).
  assert (Hbs : batches (trace handle (chunkedCacheIterator ["2"; "1"])
                           drifted)
                = [(["2"; "1"], <["1" := blob_of asset1]> ∅)])
    by reflexivity.
  split; [exact H3|]. split; [exact Hbs|]. split; [exact Hy|].
  rewrite Hbs in Hc, Hs, He.
  split; [exact Hc|]. split; [exact Hs|exact He].
Defined.

End RepairConcrete.

(** ** Configuration *)

(** X13. [Load] succeeds exactly when [DATABASE_URL] and [REDIS_ADDR]
    are set and [JWT_SECRET] is set or [APP_ENV] is ["local"].  On
    success the port defaults to ["8080"], the environment name to
    ["production"], and the JWT secret is the configured one, the
    development secret being used only when none is configured in the
    ["local"] environment; no field that is required is empty. *)
Theorem Load_success (Getenv : string -> string) :
  let cfg := (config.Load Getenv).1 in
  ((config.Load Getenv).2 = None
   <-> Getenv "DATABASE_URL" <> "" /\ Getenv "REDIS_ADDR" <> ""
       /\ (Getenv "JWT_SECRET" <> "" \/ Getenv "APP_ENV" = "local"))
  /\ ((config.Load Getenv).2 = None ->
      config.DatabaseURL cfg = Getenv "DATABASE_URL"
      /\ config.RedisAddr cfg = Getenv "REDIS_ADDR"
      /\ config.OtelExporterEndpoint cfg
         = Getenv "OTEL_EXPORTER_OTLP_ENDPOINT"
      /\ config.Port cfg
         = (if decide (Getenv "PORT" = "") then "8080" else Getenv "PORT")
      /\ config.AppEnv cfg
         = (if decide (Getenv "APP_ENV" = "") then "production"
            else Getenv "APP_ENV")
      /\ config.JWTSecret cfg
         = (if decide (Getenv "JWT_SECRET" = "")
            then "dev-secret-do-not-use-in-prod" else Getenv "JWT_SECRET")
      /\ (config.JWTSecret cfg = "dev-secret-do-not-use-in-prod" ->
          Getenv "JWT_SECRET" = "dev-secret-do-not-use-in-prod"
          \/ config.AppEnv cfg = "local")
      /\ config.Port cfg <> "" /\ config.AppEnv cfg <> ""
      /\ config.JWTSecret cfg <> "").
Proof.
  cbn zeta. unfold config.Load.
  destruct (decide (Getenv "JWT_SECRET" = "")) as [Hj|Hj];
    [destruct (decide (Getenv "APP_ENV" = "local")) as [Ha|Ha]|];
    destruct (decide (Getenv "DATABASE_URL" = "")) as [Hd|Hd];
    destruct (decide (Getenv "REDIS_ADDR" = "")) as [Hr|Hr];
    cbn [fst snd config.DatabaseURL config.RedisAddr config.Port
         config.AppEnv config.JWTSecret config.OtelExporterEndpoint];
    (split; [split; [intros Hok; try done; tauto
                    |intros (? & ? & ?); try done; tauto]|]);
    intros Hok; try done; clear Hok.
  - rewrite Ha. split_and!; try done; [by right|by case_decide].
  - split_and!; try done; [by left|by case_decide|by case_decide].
Qed.

(** X14. When [Load] fails it returns the zero configuration and names
    the first missing variable, in the order [JWT_SECRET] (outside the
    ["local"] environment), [DATABASE_URL], [REDIS_ADDR]. *)
Theorem Load_failure (Getenv : string -> string) :
  let need_secret :=
    Getenv "JWT_SECRET" = "" /\ Getenv "APP_ENV" <> "local" in
  (forall err, (config.Load Getenv).2 = Some err ->
     (config.Load Getenv).1 = config.zero)
  /\ (need_secret ->
      (config.Load Getenv).2 = Some (New "JWT_SECRET is required"))
  /\ (~ need_secret -> Getenv "DATABASE_URL" = "" ->
      (config.Load Getenv).2 = Some (New "DATABASE_URL is required"))
  /\ (~ need_secret -> Getenv "DATABASE_URL" <> "" ->
      Getenv "REDIS_ADDR" = "" ->
      (config.Load Getenv).2 = Some (New "REDIS_ADDR is required")).
Proof.
  cbn zeta. unfold config.Load.
  repeat case_decide; cbn; split_and!; intros; try done; tauto.
Qed.

(** ** Pagination and request parsing *)

(** Evaluates the powers of two that bound Go's [int]. *)
Ltac int_bounds :=
  change (2 ^ 63) with 9223372036854775808 in *;
  change (2 ^ 53) with 9007199254740992 in *.

(** X15. Whatever the query holds, [NewPagination] gives a limit between
    1 and 1000.  A page below 2 gives offset 0; for a page number up to
    2^53 the offset is [(page - 1) * limit], computed without wrap-around,
    and the index range [FindAll] derives from such a pagination is
    [offset, offset + limit - 1] with a non-negative stop bound, never
    the [-1] that reads "to the end". *)
Theorem NewPagination_bounds (Atoi : string -> Z * option error)
    (query : string -> string) :
  let p := rest.NewPagination Atoi query in
  let page := (Atoi (query "page")).1 in
  1 <= rest.Limit p <= 1000
  /\ (page <= 1 -> rest.Offset p = 0)
  /\ (1 <= page <= 2 ^ 53 ->
      rest.Offset p = (page - 1) * rest.Limit p
      /\ 0 <= rest.Offset p
      /\ wrap_int (wrap_int (rest.Offset p + rest.Limit p) - 1)
         = rest.Offset p + rest.Limit p - 1
      /\ rest.Offset p <= rest.Offset p + rest.Limit p - 1).
Proof.
  cbn zeta. unfold rest.NewPagination. cbn [rest.Limit rest.Offset].
  set (page := (Atoi (query "page")).1).
  set (limit0 := (Atoi (query "limit")).1).
  set (limit := if decide (limit0 > 1000) then 1000
                else if decide (limit0 < 1) then 10 else limit0).
  assert (Hlimit : 1 <= limit <= 1000)
    by (subst limit; repeat case_decide; lia).
  assert (Heq : (if decide ((if decide (limit0 < 1) then 10 else limit0)
                            > 1000)
                 then 1000
                 else if decide (limit0 < 1) then 10 else limit0) = limit).
  { subst limit. repeat case_decide; lia. }
  rewrite Heq. clear Heq. clearbody limit. split; [done|]. split.
  - intros Hpage.
    replace (if decide (page < 1) then 1 else page) with 1
      by (case_decide; lia).
    by rewrite (wrap_int_small (1 - 1)), Z.mul_0_l by (int_bounds; lia).
  - intros Hpage. rewrite decide_False by lia.
    rewrite (wrap_int_small (page - 1)) by (int_bounds; lia).
    assert (0 <= (page - 1) * limit < 2 ^ 63 - 1000) as Hoff
      by (int_bounds; nia).
    rewrite (wrap_int_small ((page - 1) * limit)) by (int_bounds; lia).
    split_and!; try lia.
    rewrite (wrap_int_small ((page - 1) * limit + limit))
      by (int_bounds; lia).
    apply wrap_int_small. int_bounds. lia.
Qed.

Section Parse.
Context `{JSON}.

(** X16. For each of the three known types [parseAsset] decodes the
    payload as that variant and returns a decoding error as it is;
    otherwise it returns the decoded asset with two fields set: the
    owner, which becomes the authenticated caller whatever the payload
    named, and the id, which stays the payload's when the payload has
    one and is the generated one only when the payload's is empty.
    Name, description, type field and the variant's own fields are the
    payload's.  So a returned asset comes without error, belongs to the
    caller, is of the variant that the requested type names, and has a
    non-empty id when the generated id is not empty: [Validate] cannot
    reject it for a missing id.  A type other than the three known ones
    gives the error ["unknown asset type"] without decoding anything. *)
Theorem parseAsset_result (uuid : string) (data : list byte)
    (assetType : AssetType) (userID : string) :
  let kept (b : BaseAsset) : BaseAsset :=
    mkBaseAsset (if decide (ID b = "") then uuid else ID b) userID
      (Type_ b) (Name b) (Description b) in
  (assetType = AssetTypeChart ->
   rest.parseAsset uuid data assetType userID
   = match UnmarshalChart data with
     | inl err => (None, Some err)
     | inr c =>
         (Some (AChart (mkChart (kept (chart_base c)) (XAxis c) (YAxis c))),
          None)
     end)
  /\ (assetType = AssetTypeInsight ->
      rest.parseAsset uuid data assetType userID
      = match UnmarshalInsight data with
        | inl err => (None, Some err)
        | inr i =>
            (Some (AInsight (mkInsight (kept (insight_base i)) (Content i))),
             None)
        end)
  /\ (assetType = AssetTypeAudience ->
      rest.parseAsset uuid data assetType userID
      = match UnmarshalAudience data with
        | inl err => (None, Some err)
        | inr a =>
            (Some (AAudience (mkAudience (kept (audience_base a)) (Rules a))),
             None)
        end)
  /\ (forall a e,
     rest.parseAsset uuid data assetType userID = (Some a, e) ->
     e = None
     /\ GetUserID a = userID
     /\ variant_type a = assetType
     /\ (GetID a = uuid \/ GetID a <> "")
     /\ (uuid <> "" ->
         GetID a <> ""
         /\ Validate a
            <> Some (Errorf "" ErrValidation ": id is required")))
  /\ (assetType <> AssetTypeChart -> assetType <> AssetTypeInsight ->
      assetType <> AssetTypeAudience ->
      rest.parseAsset uuid data assetType userID
      = (None, Some (New "unknown asset type"))).
Proof.
  cbn zeta. split_and!.
  - intros ->. unfold rest.parseAsset. rewrite decide_True by done.
    by destruct (UnmarshalChart data).
  - intros ->. unfold rest.parseAsset.
    rewrite decide_False, decide_True by done.
    by destruct (UnmarshalInsight data).
  - intros ->. unfold rest.parseAsset.
    rewrite !decide_False, decide_True by done.
    by destruct (UnmarshalAudience data).
  - intros a e. unfold rest.parseAsset.
    assert (Hgen : forall cur,
              (rest.generateID uuid cur = uuid
               \/ rest.generateID uuid cur <> "")
              /\ (uuid <> "" -> rest.generateID uuid cur <> "")).
    { intros cur. unfold rest.generateID. case_decide; [by split; [left|]|].
      split; [by right|done]. }
    repeat case_decide;
      repeat match goal with
             | |- context [match ?x with inl _ => _ | inr _ => _ end] =>
                 destruct x
             end; intros [= <- <-] || intros [=];
      (match goal with
       | |- context [rest.generateID uuid ?cur] =>
           destruct (Hgen cur) as [Hid Hne]
       end);
      (split_and!; [done|done|done|exact Hid|]);
      intros Hu; specialize (Hne Hu); (split; [exact Hne|]);
      cbn [Validate]; unfold Chart_Validate, Insight_Validate,
        Audience_Validate, ValidateCommon;
      cbn [chart_base insight_base audience_base rest.set_owner_and_id ID
           Name Type_];
      rewrite (decide_False (P := _ = "")) by exact Hne;
      repeat case_decide; done.
  - intros H1 H2 H3. unfold rest.parseAsset. by repeat case_decide.
Qed.

End Parse.

(** ** Running programs over other collaborators *)

Section FreeLemmas.
Context {E : Type} {R : E -> Type} {W : Type}.
Variable handle : forall e : E, W -> R e * W.

Lemma frun_eta {A : Type} (p : Free R A) (w : W) :
  frun handle p w
  = (fresult handle p w, ffinal handle p w, ftrace handle p w).
Proof.
  unfold fresult, ffinal, ftrace. by destruct (frun handle p w) as [[??]?].
Qed.

Lemma frun_bind {A B : Type} (p : Free R A) (f : A -> Free R B) (w : W) :
  frun handle (fbind p f) w =
  (fresult handle (f (fresult handle p w)) (ffinal handle p w),
   ffinal handle (f (fresult handle p w)) (ffinal handle p w),
   ftrace handle p w
     ++ ftrace handle (f (fresult handle p w)) (ffinal handle p w)).
Proof.
  revert w. induction p as [a|e k IH]; intros w.
  - cbn. apply frun_eta.
  - unfold fresult, ffinal, ftrace in *. cbn.
    destruct (handle e w) as [r w1]. rewrite IH.
    by destruct (frun handle (k r) w1) as [[??]?].
Qed.

Lemma fresult_bind {A B : Type} (p : Free R A) (f : A -> Free R B) (w : W) :
  fresult handle (fbind p f) w =
  fresult handle (f (fresult handle p w)) (ffinal handle p w).
Proof. unfold fresult at 1. by rewrite frun_bind. Qed.

Lemma ffinal_bind {A B : Type} (p : Free R A) (f : A -> Free R B) (w : W) :
  ffinal handle (fbind p f) w =
  ffinal handle (f (fresult handle p w)) (ffinal handle p w).
Proof. unfold ffinal at 1. by rewrite frun_bind. Qed.

Lemma ftrace_bind {A B : Type} (p : Free R A) (f : A -> Free R B) (w : W) :
  ftrace handle (fbind p f) w =
  ftrace handle p w
    ++ ftrace handle (f (fresult handle p w)) (ffinal handle p w).
Proof. unfold ftrace at 1. by rewrite frun_bind. Qed.

Lemma fresult_Op {A : Type} (e : E) (k : R e -> Free R A) (w : W) :
  fresult handle (Op e k) w =
  fresult handle (k (fanswer handle e w)) (fafter handle e w).
Proof.
  unfold fresult, fanswer, fafter. cbn. destruct (handle e w) as [r w1]. cbn.
  by destruct (frun handle (k r) w1) as [[??]?].
Qed.

Lemma ffinal_Op {A : Type} (e : E) (k : R e -> Free R A) (w : W) :
  ffinal handle (Op e k) w =
  ffinal handle (k (fanswer handle e w)) (fafter handle e w).
Proof.
  unfold ffinal, fanswer, fafter. cbn. destruct (handle e w) as [r w1]. cbn.
  by destruct (frun handle (k r) w1) as [[??]?].
Qed.

Lemma ftrace_Op {A : Type} (e : E) (k : R e -> Free R A) (w : W) :
  ftrace handle (Op e k) w =
  existT e (fanswer handle e w)
    :: ftrace handle (k (fanswer handle e w)) (fafter handle e w).
Proof.
  unfold ftrace, fanswer, fafter. cbn. destruct (handle e w) as [r w1]. cbn.
  by destruct (frun handle (k r) w1) as [[??]?].
Qed.

Lemma fresult_Pure {A : Type} (a : A) (w : W) :
  fresult handle (Pure a) w = a.
Proof. done. Qed.

Lemma ffinal_Pure {A : Type} (a : A) (w : W) : ffinal handle (Pure a) w = w.
Proof. done. Qed.

Lemma ftrace_Pure {A : Type} (a : A) (w : W) :
  ftrace handle (Pure a : Free R A) w = [].
Proof. done. Qed.

End FreeLemmas.

Create Rewrite HintDb frun.
#[global] Hint Rewrite @fresult_bind @ffinal_bind @ftrace_bind
  @fresult_Op @ffinal_Op @ftrace_Op
  @fresult_Pure @ffinal_Pure @ftrace_Pure : frun.

Lemma fcalls_app {E : Type} {R : E -> Type} (t1 t2 : list (sigT R)) :
  fcalls (t1 ++ t2) = fcalls t1 ++ fcalls t2.
Proof. apply map_app. Qed.

Ltac frun_simpl :=
  unfold op; repeat (progress (autorewrite with frun; cbn [fst snd app])).

Ltac case_fanswer :=
  match goal with
  | |- context [match fanswer ?h ?c ?w with _ => _ end] =>
      let E := fresh "Hans" in destruct (fanswer h c w) eqn:E
  end.

Ltac frun_cases := frun_simpl; repeat (case_fanswer; frun_simpl).

(** ** The Redis adapter *)

Lemma fill_within (ids : list string) (vals : list (option (list byte)))
    (i : nat) (acc m : gmap string (list byte)) :
  redis.fill ids vals i acc = Some m ->
  forall k, is_Some (m !! k) -> k ∈ ids \/ is_Some (acc !! k).
Proof.
  revert i acc. induction vals as [|[v|] vals IH]; intros i acc Hfill k Hk;
    cbn in Hfill.
  - injection Hfill as <-. by right.
  - destruct (ids !! i) as [id|] eqn:Hid; [|done].
    destruct (IH _ _ Hfill k Hk) as [|Hin]; [by left|].
    destruct (decide (id = k)) as [<-|Hne].
    + left. by eapply list_elem_of_lookup_2.
    + right. by rewrite lookup_insert_ne in Hin.
  - by eapply IH.
Qed.

Lemma fill_lookup (ids : list string) (vals : list (option (list byte)))
    (i : nat) (acc : gmap string (list byte)) :
  NoDup ids -> (i + length vals <= length ids)%nat ->
  exists m, redis.fill ids vals i acc = Some m
    /\ forall j id, ids !! j = Some id ->
         m !! id = if decide (i <= j)%nat
                   then match vals !! (j - i)%nat with
                        | Some (Some v) => Some v
                        | _ => acc !! id
                        end
                   else acc !! id.
Proof.
  intros Hnd. revert i acc.
  induction vals as [|[v|] vals IH]; intros i acc Hlen; cbn in *.
  - exists acc. split; [done|]. intros j id _. by case_decide.
  - destruct (lookup_lt_is_Some_2 ids i) as [idi Hidi]; [lia|].
    rewrite Hidi.
    destruct (IH (S i) (<[idi := v]> acc)) as (m & -> & Hm); [lia|].
    exists m. split; [done|]. intros j id Hj. rewrite (Hm j id Hj).
    destruct (decide (j = i)) as [->|Hji].
    + assert (id = idi) as -> by congruence.
      rewrite decide_False, decide_True by lia.
      by rewrite Nat.sub_diag, lookup_insert_eq.
    + assert (id <> idi) as Hne.
      { intros ->. apply Hji. by eapply NoDup_lookup. }
      rewrite lookup_insert_ne by done.
      destruct (decide (i <= j)%nat) as [Hle|Hgt].
      * rewrite decide_True by lia.
        by replace (j - i)%nat with (S (j - S i)) by lia.
      * by rewrite decide_False by lia.
  - destruct (IH (S i) acc) as (m & -> & Hm); [lia|].
    exists m. split; [done|]. intros j id Hj. rewrite (Hm j id Hj).
    destruct (decide (j = i)) as [->|Hji].
    + by rewrite decide_False, decide_True, Nat.sub_diag by lia.
    + destruct (decide (i <= j)%nat) as [Hle|Hgt].
      * rewrite decide_True by lia.
        by replace (j - i)%nat with (S (j - S i)) by lia.
      * by rewrite decide_False by lia.
Qed.

Lemma fill_total (ids : list string) (vals : list (option (list byte)))
    (i : nat) (acc : gmap string (list byte)) :
  (i + length vals <= length ids)%nat ->
  is_Some (redis.fill ids vals i acc).
Proof.
  revert i acc. induction vals as [|[v|] vals IH]; intros i acc Hlen;
    cbn in *; [done| |apply IH; lia].
  destruct (lookup_lt_is_Some_2 ids i) as [idi ->]; [lia|].
  apply IH. lia.
Qed.

Lemma fill_panics (ids : list string) (vals : list (option (list byte)))
    (i : nat) (acc : gmap string (list byte)) (j : nat) (v : list byte) :
  vals !! j = Some (Some v) -> (length ids <= i + j)%nat ->
  redis.fill ids vals i acc = None.
Proof.
  revert i acc j. induction vals as [|[v'|] vals IH]; intros i acc j Hj Hlen;
    [done| |]; cbn.
  - destruct (ids !! i) as [idi|] eqn:Hidi; [|done].
    destruct j as [|j].
    + apply lookup_lt_Some in Hidi. lia.
    + apply (IH _ _ j); [done|lia].
  - destruct j as [|j]; [done|]. apply (IH _ _ j); [done|lia].
Qed.

Section RedisAdapter.
Context {W : Type}.
Variable handle : forall c : redis.RedisCall, W -> redis.RedisResp c * W.

(** X17. [GetBatch] asks Redis nothing for an empty id list and answers
    an empty result.  For a non-empty list it sends one [MGET] with the
    prefixed ids in order and returns a Redis error unchanged.  When
    Redis answers with no more values than ids, the call does not panic
    and every key of the result is one of the requested ids, the contract
    [batch_within] of the cache port; if moreover the ids are distinct,
    an id maps to its value exactly when the value is not nil.  A non-nil
    value beyond the ids makes the function panic. *)
Theorem GetBatch_contract (ids : list string) (w : W) :
  let keys := (fun id => redis.Prefix +:+ id) <$> ids in
  (ids = [] ->
     fresult handle (redis.GetBatch ids) w = Some (inr ∅)
     /\ ftrace handle (redis.GetBatch ids) w = [])
  /\ (ids <> [] ->
      fcalls (ftrace handle (redis.GetBatch ids) w) = [redis.MGet keys]
      /\ (forall err,
            fanswer handle (redis.MGet keys) w = inl err ->
            fresult handle (redis.GetBatch ids) w = Some (inl err))
      /\ (forall vals,
            fanswer handle (redis.MGet keys) w = inr vals ->
            ((length vals <= length ids)%nat ->
             exists m,
               fresult handle (redis.GetBatch ids) w = Some (inr m)
               /\ batch_within ids (inr m)
               /\ (NoDup ids ->
                   forall j id, ids !! j = Some id ->
                     m !! id = mjoin (vals !! j)))
            /\ (forall j v,
                  vals !! j = Some (Some v) -> (length ids <= j)%nat ->
                  fresult handle (redis.GetBatch ids) w = None))).
Proof.
  intros keys. split.
  - by intros ->.
  - intros Hne. destruct ids as [|id0 ids']; [done|].
    unfold redis.GetBatch. cbv beta iota zeta. fold keys.
    set (ids := id0 :: ids') in *. frun_simpl.
    destruct (fanswer handle (redis.MGet keys) w) as [err|vals];
      frun_simpl; cbn [fcalls map projT1].
    + split; [done|]. split; [by intros ? [= <-]|]. by intros ? [=].
    + split; [done|]. split; [by intros ? [=]|]. intros ? [= <-]. split.
      * intros Hlen.
        destruct (fill_total ids vals 0 ∅) as [m Hm]; [exact Hlen|].
        exists m. rewrite Hm. split; [done|]. split.
        -- intros k Hk. destruct (fill_within _ _ _ _ _ Hm k Hk) as [|Hin];
             [done|]. rewrite lookup_empty in Hin. by destruct Hin.
        -- intros Hnd j id Hj.
           destruct (fill_lookup ids vals 0 ∅ Hnd) as (m' & Hm' & Hlook);
             [exact Hlen|].
           assert (m' = m) as -> by congruence.
           rewrite (Hlook j id Hj), decide_True, Nat.sub_0_r by lia.
           rewrite lookup_empty. by destruct (vals !! j) as [[?|]|].
      * intros j v Hj Hlen.
        by rewrite (fill_panics ids vals 0 ∅ j v Hj) by exact Hlen.
Qed.

End RedisAdapter.

(** *** Round trips over a Redis server *)

Lemma prefix_inj (a b : string) :
  redis.Prefix +:+ a = redis.Prefix +:+ b -> a = b.
Proof. unfold redis.Prefix. simpl. intros Heq. by simplify_eq. Qed.

Lemma prefix_not_set_key (id : string) : redis.Prefix +:+ id <> redis.SetKey.
Proof.
  unfold redis.Prefix, redis.SetKey. simpl. intros Heq. by simplify_eq.
Qed.

Lemma fill_serve (s : gmap string (list byte)) (ids rest : list string)
    (i : nat) (acc : gmap string (list byte)) :
  drop i ids = rest ->
  exists m,
    redis.fill ids ((fun id => s !! (redis.Prefix +:+ id)) <$> rest) i acc
      = Some m
    /\ forall id, m !! id = if decide (id ∈ rest)
                            then match s !! (redis.Prefix +:+ id) with
                                 | Some v => Some v
                                 | None => acc !! id
                                 end
                            else acc !! id.
Proof.
  revert i acc. induction rest as [|id0 rest IH]; intros i acc Hdrop.
  - exists acc. split; [done|]. intros id. rewrite decide_False; [done|].
    by intros ?%elem_of_nil.
  - assert (ids !! i = Some id0) as Hi.
    { rewrite <- (Nat.add_0_r i), <- lookup_drop, Hdrop. done. }
    assert (drop (S i) ids = rest) as Hdrop'.
    { replace (S i) with (i + 1)%nat by lia.
      by rewrite <- (drop_drop ids 1 i), Hdrop. }
    cbn [fmap list_fmap redis.fill].
    destruct (s !! (redis.Prefix +:+ id0)) as [v|] eqn:Hv.
    + rewrite Hi.
      destruct (IH (S i) (<[id0 := v]> acc) Hdrop') as (m & Hm & Hlook).
      exists m. split; [exact Hm|]. intros id. rewrite Hlook.
      destruct (decide (id = id0)) as [->|Hne].
      * rewrite Hv, lookup_insert_eq.
        rewrite (decide_True (P := id0 ∈ id0 :: rest))
          by apply list_elem_of_here.
        by case_decide.
      * rewrite lookup_insert_ne by done.
        destruct (decide (id ∈ rest)) as [Hin|Hin].
        -- by rewrite decide_True by by apply list_elem_of_further.
        -- rewrite decide_False; [done|].
           rewrite elem_of_cons. by intros [?|?].
    + destruct (IH (S i) acc Hdrop') as (m & Hm & Hlook).
      exists m. split; [exact Hm|]. intros id. rewrite Hlook.
      destruct (decide (id = id0)) as [->|Hne].
      * rewrite Hv.
        rewrite (decide_True (P := id0 ∈ id0 :: rest))
          by apply list_elem_of_here.
        by case_decide.
      * destruct (decide (id ∈ rest)) as [Hin|Hin].
        -- by rewrite decide_True by by apply list_elem_of_further.
        -- rewrite decide_False; [done|].
           rewrite elem_of_cons. by intros [?|?].
Qed.

(** What [GetBatch] reads from a server: the stored values of the
    requested ids. *)
Lemma GetBatch_serve (s : redis.Server) (ids : list string) :
  ffinal redis.serve (redis.GetBatch ids) s = s
  /\ exists m,
       fresult redis.serve (redis.GetBatch ids) s = Some (inr m)
       /\ forall id, m !! id = if decide (id ∈ ids)
                               then redis.strings s !! (redis.Prefix +:+ id)
                               else None.
Proof.
  destruct ids as [|id0 ids'].
  - split; [done|]. exists (∅ : gmap string (list byte)).
    split; [reflexivity|]. intros id.
    rewrite lookup_empty. by rewrite decide_False by apply not_elem_of_nil.
  - unfold redis.GetBatch. cbv beta iota zeta. set (ids := id0 :: ids').
    frun_simpl. unfold fanswer, fafter. cbn [redis.serve fst snd].
    frun_simpl.
    destruct (fill_serve (redis.strings s) ids ids 0 ∅ eq_refl)
      as (m & Hm & Hlook).
    rewrite <- list_fmap_compose.
    change ((fun k => redis.strings s !! k) ∘ (fun id => redis.Prefix +:+ id))
      with (fun id => redis.strings s !! (redis.Prefix +:+ id)).
    rewrite Hm. cbn. split; [done|]. exists m. split; [done|].
    intros id. rewrite Hlook, lookup_empty.
    case_decide; [|done]. by destruct (redis.strings s !! _).
Qed.

Lemma zrevrange_all (l : list string) : mem.zrevrange l 0 (-1) = l.
Proof.
  unfold mem.zrevrange. cbv zeta.
  rewrite (decide_False (P := 0 < 0)), (decide_True (P := -1 < 0)) by lia.
  rewrite Z.min_r by lia. case_decide as Hlt.
  - destruct l; [done|]. simpl length in Hlt. lia.
  - rewrite drop_0. apply take_ge. lia.
Qed.

Lemma zinsert_elem (id : string) (score : Z) (l : list (string * Z))
    (k : string) :
  k ∈ (mem.zinsert id score l).*1 <-> k = id \/ k ∈ l.*1.
Proof.
  induction l as [|[id' s'] l IH]; cbn.
  - rewrite list_elem_of_singleton, elem_of_nil. tauto.
  - case_decide; cbn.
    + by rewrite !elem_of_cons.
    + rewrite !elem_of_cons, IH. tauto.
Qed.

Lemma filter_fst_elem (id k : string) (l : list (string * Z)) :
  k ∈ (filter (fun p => p.1 <> id) l).*1 <-> k <> id /\ k ∈ l.*1.
Proof.
  rewrite !list_elem_of_fmap. split.
  - intros (p & -> & [Hp Hin]%list_elem_of_filter). eauto.
  - intros (Hne & p & -> & Hin). exists p. split; [done|].
    by apply list_elem_of_filter.
Qed.

(** X18. The adapter's methods fit together over a Redis server, as its
    integration test checks on one id: what [Set] stored under an id,
    [GetBatch] returns for that id; after [AddToSet] the id is in the
    whole-set read [GetIdsFromSet(0, -1)]; [Remove] takes the id out of
    both, and [Invalidate] out of [GetBatch] only; neither touches what
    another id holds. *)
Theorem adapter_round_trips (s : redis.Server) (id : string)
    (data : list byte) (score : Z) (ids : list string) :
  let get (s' : redis.Server) :=
    fresult redis.serve (redis.GetBatch ids) s' in
  let members (s' : redis.Server) :=
    fresult redis.serve (redis.GetIdsFromSet 0 (-1)) s' in
  let s_set := ffinal redis.serve (redis.Set_ id data) s in
  let s_add := ffinal redis.serve (redis.AddToSet id score) s in
  let s_rem := ffinal redis.serve (redis.Remove id) s in
  let s_inv := ffinal redis.serve (redis.Invalidate id) s in
  (exists m, get s_set = Some (inr m)
     /\ (id ∈ ids -> m !! id = Some data)
     /\ members s_set = members s)
  /\ (exists l, members s_add = inr l /\ id ∈ l /\ get s_add = get s)
  /\ (exists m l, get s_rem = Some (inr m) /\ members s_rem = inr l
        /\ m !! id = None /\ id ∉ l)
  /\ (exists m, get s_inv = Some (inr m) /\ m !! id = None
        /\ members s_inv = members s)
  /\ (forall other, other <> id -> other ∈ ids ->
      exists m0 m1 m2 l0 l1,
        get s = Some (inr m0) /\ get s_rem = Some (inr m1)
        /\ get s_inv = Some (inr m2)
        /\ m1 !! other = m0 !! other /\ m2 !! other = m0 !! other
        /\ members s = inr l0 /\ members s_rem = inr l1
        /\ (other ∈ l0 <-> other ∈ l1)).
Proof.
  intros get members s_set s_add s_rem s_inv.
  assert (Hmem : forall s', members s' = inr (redis.zset s').*1).
  { intros s'. subst members. cbn. by rewrite zrevrange_all. }
  assert (Hget : forall s', exists m, get s' = Some (inr m)
            /\ forall k, m !! k = if decide (k ∈ ids)
                 then redis.strings s' !! (redis.Prefix +:+ k) else None).
  { intros s'. apply (GetBatch_serve s' ids). }
  assert (Hrem : s_rem = redis.mkServer
            (delete (redis.Prefix +:+ id) (redis.strings s))
            (filter (fun p => p.1 <> id) (redis.zset s))).
  { subst s_rem. unfold redis.Remove, ffinal, op.
    cbn [frun redis.serve fst snd foldl redis.apply_cmd].
    rewrite (decide_True (P := redis.SetKey = redis.SetKey)) by done.
    cbn [redis.strings redis.zset].
    by rewrite (decide_False (P := redis.Prefix +:+ id = redis.SetKey))
      by apply prefix_not_set_key. }
  assert (Hinv : s_inv = redis.mkServer
            (delete (redis.Prefix +:+ id) (redis.strings s)) (redis.zset s)).
  { subst s_inv. unfold redis.Invalidate, ffinal, op.
    cbn [frun redis.serve fst snd redis.apply_cmd].
    by rewrite (decide_False (P := redis.Prefix +:+ id = redis.SetKey))
      by apply prefix_not_set_key. }
  split_and!.
  - destruct (Hget s_set) as (m & Hm & Hlook). exists m. split; [done|].
    split.
    + intros Hin. rewrite Hlook, decide_True by done.
      subst s_set. cbn. by rewrite lookup_insert_eq.
    + by rewrite !Hmem.
  - exists (redis.zset s_add).*1. split; [apply Hmem|]. split.
    + subst s_add. unfold redis.AddToSet, ffinal, op.
      cbn [frun redis.serve fst snd foldl redis.apply_cmd].
      rewrite (decide_True (P := redis.SetKey = redis.SetKey)) by done.
      cbn [redis.zset].
      unfold mem.zadd. apply zinsert_elem. by left.
    + destruct (Hget s_add) as (m & Hm & Hlook).
      destruct (Hget s) as (m0 & Hm0 & Hlook0).
      rewrite Hm, Hm0. do 2 f_equal. apply map_eq. intros k.
      rewrite Hlook, Hlook0. subst s_add. unfold redis.AddToSet, ffinal, op.
      cbn [frun redis.serve fst snd foldl redis.apply_cmd].
      by rewrite (decide_True (P := redis.SetKey = redis.SetKey)) by done.
  - destruct (Hget s_rem) as (m & Hm & Hlook).
    exists m, (redis.zset s_rem).*1. split; [done|].
    split; [apply Hmem|]. split.
    + rewrite Hlook, Hrem. cbn [redis.strings].
      rewrite lookup_delete_eq. by case_decide.
    + rewrite Hrem. cbn [redis.zset]. rewrite filter_fst_elem. tauto.
  - destruct (Hget s_inv) as (m & Hm & Hlook). exists m. split; [done|].
    split.
    + rewrite Hlook, Hinv. cbn [redis.strings].
      rewrite lookup_delete_eq. by case_decide.
    + rewrite !Hmem. by rewrite Hinv.
  - intros other Hne Hin.
    destruct (Hget s) as (m0 & Hm0 & Hlook0).
    destruct (Hget s_rem) as (m1 & Hm1 & Hlook1).
    destruct (Hget s_inv) as (m2 & Hm2 & Hlook2).
    exists m0, m1, m2, (redis.zset s).*1, (redis.zset s_rem).*1.
    assert (redis.Prefix +:+ id <> redis.Prefix +:+ other) as Hk.
    { intros Heq%prefix_inj. by subst. }
    split_and!; try done; try apply Hmem.
    + rewrite Hlook1, Hlook0, Hrem. cbn [redis.strings].
      by rewrite lookup_delete_ne by done.
    + rewrite Hlook2, Hlook0, Hinv. cbn [redis.strings].
      by rewrite lookup_delete_ne by done.
    + rewrite Hrem. cbn [redis.zset]. rewrite filter_fst_elem. tauto.
Qed.

(** ** The instrumented cache *)

Lemma size_within (ids : list string) (m : gmap string (list byte)) :
  batch_within ids (inr m) -> (size m <= length ids)%nat.
Proof.
  intros Hin. rewrite <- length_map_to_list.
  rewrite <- (length_fmap fst (map_to_list m)).
  apply submseteq_length, NoDup_submseteq.
  - apply NoDup_fst_map_to_list.
  - intros k ([k' v] & -> & Hkv%elem_of_map_to_list)%list_elem_of_fmap.
    apply Hin. by exists v.
Qed.

Section Instrumented.
Context {W : Type}.
Variable handle :
  forall c : observability.MetricCall, W -> observability.MetricResp c * W.

(** X19. [InstrumentedCache.GetBatch] calls the wrapped cache once with
    the same ids.  When that fails it returns the error and no counter
    moves.  When the answer has no more entries than ids were asked for
    -- as every answer within the requested ids has -- it returns the
    answer unchanged, after the hit counter grew by the number of entries
    found and the miss counter by the rest, the two together by the
    number of ids asked for.  When the answer has more entries than ids
    were asked for, the call panics instead of returning: the hit
    counter has grown, the miss counter has not. *)
Theorem InstrumentedCache_GetBatch (ids : list string) (w : W) :
  let inner := observability.Inner (CacheGetBatch ids) in
  let r := fanswer handle inner w in
  let tr := ftrace handle (observability.GetBatch ids) w in
  let res := fresult handle (observability.GetBatch ids) w in
  let hits n := observability.CounterAdd observability.cacheHits n in
  let misses n := observability.CounterAdd observability.cacheMisses n in
  (forall err, r = inl err -> res = Some (inl err) /\ fcalls tr = [inner])
  /\ (forall m, r = inr m -> (size m <= length ids)%nat ->
      res = Some (inr m)
      /\ fcalls tr
         = [inner; hits (Z.of_nat (size m));
            misses (Z.of_nat (length ids) - Z.of_nat (size m))]
      /\ observability.total observability.cacheHits tr
         + observability.total observability.cacheMisses tr
         = Z.of_nat (length ids)
      /\ 0 <= observability.total observability.cacheMisses tr)
  /\ (forall m, r = inr m -> (length ids < size m)%nat ->
      res = None
      /\ fcalls tr = [inner; hits (Z.of_nat (size m))])
  /\ (batch_within ids r -> res = Some r).
Proof.
  intros inner r tr res hits misses. subst tr res.
  unfold observability.GetBatch. fold inner. frun_simpl. fold r.
  destruct r as [err|m] eqn:Hr; frun_simpl.
  - split_and!; [by intros ? [= <-]|by intros ? [=]|by intros ? [=]|done].
  - split_and!.
    + by intros ? [=].
    + intros ? [= <-] Hle. rewrite decide_False by lia. frun_simpl.
      split; [done|]. split; [done|]. cbn.
      rewrite
        !(decide_True
            (P := observability.cacheHits = observability.cacheHits)),
        !(decide_True
            (P := observability.cacheMisses = observability.cacheMisses)),
        !(decide_False
            (P := observability.cacheMisses = observability.cacheHits)),
        !(decide_False
            (P := observability.cacheHits = observability.cacheMisses))
        by done.
      lia.
    + intros ? [= <-] Hlt. rewrite decide_True by lia. by frun_simpl.
    + intros Hin. apply (size_within ids m) in Hin.
      rewrite decide_False by lia. by frun_simpl.
Qed.

End Instrumented.

(** ** The Store adapter *)

Lemma Validate_variant_type (a : Asset) :
  Validate a = None -> GetType a = variant_type a.
Proof.
  rewrite Validate_dispatch.
  destruct (ValidateCommon (base a) (variant_type a)) eqn:Hcommon; [done|].
  intros _. apply ValidateCommon_None in Hcommon. apply Hcommon.
Qed.

Lemma pg_yields_app (t1 t2 : list (sigT postgres.PgResp)) :
  postgres.pg_yields (t1 ++ t2)
  = postgres.pg_yields t1 ++ postgres.pg_yields t2.
Proof.
  induction t1 as [|[c r] t1 IH]; [done|].
  destruct c; cbn; by rewrite ?IH.
Qed.

Lemma pg_answers_app (t1 t2 : list (sigT postgres.PgResp)) :
  postgres.pg_answers (t1 ++ t2)
  = postgres.pg_answers t1 ++ postgres.pg_answers t2.
Proof.
  induction t1 as [|[c r] t1 IH]; [done|].
  destruct c; cbn; by rewrite ?IH.
Qed.

Lemma consumed_nil : postgres.consumed [] [].
Proof.
  split_and!; try done. intros pre post Heq. by destruct pre.
Qed.

Lemma consumed_last (item : AssetResult) (b : bool)
    (stream : list AssetResult) :
  (b = true -> stream = []) ->
  postgres.consumed (item :: stream) [existT (postgres.PgYield item) b].
Proof.
  intros Hb. split_and!; cbn.
  - done.
  - by exists stream.
  - intros Hall. apply Forall_cons_1 in Hall as [<- _]. by rewrite Hb.
  - intros pre post Heq.
    destruct pre as [|? [|??]]; cbn in Heq; by simplify_eq.
Qed.

Lemma consumed_cons (item : AssetResult) (stream : list AssetResult)
    (tr : list (sigT postgres.PgResp)) :
  postgres.consumed stream tr ->
  postgres.consumed (item :: stream)
    (existT (postgres.PgYield item) true :: tr).
Proof.
  intros (Hcalls & Hpre & Hall & Hstop). split_and!.
  - change (postgres.PgYield item :: fcalls tr
            = postgres.PgYield item
                :: (postgres.PgYield <$> postgres.pg_yields tr)).
    by rewrite Hcalls.
  - by apply (prefix_app [item]).
  - cbn. intros Htrue. apply Forall_cons_1 in Htrue as [_ Htrue].
    by rewrite Hall.
  - cbn. intros pre post Heq. destruct pre as [|b pre]; [done|].
    injection Heq as _ Heq. by eapply Hstop.
Qed.

Lemma upto_error_error (item : AssetResult) (rest : list AssetResult)
    (err : error) :
  item.2 = Some err -> postgres.upto_error (item :: rest) = [item].
Proof. intros Herr. cbn. by rewrite Herr. Qed.

Lemma upto_error_asset (item : AssetResult) (rest : list AssetResult) :
  item.2 = None ->
  postgres.upto_error (item :: rest) = item :: postgres.upto_error rest.
Proof. intros Herr. cbn. by rewrite Herr. Qed.

Section Repository.
Context `{JSON} {W : Type}.
Variable handle : forall c : postgres.PgCall, W -> postgres.PgResp c * W.

Lemma FindAll_rows_consumed (rows : list (error + postgres.Row2))
    (rowsErr : option error) (w : W) :
  postgres.consumed
    (postgres.rows_items postgres.item2
       (fun err => Errorf "rows iteration error: " err "")
       (postgres.mkCursor rows rowsErr))
    (ftrace handle (postgres.FindAll_rows rows rowsErr) w).
Proof.
  unfold postgres.rows_items. cbn [postgres.fetched postgres.rowsErr].
  revert w. induction rows as [|scan rest IH]; intros w.
  - destruct rowsErr as [err|]; cbn [postgres.FindAll_rows fmap list_fmap app].
    + frun_simpl. erewrite upto_error_error by done.
      by apply consumed_last.
    + apply consumed_nil.
  - cbn [postgres.FindAll_rows fmap list_fmap app].
    destruct scan as [err|[typeStr data]].
    + frun_simpl. erewrite upto_error_error by done. by apply consumed_last.
    + unfold postgres.item2 at 1.
      destruct (postgres.unmarshalAsset typeStr data) as [asset [err|]].
      * frun_simpl. erewrite upto_error_error by done.
        by apply consumed_last.
      * frun_simpl. rewrite upto_error_asset by done.
        destruct (fanswer handle (postgres.PgYield (asset, None)) w).
        -- apply consumed_cons, IH.
        -- frun_simpl. by apply consumed_last.
Qed.

Lemma FindByUser_rows_consumed (rows : list (error + postgres.Row3))
    (rowsErr : option error) (w : W) :
  postgres.consumed
    (postgres.rows_items postgres.item3 (fun err => err)
       (postgres.mkCursor rows rowsErr))
    (ftrace handle (postgres.FindByUser_rows rows rowsErr) w).
Proof.
  unfold postgres.rows_items. cbn [postgres.fetched postgres.rowsErr].
  revert w. induction rows as [|scan rest IH]; intros w.
  - destruct rowsErr as [err|];
      cbn [postgres.FindByUser_rows fmap list_fmap app].
    + frun_simpl. erewrite upto_error_error by done.
      by apply consumed_last.
    + apply consumed_nil.
  - cbn [postgres.FindByUser_rows fmap list_fmap app].
    destruct scan as [err|[[id typeStr] data]].
    + frun_simpl. erewrite upto_error_error by done. by apply consumed_last.
    + unfold postgres.item3 at 1.
      destruct (postgres.unmarshalAsset typeStr data) as [asset [err|]].
      * frun_simpl. erewrite upto_error_error by done.
        by apply consumed_last.
      * frun_simpl. rewrite upto_error_asset by done.
        destruct (fanswer handle (postgres.PgYield (asset, None)) w).
        -- apply consumed_cons, IH.
        -- frun_simpl. by apply consumed_last.
Qed.

(** X20. The iterators that [FindAll] and [FindByUser] return close the
    rows exactly once, as their last step, however the loop ends.  Before
    that they only call [yield]: with the rows' items in order, each scan
    or decoding failure as an error item, the rows' own error after the
    last row; nothing follows an error item, and nothing follows an item
    at which the consumer asked to stop. *)
Theorem Repository_iterators (rows2 : postgres.Cursor postgres.Row2)
    (rows3 : postgres.Cursor postgres.Row3) (w : W) :
  (exists tr,
     ftrace handle (postgres.FindAll_iter rows2) w
     = tr ++ [existT postgres.RowsClose ()]
     /\ postgres.consumed
          (postgres.rows_items postgres.item2
             (fun err => Errorf "rows iteration error: " err "") rows2) tr)
  /\ (exists tr,
        ftrace handle (postgres.FindByUser_iter rows3) w
        = tr ++ [existT postgres.RowsClose ()]
        /\ postgres.consumed
             (postgres.rows_items postgres.item3 (fun err => err) rows3) tr).
Proof.
  split.
  - destruct rows2 as [rows rowsErr].
    exists (ftrace handle (postgres.FindAll_rows rows rowsErr) w).
    split; [|apply FindAll_rows_consumed].
    unfold postgres.FindAll_iter. cbn [postgres.fetched postgres.rowsErr].
    frun_simpl. f_equal. f_equal. by destruct (fanswer _ _ _).
  - destruct rows3 as [rows rowsErr].
    exists (ftrace handle (postgres.FindByUser_rows rows rowsErr) w).
    split; [|apply FindByUser_rows_consumed].
    unfold postgres.FindByUser_iter. cbn [postgres.fetched postgres.rowsErr].
    frun_simpl. f_equal. f_equal. by destruct (fanswer _ _ _).
Qed.

(** X21. Reading a row gives the same asset from the Store as from the
    cache whenever the row's type column holds the type named inside its
    JSON: for the three known types [unmarshalAsset] and the service's
    [unmarshal] return the same asset or the same decoding error.  For
    any other type both fail, with different messages. *)
Theorem unmarshalAsset_agrees (t : string) (data : list byte)
    (b : BaseAsset) :
  UnmarshalBase data = inr b -> Type_ b = t ->
  (t ∈ [AssetTypeChart; AssetTypeInsight; AssetTypeAudience] ->
   postgres.unmarshalAsset t data = unmarshal data)
  /\ (t ∉ [AssetTypeChart; AssetTypeInsight; AssetTypeAudience] ->
      postgres.unmarshalAsset t data
      = (None, Some (New ("unknown asset type: " +:+ t)))
      /\ unmarshal data = (None, Some (New ("unknown type: " +:+ t)))).
Proof.
  intros Hbase <-. unfold postgres.unmarshalAsset, unmarshal. rewrite Hbase.
  split.
  - intros Hin. rewrite !elem_of_cons, elem_of_nil in Hin.
    repeat case_decide; try done. tauto.
  - intros Hnot. rewrite !not_elem_of_cons in Hnot.
    destruct Hnot as (? & ? & ? & _). by rewrite !decide_False by done.
Qed.

(** X22. What [Save] writes, [FindByID] reads back.  For an asset that
    passes validation, [Save] sends one insert with the asset's id, type,
    JSON and owner, and succeeds when the insert does; when the codec
    decodes that JSON back to the asset, [FindByID] on the row holding
    this type and JSON returns the asset, and so does the service's
    [unmarshal] on the same JSON once its type header decodes. *)
Theorem Save_FindByID_round_trip (asset : Asset) (data : list byte)
    (w w' : W) :
  Validate asset = None ->
  Marshal asset = inr data ->
  postgres.decodes asset data ->
  let insert :=
    postgres.Exec postgres.InsertFavorite
      [postgres.AStr (GetID asset); postgres.AStr (GetType asset);
       postgres.ABytes data; postgres.AStr (GetUserID asset)] in
  let select :=
    postgres.QueryRowScan postgres.SelectByID
      [postgres.AStr (GetID asset)] in
  fcalls (ftrace handle (postgres.Save asset) w) = [insert]
  /\ (forall n, fanswer handle insert w = inr n ->
      fresult handle (postgres.Save asset) w = None)
  /\ (fanswer handle select w' = inr (GetType asset, data) ->
      fcalls (ftrace handle (postgres.FindByID (GetID asset)) w') = [select]
      /\ fresult handle (postgres.FindByID (GetID asset)) w'
         = (Some asset, None))
  /\ (UnmarshalBase data = inr (base asset) ->
      unmarshal data = (Some asset, None)).
Proof.
  intros Hvalid Hmarshal Hdec insert select.
  assert (Htype : GetType asset = variant_type asset).
  { by apply Validate_variant_type. }
  assert (Hrow : postgres.unmarshalAsset (GetType asset) data
                 = (Some asset, None)).
  { rewrite Htype. unfold postgres.unmarshalAsset.
    destruct asset; cbn in Hdec |- *; by rewrite ?Hdec. }
  split_and!.
  - unfold postgres.Save. rewrite Hmarshal. fold insert. frun_simpl.
    by destruct (fanswer handle insert w).
  - intros n Hn. unfold postgres.Save. rewrite Hmarshal. fold insert.
    frun_simpl. by rewrite Hn.
  - intros Hsel. unfold postgres.FindByID. fold select. frun_simpl.
    rewrite Hsel. frun_simpl. by rewrite Hrow.
  - intros Hbase. unfold unmarshal. rewrite Hbase.
    change (Type_ (base asset)) with (GetType asset). rewrite Htype.
    destruct asset; cbn in Hdec |- *; by rewrite ?Hdec.
Qed.

End Repository.

(** ** The authentication service *)

Section Auth.
Context {W : Type}.
Variable handle :
  forall c : AuthService.AuthCall, W -> AuthService.AuthResp c * W.

(** X23. [Login] answers an unknown email and a wrong password alike:
    the empty token and the error "invalid credentials", with nothing
    signed and the clock not read.  Only when the stored hash matches the
    password does it sign, once, a token for that user's id that expires
    7200 seconds after the clock reading, and it returns what the signer
    gives. *)
Theorem Login_outcomes (jwtSecret email password : string) (w : W) :
  let find := AuthService.UserRepoFindByEmail email in
  let tr := ftrace handle (AuthService.Login jwtSecret email password) w in
  let res := fresult handle (AuthService.Login jwtSecret email password) w in
  let denied := ("", Some (New "invalid credentials")) in
  match fanswer handle find w with
  | inl _ => res = denied /\ fcalls tr = [find]
  | inr user =>
      let w1 := fafter handle find w in
      let compare :=
        AuthService.BcryptCompareHashAndPassword
          (auth.PasswordHash user) password in
      match fanswer handle compare w1 with
      | Some _ => res = denied /\ fcalls tr = [find; compare]
      | None =>
          let w2 := fafter handle compare w1 in
          let now := fanswer handle AuthService.TimeNowUnix w2 in
          let w3 := fafter handle AuthService.TimeNowUnix w2 in
          let sign :=
            AuthService.SignHS256 jwtSecret (auth.ID user) (now + 7200) in
          res = fanswer handle sign w3
          /\ fcalls tr = [find; compare; AuthService.TimeNowUnix; sign]
      end
  end.
Proof.
  cbv zeta. unfold AuthService.Login. frun_simpl.
  destruct (fanswer handle (AuthService.UserRepoFindByEmail email) w)
    as [err|user]; frun_simpl; [done|].
  destruct (fanswer handle (AuthService.BcryptCompareHashAndPassword _ _) _);
    frun_simpl; done.
Qed.

(** X24. [SignUp] hashes the password at the default cost, and when that
    fails returns the error without saving anything.  Otherwise it saves
    one user -- a fresh id, the email as given, the hash in place of the
    password -- and returns what the repository answers.  It does not
    validate: the saved user passes [User.Validate] only if the email
    and the generated id are not empty. *)
Theorem SignUp_outcomes (email password : string) (w : W) :
  let hash :=
    AuthService.BcryptGenerateFromPassword password
      AuthService.DefaultCost in
  let tr := ftrace handle (AuthService.SignUp email password) w in
  let res := fresult handle (AuthService.SignUp email password) w in
  match fanswer handle hash w with
  | inl err => res = Some err /\ fcalls tr = [hash]
  | inr hashed =>
      let w1 := fafter handle hash w in
      let id := fanswer handle AuthService.UuidNew w1 in
      let w2 := fafter handle AuthService.UuidNew w1 in
      let user := auth.mkUser id email hashed in
      res = fanswer handle (AuthService.UserRepoSave user) w2
      /\ fcalls tr
         = [hash; AuthService.UuidNew; AuthService.UserRepoSave user]
      /\ (auth.Validate user = None <-> id <> "" /\ email <> "")
  end.
Proof.
  cbv zeta. unfold AuthService.SignUp. frun_simpl.
  destruct (fanswer handle (AuthService.BcryptGenerateFromPassword _ _) w)
    as [err|hashed]; frun_simpl; [done|].
  split; [done|]. split; [done|].
  unfold auth.Validate. cbn [auth.ID auth.Email].
  repeat case_decide; split; try done; tauto.
Qed.

End Auth.

(** ** The HTTP handlers *)

Lemma statuses_app (t1 t2 : list handler.HttpEvent) :
  handler.statuses (t1 ++ t2) = handler.statuses t1 ++ handler.statuses t2.
Proof.
  induction t1 as [|[c r] t1 IH]; [done|]. destruct c; cbn; by rewrite ?IH.
Qed.

Lemma encoded_app (t1 t2 : list handler.HttpEvent) :
  handler.encoded (t1 ++ t2) = handler.encoded t1 ++ handler.encoded t2.
Proof.
  induction t1 as [|[c r] t1 IH]; [done|]. destruct c; cbn; by rewrite ?IH.
Qed.

Lemma ports_called_app (t1 t2 : list handler.HttpEvent) :
  handler.ports_called (t1 ++ t2)
  = handler.ports_called t1 ++ handler.ports_called t2.
Proof.
  induction t1 as [|[c r] t1 IH]; [done|].
  destruct c as [c| | |]; cbn; rewrite ?IH; [|done..].
  by destruct (is_log c).
Qed.

Lemma statuses_port (tr : list Event) :
  handler.statuses (handler.port_event <$> tr) = [].
Proof. induction tr as [|[c r] tr IH]; [done|]. exact IH. Qed.

Lemma encoded_port (tr : list Event) :
  handler.encoded (handler.port_event <$> tr) = [].
Proof. induction tr as [|[c r] tr IH]; [done|]. exact IH. Qed.

Lemma ports_called_port (tr : list Event) :
  handler.ports_called (handler.port_event <$> tr) = port_calls tr.
Proof.
  induction tr as [|[c r] tr IH]; [done|].
  unfold port_calls in *. cbn. destruct (is_log c); cbn; by rewrite IH.
Qed.

Section Handlers.
Context `{JSON} {W : Type}.
Variable handle :
  forall c : handler.HttpCall, W -> handler.HttpResp c * W.

Abbreviation ph := (handler.port_handle handle).

(** A method of the service runs inside a handler as it runs on its own
    over the handler's ports. *)
Lemma lift_run {A : Type} (p : Prog A) (w : W) :
  frun handle (handler.lift p) w
  = (result ph p w, final ph p w, handler.port_event <$> trace ph p w).
Proof.
  revert w. induction p as [a|c k IH]; intros w; [done|].
  cbn [handler.lift]. rewrite frun_eta, fresult_Op, ffinal_Op, ftrace_Op.
  unfold fresult, ffinal, ftrace. rewrite IH. cbn [fst snd].
  by rewrite result_Do, final_Do, trace_Do.
Qed.

Lemma fresult_lift {A : Type} (p : Prog A) (w : W) :
  fresult handle (handler.lift p) w = result ph p w.
Proof. unfold fresult. by rewrite lift_run. Qed.

Lemma ffinal_lift {A : Type} (p : Prog A) (w : W) :
  ffinal handle (handler.lift p) w = final ph p w.
Proof. unfold ffinal. by rewrite lift_run. Qed.

Lemma ftrace_lift {A : Type} (p : Prog A) (w : W) :
  ftrace handle (handler.lift p) w = handler.port_event <$> trace ph p w.
Proof. unfold ftrace. by rewrite lift_run. Qed.

Lemma respondError_refused (code : Z) (err : error) (w : W) :
  handler.refused_with code (Error err)
    (ftrace handle (handler.respondError code err) w).
Proof.
  unfold handler.respondError. frun_simpl.
  by destruct (fanswer handle (handler.Encode _) _); frun_simpl.
Qed.

End Handlers.

#[global] Hint Rewrite @fresult_lift @ffinal_lift @ftrace_lift : frun.
#[global] Hint Rewrite statuses_app encoded_app ports_called_app
  statuses_port encoded_port ports_called_port : frun.

Lemma Validate_error_wraps (a : Asset) (err : error) :
  Validate a = Some err -> Is err ErrValidation = true.
Proof.
  rewrite Validate_dispatch, ValidateCommon_rules, <- first_violation_app.
  apply first_violation_wraps.
  destruct a; unfold shared_rules; cbn [variant_rules app];
    repeat constructor.
Qed.

Lemma parseAsset_owner `{JSON} (uuid : string) (data : list byte)
    (assetType : AssetType) (userID : string) (asset : Asset) :
  rest.parseAsset uuid data assetType userID = (Some asset, None) ->
  GetUserID asset = userID.
Proof.
  unfold rest.parseAsset.
  repeat case_decide; try done;
    match goal with
    | |- context [match ?d with _ => _ end] => destruct d
    end; try done; by intros [= <-].
Qed.

(** Splits the run of a handler at the service method it calls. *)
Ltac lift_step :=
  rewrite ftrace_bind, ?fresult_lift, ?ffinal_lift, ?ftrace_lift,
    ?statuses_app, ?encoded_app, ?ports_called_app,
    ?statuses_port, ?encoded_port, ?ports_called_port.

Section HandlerTheorems.
Context `{JSON} {W : Type}.
Variable handle :
  forall c : handler.HttpCall, W -> handler.HttpResp c * W.

Abbreviation ph := (handler.port_handle handle).

Lemma refused_after_log (code : Z) (err : error) (msg : string) (w : W) :
  handler.refused_with code (Error err)
    (ftrace handle
       (fbind (op (R := handler.HttpResp) (handler.Port (Log LError msg)))
          (fun _ => handler.respondError code err)) w).
Proof.
  frun_simpl.
  destruct (respondError_refused handle code err
              (fafter handle (handler.Port (Log LError msg)) w))
    as (Hs & He & Hp).
  split_and!; cbn; done.
Qed.

(** X25. Without an authenticated caller -- no user id in the request
    context, or an empty one -- [Create], [List], [Delete] and
    [UpdateDescription] answer 401 with the error "unauthorized" and
    touch no port of the service, whatever else the request holds. *)
Theorem handlers_unauthorized (ctxUser : option string)
    (decoded : error + (AssetType * list byte)) (uuid id : string)
    (Atoi : string -> Z * option error) (query : string -> string)
    (description : error + string) (w : W) :
  ctxUser = None \/ ctxUser = Some "" ->
  let refused :=
    handler.refused_with handler.StatusUnauthorized "unauthorized" in
  refused (ftrace handle (handler.Create ctxUser decoded uuid) w)
  /\ refused (ftrace handle (handler.List ctxUser Atoi query) w)
  /\ refused (ftrace handle (handler.Delete ctxUser id) w)
  /\ refused
       (ftrace handle (handler.UpdateDescription ctxUser id description) w).
Proof.
  intros [-> | ->]; cbn zeta; split_and!;
    apply (respondError_refused handle handler.StatusUnauthorized
             (New "unauthorized")).
Qed.

(** X26. [Get] answers 400 "missing id" without touching a port when
    the path holds no id.  Otherwise it runs the service's [FindByID] and
    nothing else on the ports; every error of the service -- a missing
    asset as well as a failing Store or an undecodable cache entry --
    becomes 404 with the error's text, and a found asset is encoded
    without an explicit status. *)
Theorem Get_statuses (id : string) (w : W) :
  let tr := ftrace handle (handler.Get id) w in
  (id = "" ->
   handler.refused_with handler.StatusBadRequest "missing id" tr)
  /\ (id <> "" ->
      handler.ports_called tr
      = port_calls (trace ph (service.FindByID id) w)
      /\ match result ph (service.FindByID id) w with
         | (_, Some err) =>
             handler.statuses tr = [handler.StatusNotFound]
             /\ handler.encoded tr = [handler.BError (Error err)]
         | (asset, None) =>
             handler.statuses tr = []
             /\ handler.encoded tr = [handler.BAsset asset]
         end).
Proof.
  cbn zeta. unfold handler.Get. split.
  - intros ->. apply (respondError_refused handle _ (New "missing id")).
  - intros Hid. rewrite decide_False by done. lift_step.
    destruct (result ph (FindByID id) w) as [asset [err|]].
    + destruct (refused_after_log handler.StatusNotFound err
                  "failed to find asset" (final ph (FindByID id) w))
        as (Hs & He & Hp).
      rewrite Hs, He, Hp. by rewrite app_nil_r.
    + frun_simpl. cbn. by rewrite app_nil_r.
Qed.

Lemma written_status (code : Z) (w : W) :
  let tr :=
    ftrace handle (op (R := handler.HttpResp) (handler.WriteHeader code)) w in
  handler.statuses tr = [code]
  /\ handler.encoded tr = [] /\ handler.ports_called tr = [].
Proof. by frun_simpl. Qed.

(** X27. For an authenticated caller [Delete] runs the service's
    [Delete] and nothing else on the ports.  It answers 204 without a
    body when the service succeeds, 403 when the service's error reads
    "forbidden: you do not own this asset", and 500 for every other
    error.  So a caller who does not own the asset gets 403 after a
    single Store read; an asset the Store does not have gives 500, not
    404; and a cache removal that fails gives 500 although the Store has
    already deleted the row. *)
Theorem Delete_statuses (userID id : string) (w : W) :
  userID <> "" ->
  let tr := ftrace handle (handler.Delete (Some userID) id) w in
  let forbidden := "forbidden: you do not own this asset" in
  let w1 := after ph (RepoFindByID id) w in
  handler.ports_called tr = port_calls (trace ph (service.Delete id userID) w)
  /\ match result ph (service.Delete id userID) w with
     | None =>
         handler.statuses tr = [handler.StatusNoContent]
         /\ handler.encoded tr = []
     | Some err =>
         handler.statuses tr
         = [if decide (Error err = forbidden) then handler.StatusForbidden
            else handler.StatusInternalServerError]
         /\ handler.encoded tr = [handler.BError (Error err)]
     end
  /\ (forall asset,
        answer ph (RepoFindByID id) w = inr asset ->
        GetUserID asset <> userID ->
        handler.statuses tr = [handler.StatusForbidden]
        /\ handler.ports_called tr = [RepoFindByID id])
  /\ (forall err,
        answer ph (RepoFindByID id) w = inl err ->
        Error err <> forbidden ->
        handler.statuses tr = [handler.StatusInternalServerError]
        /\ handler.ports_called tr = [RepoFindByID id])
  /\ (forall asset err,
        answer ph (RepoFindByID id) w = inr asset ->
        GetUserID asset = userID ->
        answer ph (RepoDelete id) w1 = None ->
        answer ph (CacheRemove id) (after ph (RepoDelete id) w1) = Some err ->
        Error err <> forbidden ->
        handler.statuses tr = [handler.StatusInternalServerError]
        /\ handler.ports_called tr
           = [RepoFindByID id; RepoDelete id; CacheRemove id]).
Proof.
  intros Huser tr forbidden w1.
  assert (Hports : handler.ports_called tr
                   = port_calls (trace ph (service.Delete id userID) w)).
  { subst tr. unfold handler.Delete. rewrite decide_False by done. lift_step.
    destruct (result ph (service.Delete id userID) w) as [err|].
    - case_decide;
        destruct (respondError_refused handle handler.StatusForbidden err
                    (final ph (service.Delete id userID) w)) as (_ & _ & Hp);
        destruct (respondError_refused handle
                    handler.StatusInternalServerError err
                    (final ph (service.Delete id userID) w)) as (_ & _ & Hp');
        rewrite ?Hp, ?Hp'; by rewrite app_nil_r.
    - frun_simpl. cbn. by rewrite app_nil_r. }
  assert (Hstatus :
    match result ph (service.Delete id userID) w with
    | None =>
        handler.statuses tr = [handler.StatusNoContent]
        /\ handler.encoded tr = []
    | Some err =>
        handler.statuses tr
        = [if decide (Error err = forbidden) then handler.StatusForbidden
           else handler.StatusInternalServerError]
        /\ handler.encoded tr = [handler.BError (Error err)]
    end).
  { subst tr. unfold handler.Delete. rewrite decide_False by done. lift_step.
    destruct (result ph (service.Delete id userID) w) as [err|].
    - fold forbidden. case_decide.
      + by destruct (respondError_refused handle handler.StatusForbidden err
                       (final ph (service.Delete id userID) w))
          as (-> & -> & _).
      + by destruct (respondError_refused handle
                       handler.StatusInternalServerError err
                       (final ph (service.Delete id userID) w))
          as (-> & -> & _).
    - by frun_simpl. }
  split; [exact Hports|]. split; [exact Hstatus|].
  rewrite Hports. clear Hports. unfold service.Delete in *. split_and!.
  - intros asset Hans Howner. revert Hstatus. run_simpl. rewrite Hans.
    rewrite decide_True by done. run_simpl. intros [-> _].
    by rewrite decide_True by done.
  - intros err Hans Herr. revert Hstatus. run_simpl. rewrite Hans.
    run_simpl. intros [-> _]. by rewrite decide_False by done.
  - intros asset err Hans Howner Hdel Hrem Herr. revert Hstatus. run_simpl.
    rewrite Hans. rewrite decide_False by (by intros []).
    run_simpl. fold w1. rewrite Hdel. run_simpl. rewrite Hrem.
    intros [-> _]. by rewrite decide_False by done.
Qed.

(** X28. For an authenticated caller [Create] refuses a body that does
    not decode or parse with 400 and touches no port.  A parsed asset
    belongs to the caller.  If it fails validation the answer is 400
    with the service's error and no port is touched; if the Store's save
    fails the answer is 500 -- or 400 should the Store's error itself
    wrap [ErrValidation] -- after that single Store call; otherwise the
    answer is 201 with the parsed asset as body, the Store's save being
    the first port call. *)
Theorem Create_statuses (userID uuid : string)
    (decoded : error + (AssetType * list byte)) (w : W) :
  userID <> "" ->
  let tr := ftrace handle (handler.Create (Some userID) decoded uuid) w in
  match decoded with
  | inl err => handler.refused_with handler.StatusBadRequest (Error err) tr
  | inr (type, raw) =>
      match rest.parseAsset uuid raw type userID with
      | (_, Some err) =>
          handler.refused_with handler.StatusBadRequest (Error err) tr
      | (None, None) => True
      | (Some asset, None) =>
          GetUserID asset = userID
          /\ match Validate asset with
             | Some verr =>
                 handler.refused_with handler.StatusBadRequest
                   (Error (Errorf "validation failed: " verr "")) tr
             | None =>
                 match answer ph (RepoSave asset)
                         (after ph (Log LInfo "saving asset") w) with
                 | Some err =>
                     handler.statuses tr
                     = [if Is err ErrValidation
                        then handler.StatusBadRequest
                        else handler.StatusInternalServerError]
                     /\ handler.encoded tr
                        = [handler.BError
                             (Error (Errorf "failed to save to db: " err ""))]
                     /\ handler.ports_called tr = [RepoSave asset]
                 | None =>
                     handler.statuses tr = [handler.StatusCreated]
                     /\ handler.encoded tr = [handler.BAsset (Some asset)]
                     /\ head (handler.ports_called tr)
                        = Some (RepoSave asset)
                 end
             end
      end
  end.
Proof.
  intros Huser tr. subst tr. unfold handler.Create.
  rewrite decide_False by done. destruct decoded as [err|[type raw]].
  { apply respondError_refused. }
  destruct (rest.parseAsset uuid raw type userID) as [[asset|] [err|]]
    eqn:Hparse; [apply respondError_refused| |apply respondError_refused|done].
  split; [by eapply parseAsset_owner|]. lift_step.
  unfold service.Save. run_simpl.
  destruct (Validate asset) as [verr|] eqn:Hvalid.
  - run_simpl. cbn [port_calls calls map List.filter is_log negb app].
    assert (Is (Errorf "validation failed: " verr "") ErrValidation = true)
      as ->.
    { cbn [Is]. rewrite (Validate_error_wraps asset verr Hvalid).
      apply orb_true_r. }
    destruct (refused_after_log handler.StatusBadRequest
                (Errorf "validation failed: " verr "")
                "failed to save asset"
                (after ph (Log LInfo "saving asset") w)) as (Hs & He & Hp).
    split_and!; [exact Hs|exact He|exact Hp].
  - run_simpl.
    destruct (answer ph (RepoSave asset)
                (after ph (Log LInfo "saving asset") w)) as [err|] eqn:Hsave.
    + run_simpl.
      replace (Is (Errorf "failed to save to db: " err "") ErrValidation)
        with (Is err ErrValidation) by done.
      cbn [port_calls calls map projT1 ev List.filter is_log negb app].
      destruct (Is err ErrValidation).
      * destruct (refused_after_log handler.StatusBadRequest
                    (Errorf "failed to save to db: " err "")
                    "failed to save asset"
                    (after ph (RepoSave asset)
                       (after ph (Log LInfo "saving asset") w)))
          as (Hs & He & Hp).
        rewrite Hs, He, Hp. done.
      * destruct (refused_after_log handler.StatusInternalServerError
                    (Errorf "failed to save to db: " err "")
                    "failed to save asset"
                    (after ph (RepoSave asset)
                       (after ph (Log LInfo "saving asset") w)))
          as (Hs & He & Hp).
        rewrite Hs, He, Hp. done.
    + run_simpl. rewrite enrichAndSaveCache_result. cbn [snd].
      run_simpl. frun_simpl.
      destruct (fanswer handle (handler.Encode _) _); frun_simpl;
        cbn [port_calls calls map projT1 ev List.filter is_log negb app
             handler.statuses handler.encoded handler.ports_called head];
        done.
Qed.

Lemma stream_cons (it : RepoItem) (items : list RepoItem) (w : W) :
  ftrace handle (handler.streamResponse (repoSeq (it :: items))) w
  = ftrace handle (handler.streamBody (item_of it)) w
    ++ (if fresult handle (handler.streamBody (item_of it)) w
        then ftrace handle (handler.streamResponse (repoSeq items))
               (ffinal handle (handler.streamBody (item_of it)) w)
        else []).
Proof.
  unfold handler.streamResponse, repoSeq. cbn [range_items].
  destruct it as [err|asset]; cbn [bind call handler.range handler.as_yield];
    rewrite ftrace_bind; cbn [item_of];
    by destruct (fresult handle (handler.streamBody _) w).
Qed.

Lemma streamResponse_shape (items : list RepoItem) (w : W) :
  let tr := ftrace handle (handler.streamResponse (repoSeq items)) w in
  let all := handler.BAsset ∘ Some <$> handler.leading_assets items in
  handler.statuses tr = []
  /\ handler.ports_called tr = []
  /\ handler.encoded tr `prefix_of` all
  /\ ((forall v w', fanswer handle (handler.Encode v) w' = None) ->
      handler.encoded tr = all).
Proof.
  cbn zeta. revert w. induction items as [|it items IH]; intros w.
  - split_and!; done.
  - rewrite stream_cons. destruct it as [err|asset]; cbn [item_of].
    + unfold handler.streamBody. frun_simpl.
      cbn. split_and!; done.
    + unfold handler.streamBody. frun_simpl.
      cbn [handler.leading_assets fmap list_fmap].
      destruct (fanswer handle (handler.Encode _) w) as [err|] eqn:Hans;
        frun_simpl.
      * cbn. split_and!; try done.
        -- apply prefix_cons, prefix_nil.
        -- intros Hnever. by rewrite Hnever in Hans.
      * destruct (IH (fafter handle
                        (handler.Encode (handler.BAsset (Some asset))) w))
          as (Hs & Hp & Hpre & Hall).
        cbn [handler.statuses handler.encoded handler.ports_called app].
        rewrite Hs, Hp. split_and!; try done.
        -- by apply prefix_cons.
        -- intros Hnever. by rewrite Hall.
Qed.

(** X29. For an authenticated caller [List] asks the Store once, for
    the caller's rows with a limit between 1 and 1000, and touches no
    other port.  A Store error gives 500.  Otherwise the answer is 200
    followed by the rows' assets in order, one encoded body each, up to
    the first row that carries an error or the first failing write; a
    failure in mid-stream changes neither the status nor adds an error
    body.  With a writer that never fails, every asset before the first
    error row is written. *)
Theorem List_streams (userID : string) (Atoi : string -> Z * option error)
    (query : string -> string) (w : W) :
  userID <> "" ->
  let p := rest.NewPagination Atoi query in
  let find := RepoFindByUser userID (rest.Limit p) (rest.Offset p) in
  let tr := ftrace handle (handler.List (Some userID) Atoi query) w in
  handler.ports_called tr = [find]
  /\ 1 <= rest.Limit p <= 1000
  /\ match answer ph find w with
     | inl err =>
         handler.statuses tr = [handler.StatusInternalServerError]
         /\ handler.encoded tr = [handler.BError (Error err)]
     | inr items =>
         let all := handler.BAsset ∘ Some <$> handler.leading_assets items in
         handler.statuses tr = [handler.StatusOK]
         /\ handler.encoded tr `prefix_of` all
         /\ ((forall v w', fanswer handle (handler.Encode v) w' = None) ->
             handler.encoded tr = all)
     end.
Proof.
  intros Huser p find tr.
  assert (Hlimit : 1 <= rest.Limit p <= 1000).
  { subst p. unfold rest.NewPagination. cbn [rest.Limit].
    repeat case_decide; lia. }
  split; [|split; [exact Hlimit|]]; subst tr; unfold handler.List;
    rewrite decide_False by done; cbv zeta; fold p; lift_step;
    unfold service.FindAllByUser; fold find; run_simpl;
    cbn [port_calls calls map projT1 ev List.filter is_log negb app];
    destruct (answer ph find w) as [err|items]; run_simpl.
  - destruct (respondError_refused handle
                handler.StatusInternalServerError err (after ph find w))
      as (_ & _ & ->). done.
  - frun_simpl.
    destruct (streamResponse_shape items
                (fafter handle (handler.WriteHeader handler.StatusOK)
                   (fafter handle
                      (handler.HeaderSet "Content-Type"
                         "application/x-ndjson") (after ph find w))))
      as (_ & Hp & _).
    cbn [handler.ports_called app]. by rewrite Hp.
  - by destruct (respondError_refused handle
                   handler.StatusInternalServerError err (after ph find w))
      as (-> & -> & _).
  - frun_simpl.
    destruct (streamResponse_shape items
                (fafter handle (handler.WriteHeader handler.StatusOK)
                   (fafter handle
                      (handler.HeaderSet "Content-Type"
                         "application/x-ndjson") (after ph find w))))
      as (Hs & _ & Hpre & Hall).
    cbn [handler.statuses handler.encoded app]. by rewrite Hs.
Qed.

(** X30. For an authenticated caller [UpdateDescription] refuses a body
    that does not decode with 400 and touches no port.  Otherwise it
    runs the service's [UpdateDescription] and nothing else on the
    ports, and answers 200 with the asset the service returns, 403 when
    the service's error reads "forbidden: you do not own this asset",
    and 500 for every other error, a missing asset included. *)
Theorem UpdateDescription_statuses (userID id : string)
    (decoded : error + string) (w : W) :
  userID <> "" ->
  let tr :=
    ftrace handle (handler.UpdateDescription (Some userID) id decoded) w in
  let forbidden := "forbidden: you do not own this asset" in
  match decoded with
  | inl err => handler.refused_with handler.StatusBadRequest (Error err) tr
  | inr description =>
      let update := service.UpdateDescription id description userID in
      handler.ports_called tr = port_calls (trace ph update w)
      /\ match result ph update w with
         | (_, Some err) =>
             handler.statuses tr
             = [if decide (Error err = forbidden)
                then handler.StatusForbidden
                else handler.StatusInternalServerError]
             /\ handler.encoded tr = [handler.BError (Error err)]
         | (asset, None) =>
             handler.statuses tr = [handler.StatusOK]
             /\ handler.encoded tr = [handler.BAsset asset]
         end
  end.
Proof.
  intros Huser tr forbidden. subst tr. unfold handler.UpdateDescription.
  rewrite decide_False by done. destruct decoded as [err|description].
  { apply respondError_refused. }
  cbv zeta. lift_step.
  destruct (result ph (service.UpdateDescription id description userID) w)
    as [asset [err|]].
  - fold forbidden. case_decide.
    + destruct (respondError_refused handle handler.StatusForbidden err
                  (final ph
                     (service.UpdateDescription id description userID) w))
        as (-> & -> & ->).
      by rewrite app_nil_r.
    + destruct (respondError_refused handle
                  handler.StatusInternalServerError err
                  (final ph
                     (service.UpdateDescription id description userID) w))
        as (-> & -> & ->).
      by rewrite app_nil_r.
  - frun_simpl.
    destruct (fanswer handle (handler.Encode _) _); frun_simpl;
      cbn [handler.statuses handler.encoded handler.ports_called app is_log];
      by rewrite ?app_nil_r.
Qed.

End HandlerTheorems.

(** ** The adapters and handlers at concrete inputs *)

Section AdaptersConcrete.
Import mem.

(** A cached Insight row whose type column says "insight". *)
Lemma unmarshalAsset_agrees_witness :
  UnmarshalBase (blob_of asset1) = inr (base asset1)
  /\ postgres.unmarshalAsset "insight" (blob_of asset1)
     = unmarshal (blob_of asset1)
  /\ unmarshal (blob_of asset1) = (Some asset1, None).
Proof.
  assert (Hbase : UnmarshalBase (blob_of asset1) = inr (base asset1))
    by reflexivity.
  split; [exact Hbase|]. split; [|reflexivity].
  apply (unmarshalAsset_agrees "insight" (blob_of asset1) (base asset1)
           Hbase eq_refl).
  apply list_elem_of_further, list_elem_of_here.
Defined.

(** Saving asset "1" into an empty table and reading it back. *)
Lemma Save_FindByID_round_trip_witness :
  let t := ffinal postgres.serve (postgres.Save asset1) [] in
  Validate asset1 = None
  /\ Marshal asset1 = inr (blob_of asset1)
  /\ postgres.decodes asset1 (blob_of asset1)
  /\ t = [("1", "insight", blob_of asset1)]
  /\ fresult postgres.serve (postgres.Save asset1) [] = None
  /\ fresult postgres.serve (postgres.FindByID "1") t = (Some asset1, None).
Proof.
  assert (Hvalid : Validate asset1 = None) by reflexivity.
  assert (Hmarshal : Marshal asset1 = inr (blob_of asset1)) by reflexivity.
  assert (Hdec : postgres.decodes asset1 (blob_of asset1)) by reflexivity.
  split; [exact Hvalid|]. split; [exact Hmarshal|]. split; [exact Hdec|].
  split; [reflexivity|].
  destruct (Save_FindByID_round_trip postgres.serve asset1 (blob_of asset1)
              [] [("1", "insight", blob_of asset1)]
              Hvalid Hmarshal Hdec) as (_ & Hsave & Hfind & _).
  split; [by apply (Hsave 1)|by apply Hfind].
Defined.

(** A request that reached the handlers without a user id. *)
Lemma handlers_unauthorized_witness :
  (@None string = None \/ @None string = Some "")
  /\ handler.refused_with 401 "unauthorized"
       (ftrace handler.serve (handler.Delete None "1") warm)
  /\ rows (ffinal handler.serve (handler.Delete None "1") warm) = rows warm.
Proof.
  split; [by left|]. split; [|reflexivity].
  apply (handlers_unauthorized handler.serve None
           (inl (New "EOF")) "" "1" (fun _ => (0, None)) (fun _ => "")
           (inl (New "EOF")) warm).
  by left.
Defined.

(** User "u2" tries to delete the asset of "u1". *)
Lemma Delete_statuses_witness :
  let tr := ftrace handler.serve (handler.Delete (Some "u2") "1") warm in
  "u2" <> ""
  /\ handler.statuses tr = [403]
  /\ handler.ports_called tr = [RepoFindByID "1"]
  /\ handler.encoded tr
     = [handler.BError "forbidden: you do not own this asset"].
Proof.
  assert (Huser : "u2" <> "") by done.
  split; [exact Huser|].
  destruct (Delete_statuses handler.serve "u2" "1" warm Huser)
    as (_ & Hbody & Hforbidden & _).
  destruct (Hforbidden asset1) as [Hs Hp]; [reflexivity|done|].
  split; [exact Hs|]. split; [exact Hp|]. exact (proj2 Hbody).
Defined.

(** User "u1" posts an Insight that names another owner and no id. *)
Lemma Create_statuses_witness :
  let posted := insight "" "someone-else" "Test" "Knowledge" in
  let stored := insight "generated-id" "u1" "Test" "Knowledge" in
  let w := with_rows store_only [] in
  let tr :=
    ftrace handler.serve
      (handler.Create (Some "u1") (inr ("insight", blob_of posted))
         "generated-id") w in
  "u1" <> ""
  /\ handler.statuses tr = [201]
  /\ handler.encoded tr = [handler.BAsset (Some stored)]
  /\ head (handler.ports_called tr) = Some (RepoSave stored).
Proof.
  assert (Huser : "u1" <> "") by done.
  split; [exact Huser|].
  exact (proj2 (Create_statuses handler.serve "u1" "generated-id"
                  (inr ("insight",
                        blob_of (insight "" "someone-else" "Test"
                                   "Knowledge")))
                  (with_rows store_only []) Huser)).
Defined.

(** User "u1" lists their favorites without query parameters. *)
Lemma List_streams_witness :
  let tr :=
    ftrace handler.serve
      (handler.List (Some "u1") (fun _ => (0, None)) (fun _ => ""))
      store_only in
  "u1" <> ""
  /\ handler.ports_called tr = [RepoFindByUser "u1" 10 0]
  /\ handler.statuses tr = [200]
  /\ handler.encoded tr
     = [handler.BAsset (Some asset2); handler.BAsset (Some asset1)].
Proof.
  assert (Huser : "u1" <> "") by done.
  split; [exact Huser|].
  destruct (List_streams handler.serve "u1" (fun _ => (0, None))
              (fun _ => "") store_only Huser) as (Hp & _ & Hs & _ & Hall).
  split; [exact Hp|]. split; [exact Hs|]. by apply Hall.
Defined.

(** User "u2" tries to re-describe the asset of "u1". *)
Lemma UpdateDescription_statuses_witness :
  let tr :=
    ftrace handler.serve
      (handler.UpdateDescription (Some "u2") "1" (inr "mine now")) warm in
  "u2" <> ""
  /\ handler.ports_called tr = [RepoFindByID "1"]
  /\ handler.statuses tr = [403]
  /\ handler.encoded tr
     = [handler.BError "forbidden: you do not own this asset"].
Proof.
  assert (Huser : "u2" <> "") by done.
  split; [exact Huser|].
  destruct (UpdateDescription_statuses handler.serve "u2" "1"
              (inr "mine now") warm Huser) as (Hp & Hs & He).
  split; [exact Hp|]. split; [exact Hs|exact He].
Defined.

End AdaptersConcrete.
